(** * Sudoku generator and solver (sudoku.c): shallow embedding and proofs

    The C program keeps a 9x9 board of [int] cells together with three
    families of [unsigned] bit masks (rows, columns, boxes).  The search
    engine mutates both in place; here that state is passed explicitly.
    [int] values are modelled in [Z], [unsigned] values in [Z] reduced
    modulo [2^32] where the C operation can wrap, array indices in [nat].
    Of [main], the start-up and the command handlers are modelled on the
    four boards of the game; reading, tokenising and printing are not. *)

From Stdlib Require Import ZArith List Bool Lia ZifyNat Permutation Sorted Ascii String.
From stdpp Require Import base numbers list.

(** ** Constants and machine arithmetic *)

Definition N : nat := 9.
Definition BOX : nat := 3.
Definition ALL : Z := (Z.shiftl 1 9 - 1)%Z.

(** Value of an [unsigned] expression: reduction modulo [2^32]. *)
Definition u32 (x : Z) : Z := (x mod 2 ^ 32)%Z.
(** [~x] on [unsigned]. *)
Definition unot (x : Z) : Z := u32 (Z.lnot x).
(** [-x] on [unsigned]. *)
Definition uneg (x : Z) : Z := u32 (- x).
(** [1u << (v-1)]. *)
Definition bit_of (v : Z) : Z := u32 (Z.shiftl 1 (v - 1)).

(** ** Data model *)

Record Board := mkBoard { grid : list (list Z) }.

Record Masks := mkMasks { row : list Z; col : list Z; box : list Z }.

Record Choice := mkChoice { ch_r : nat; ch_c : nat; ch_cand : Z }.

Inductive Difficulty := DIFF_EASY | DIFF_MEDIUM | DIFF_HARD.

(** [b->grid[r][c]] *)
Definition cell (b : Board) (r c : nat) : Z := (grid b !!! r) !!! c.

(** [b->grid[r][c] = v] *)
Definition store (b : Board) (r c : nat) (v : Z) : Board :=
  mkBoard (<[r := (<[c := v]> (grid b !!! r))]> (grid b)).

(** The index pairs visited by [for(i=0;i<n;i++) for(j=0;j<m;j++)], in order. *)
Definition pairs (n m : nat) : list (nat * nat) :=
  List.flat_map (fun i => List.map (fun j => (i, j)) (seq 0 m)) (seq 0 n).

Definition all_cells : list (nat * nat) := pairs N N.

Definition box_index (r c : nat) : nat := (r / BOX) * BOX + c / BOX.

(** [__builtin_popcount] on a 32-bit word. *)
Definition popcount9 (x : Z) : Z :=
  Z.of_nat (length (List.filter (fun i => Z.testbit x (Z.of_nat i)) (seq 0 32))).

(** [__builtin_ctz] on a 32-bit word (the C builtin is undefined at 0;
    the model answers 32 there). *)
Definition lsb_index (x : Z) : Z :=
  match List.find (fun i => Z.testbit x (Z.of_nat i)) (seq 0 32) with
  | Some i => Z.of_nat i
  | None => 32%Z
  end.

(** [a[i] |= bit] and [a[i] &= ~bit] on a mask array. *)
Definition or_bit (a : list Z) (i : nat) (bit : Z) : list Z :=
  <[i := Z.lor (a !!! i) bit]> a.
Definition and_not_bit (a : list Z) (i : nat) (bit : Z) : list Z :=
  <[i := Z.land (a !!! i) (unot bit)]> a.

(** ** Board/Constraint state *)

Definition zero_masks : Masks :=
  mkMasks (replicate N 0%Z) (replicate N 0%Z) (replicate N 0%Z).

(** [masks_init]: the first loop zeroes all 27 masks (so the previous
    content of [*m] is irrelevant), the second ors in one bit per filled
    cell. *)
Definition masks_init (b : Board) : Masks :=
  fold_left
    (fun m '(i, j) =>
       let v := cell b i j in
       if (v =? 0)%Z then m
       else
         let bit := bit_of v in
         mkMasks (or_bit (row m) i bit) (or_bit (col m) j bit)
                 (or_bit (box m) (box_index i j) bit))
    all_cells zero_masks.

Definition used_mask (m : Masks) (r c : nat) : Z :=
  Z.lor (Z.lor (row m !!! r) (col m !!! c)) (box m !!! box_index r c).

Definition candidates_mask (m : Masks) (r c : nat) : Z :=
  Z.land (unot (used_mask m r c)) ALL.

Definition apply_set (b : Board) (m : Masks) (r c : nat) (v : Z) : Board * Masks :=
  let b' := store b r c v in
  let bit := bit_of v in
  (b', mkMasks (or_bit (row m) r bit) (or_bit (col m) c bit)
               (or_bit (box m) (box_index r c) bit)).

Definition apply_clear (b : Board) (m : Masks) (r c : nat) : Board * Masks :=
  let v := cell b r c in
  if (v =? 0)%Z then (b, m)
  else
    let bit := bit_of v in
    (store b r c 0%Z,
     mkMasks (and_not_bit (row m) r bit) (and_not_bit (col m) c bit)
             (and_not_bit (box m) (box_index r c) bit)).

(** ** Legality check *)

(** One pass over the nine cells of a row, column or box with the running
    [used] bit set; [false] is the early [return false]. *)
Fixpoint unit_scan (vals : list Z) (used : Z) : bool :=
  match vals with
  | [] => true
  | v :: rest =>
      if (v =? 0)%Z then unit_scan rest used
      else
        let bit := Z.shiftl 1 (v - 1) in
        if negb (Z.land used bit =? 0)%Z then false
        else unit_scan rest (Z.lor used bit)
  end.

Definition is_legal (b : Board) : bool :=
  forallb (fun r => unit_scan (List.map (fun c => cell b r c) (seq 0 N)) 0%Z) (seq 0 N)
  && forallb (fun c => unit_scan (List.map (fun r => cell b r c) (seq 0 N)) 0%Z) (seq 0 N)
  && forallb (fun br =>
       forallb (fun bc =>
         unit_scan (List.map (fun '(dr, dc) => cell b (br + dr) (bc + dc)) (pairs 3 3)) 0%Z)
         [0; 3; 6]) [0; 3; 6].

(** ** MRV cell selection *)

Record Best := mkBest { bestMask : Z; bestR : Z; bestC : Z; bestCount : Z }.

(** The double loop of [find_best_cell] over the remaining cells.  [None]
    is the early [return false] (dead cell); [Some st] is the state with
    which control reaches the label [done], either by the [goto] or by
    running off the end of the loops. *)
Fixpoint scan_cells (cells : list (nat * nat)) (b : Board) (m : Masks) (st : Best)
  : option Best :=
  match cells with
  | [] => Some st
  | (r, c) :: rest =>
      if negb (cell b r c =? 0)%Z then scan_cells rest b m st
      else
        let cand := candidates_mask m r c in
        let cnt := popcount9 cand in
        if (cnt =? 0)%Z then None
        else if (cnt <? bestCount st)%Z then
          let st' := mkBest cand (Z.of_nat r) (Z.of_nat c) cnt in
          if (cnt =? 1)%Z then Some st' else scan_cells rest b m st'
        else scan_cells rest b m st
  end.

Definition find_best_cell (b : Board) (m : Masks) : option Choice :=
  match scan_cells all_cells b m (mkBest 0 (-1) (-1) 10) with
  | None => None
  | Some st =>
      if (bestR st =? -1)%Z then None
      else Some (mkChoice (Z.to_nat (bestR st)) (Z.to_nat (bestC st)) (bestMask st))
  end.

(** ** Search engine *)

(** The [any_empty] scan shared by [count_rec] and [solve_rec]. *)
Definition any_empty (b : Board) : bool :=
  existsb (fun '(r, c) => (cell b r c =? 0)%Z) all_cells.

(** Iteration budget of [while(cand)]: every pass clears one bit of a
    32-bit word. *)
Definition loop_budget : nat := 33.

(** Budget of nested calls: 81 cells and the final call on a full board. *)
Definition depth_bound : nat := S (N * N).

(** The [while(cand)] loop of [count_rec]; [rec] is the recursive call. *)
Fixpoint count_loop (rec : Board -> Masks -> Z -> option (Board * Masks * Z))
    (n : nat) (r c : nat) (cand : Z) (bb : Board) (mm : Masks) (lim total : Z)
  : option (Board * Masks * Z) :=
  match n with
  | O => None
  | S n' =>
      if (cand =? 0)%Z then Some (bb, mm, total)
      else
        let bit := Z.land cand (uneg cand) in
        let cand' := Z.lxor cand bit in
        let v := (lsb_index bit + 1)%Z in
        let '(bb1, mm1) := apply_set bb mm r c v in
        match rec bb1 mm1 (lim - total)%Z with
        | None => None
        | Some (bb2, mm2, k) =>
            let total' := (total + k)%Z in
            let '(bb3, mm3) := apply_clear bb2 mm2 r c in
            if (total' >=? lim)%Z then Some (bb3, mm3, total')
            else count_loop rec n' r c cand' bb3 mm3 lim total'
        end
  end.

(** [count_rec] with an explicit bound on the nesting of calls; [None]
    only when the bound is exhausted. *)
Fixpoint count_rec (fuel : nat) (bb : Board) (mm : Masks) (lim : Z)
  : option (Board * Masks * Z) :=
  match fuel with
  | O => None
  | S fuel' =>
      if negb (any_empty bb) then Some (bb, mm, 1%Z)
      else
        match find_best_cell bb mm with
        | None => Some (bb, mm, 0%Z)
        | Some ch =>
            count_loop (count_rec fuel') loop_budget (ch_r ch) (ch_c ch) (ch_cand ch)
                       bb mm lim 0%Z
        end
  end.

(** State at the end of [count_solutions]: the caller's board [*b], the
    private copy [tmp], the masks and the returned count. *)
Definition count_solutions_run (b : Board) (limit : Z)
  : option (Board * Board * Masks * Z) :=
  let m := masks_init b in
  let tmp := b in
  match count_rec depth_bound tmp m limit with
  | None => None
  | Some (tmp', m', n) => Some (b, tmp', m', n)
  end.

(** [count_solutions]: the caller's board after the call and the result. *)
Definition count_solutions (b : Board) (limit : Z) : option (Board * Z) :=
  match count_solutions_run b limit with
  | None => None
  | Some (b', _, _, n) => Some (b', n)
  end.

(** The [while(cand)] loop of [solve_rec]. *)
Fixpoint solve_loop (rec : Board -> Masks -> option (bool * Board * Masks))
    (n : nat) (r c : nat) (cand : Z) (bb : Board) (mm : Masks)
  : option (bool * Board * Masks) :=
  match n with
  | O => None
  | S n' =>
      if (cand =? 0)%Z then Some (false, bb, mm)
      else
        let bit := Z.land cand (uneg cand) in
        let cand' := Z.lxor cand bit in
        let v := (lsb_index bit + 1)%Z in
        let '(bb1, mm1) := apply_set bb mm r c v in
        match rec bb1 mm1 with
        | None => None
        | Some (true, bb2, mm2) => Some (true, bb2, mm2)
        | Some (false, bb2, mm2) =>
            let '(bb3, mm3) := apply_clear bb2 mm2 r c in
            solve_loop rec n' r c cand' bb3 mm3
        end
  end.

Fixpoint solve_rec (fuel : nat) (bb : Board) (mm : Masks)
  : option (bool * Board * Masks) :=
  match fuel with
  | O => None
  | S fuel' =>
      if negb (any_empty bb) then Some (true, bb, mm)
      else
        match find_best_cell bb mm with
        | None => Some (false, bb, mm)
        | Some ch =>
            solve_loop (solve_rec fuel') loop_budget (ch_r ch) (ch_c ch) (ch_cand ch) bb mm
        end
  end.

(** [solve_board]: the flag returned and the board [*b] after the call. *)
Definition solve_board (b : Board) : option (bool * Board) :=
  match solve_rec depth_bound b (masks_init b) with
  | None => None
  | Some (ok, b', _) => Some (ok, b')
  end.

(** ** Random source *)

(** The process-wide generator behind [rand()]: the sequence of values it
    will return and the number of calls made so far. *)
Record Rand := mkRand { draws : nat -> Z; pos : nat }.

Definition rand (g : Rand) : Z * Rand :=
  (draws g (pos g), mkRand (draws g) (S (pos g))).

(** ** Complete-grid generator *)

Definition base_complete (b : Board) : Board :=
  fold_left
    (fun b '(r, c) => store b r c (Z.of_nat ((r * 3 + r / 3 + c) mod 9) + 1)%Z)
    all_cells b.

(** The loop [for(i=...;i>0;i--)] of [shuffle_array], entered with counter [i]. *)
Fixpoint shuffle_from (i : nat) (a : list Z) (g : Rand) : list Z * Rand :=
  match i with
  | O => (a, g)
  | S i' =>
      let '(x, g1) := rand g in
      let j := Z.to_nat (Z.rem x (Z.of_nat i + 1)) in
      let t := a !!! i in
      let a1 := <[i := a !!! j]> a in
      let a2 := <[j := t]> a1 in
      shuffle_from i' a2 g1
  end.

Definition shuffle_array (a : list Z) (n : nat) (g : Rand) : list Z * Rand :=
  shuffle_from (n - 1) a g.

(** [map[0]] is never written by the C code; the model puts 0 there. *)
Definition permute_digits (b : Board) (g : Rand) : Board * Rand :=
  let '(tl, g1) := shuffle_array [1; 2; 3; 4; 5; 6; 7; 8; 9]%Z 9 g in
  let dmap := 0%Z :: tl in
  (fold_left
     (fun b '(r, c) => let v := cell b r c in store b r c (dmap !!! Z.to_nat v))
     all_cells b,
   g1).

(** Body of the [band] loop of [shuffle_rows_within_bands]. *)
Definition shuffle_rows_band (band : nat) (b : Board) (g : Rand) : Board * Rand :=
  let '(rows, g1) :=
    shuffle_array [Z.of_nat (band * 3); Z.of_nat (band * 3 + 1); Z.of_nat (band * 3 + 2)] 3 g in
  let tmp :=
    List.map (fun i => List.map (fun c => cell b (Z.to_nat (rows !!! i)) c) (seq 0 N)) (seq 0 3) in
  (fold_left (fun b '(i, c) => store b (band * 3 + i) c ((tmp !!! i) !!! c)) (pairs 3 N) b, g1).

Definition shuffle_rows_within_bands (b : Board) (g : Rand) : Board * Rand :=
  fold_left (fun '(b, g) band => shuffle_rows_band band b g) (seq 0 3) (b, g).

(** Body of the [stack] loop of [shuffle_cols_within_stacks]. *)
Definition shuffle_cols_stack (stack : nat) (b : Board) (g : Rand) : Board * Rand :=
  let '(cols, g1) :=
    shuffle_array [Z.of_nat (stack * 3); Z.of_nat (stack * 3 + 1); Z.of_nat (stack * 3 + 2)] 3 g in
  let tmp :=
    List.map (fun i => List.map (fun r => cell b r (Z.to_nat (cols !!! i))) (seq 0 N)) (seq 0 3) in
  (fold_left (fun b '(i, r) => store b r (stack * 3 + i) ((tmp !!! i) !!! r)) (pairs 3 N) b, g1).

Definition shuffle_cols_within_stacks (b : Board) (g : Rand) : Board * Rand :=
  fold_left (fun '(b, g) stack => shuffle_cols_stack stack b g) (seq 0 3) (b, g).

(** Index triples of a three-deep loop nest, in order. *)
Definition triples (n m k : nat) : list (nat * nat * nat) :=
  List.flat_map (fun '(i, j) => List.map (fun l => (i, j, l)) (seq 0 k)) (pairs n m).

Definition shuffle_bands (b : Board) (g : Rand) : Board * Rand :=
  let '(bands, g1) := shuffle_array [0; 1; 2]%Z 3 g in
  let copy := b in
  (fold_left
     (fun b '(i, r, c) => store b (i * 3 + r) c (cell copy (Z.to_nat (bands !!! i) * 3 + r) c))
     (triples 3 3 N) b,
   g1).

Definition shuffle_stacks (b : Board) (g : Rand) : Board * Rand :=
  let '(stacks, g1) := shuffle_array [0; 1; 2]%Z 3 g in
  let copy := b in
  (fold_left
     (fun b '(i, c, r) => store b r (i * 3 + c) (cell copy r (Z.to_nat (stacks !!! i) * 3 + c)))
     (triples 3 3 N) b,
   g1).

Definition generate_complete (sol : Board) (g : Rand) : Board * Rand :=
  let sol := base_complete sol in
  let '(sol, g) := permute_digits sol g in
  let '(sol, g) := shuffle_rows_within_bands sol g in
  let '(sol, g) := shuffle_cols_within_stacks sol g in
  let '(sol, g) := shuffle_bands sol g in
  shuffle_stacks sol g.

(** ** Puzzle carver *)

Definition target_clues (d : Difficulty) : Z :=
  match d with
  | DIFF_EASY => 45
  | DIFF_MEDIUM => 36
  | DIFF_HARD => 27
  end%Z.

(** Loop-carried state of [make_puzzle]. *)
Record Carve := mkCarve { cv_puzzle : Board; cv_clues : Z; cv_attempts : Z }.

(** The tentative grid [test] and the counter [removed] built for cell [(r,c)]. *)
Definition tentative (puzzle : Board) (r c : nat) : Board * Z :=
  let sr := 8 - r in
  let sc := 8 - c in
  let test := store puzzle r c 0%Z in
  if negb ((sr =? r) && (sc =? c)) && negb (cell test sr sc =? 0)%Z
  then (store test sr sc 0%Z, 2%Z)
  else (test, 1%Z).

(** The two stores of the commit branch. *)
Definition commit (puzzle : Board) (r c : nat) : Board :=
  let sr := 8 - r in
  let sc := 8 - c in
  let p := store puzzle r c 0%Z in
  if negb ((sr =? r) && (sc =? c)) then store p sr sc 0%Z else p.

(** One pass of the loop body for the cell number [i = cells[idx]]; the
    flag is [true] when the pass ends in [break].  [None] only if the call
    budget of [count_solutions] is exhausted. *)
Definition carve_step (i : Z) (st : Carve) : option (Carve * bool) :=
  let r := Z.to_nat (Z.quot i 9) in
  let c := Z.to_nat (Z.rem i 9) in
  let puzzle := cv_puzzle st in
  if (cell puzzle r c =? 0)%Z then Some (st, false)
  else
    let '(test, removed) := tentative puzzle r c in
    match count_solutions test 2 with
    | None => None
    | Some (_, sols) =>
        let st1 :=
          if (sols =? 1)%Z
          then mkCarve (commit puzzle r c) (cv_clues st - removed)%Z (cv_attempts st)
          else st in
        let attempts := (cv_attempts st1 + 1)%Z in
        Some (mkCarve (cv_puzzle st1) (cv_clues st1) attempts, (attempts >? 20000)%Z)
    end.

(** The [for(idx...)] loop with [k = N*N - idx] passes still possible. *)
Fixpoint carve_loop (k idx : nat) (cells : list Z) (target : Z) (st : Carve)
  : option Carve :=
  match k with
  | O => Some st
  | S k' =>
      if negb (cv_clues st >? target)%Z then Some st
      else
        match carve_step (cells !!! idx) st with
        | None => None
        | Some (st', true) => Some st'
        | Some (st', false) => carve_loop k' (S idx) cells target st'
        end
  end.

Definition make_puzzle (solution : Board) (d : Difficulty) (g : Rand)
  : option (Board * Rand) :=
  let puzzle := solution in
  let target := target_clues d in
  let clues := Z.of_nat (N * N) in
  let '(cells, g1) := shuffle_array (List.map Z.of_nat (seq 0 (N * N))) (N * N) g in
  match carve_loop (N * N) 0 cells target (mkCarve puzzle clues 0%Z) with
  | None => None
  | Some st => Some (cv_puzzle st, g1)
  end.

(** ** Specification vocabulary *)

(** A 9x9 array. *)
Definition shape (b : Board) : Prop :=
  length (grid b) = N /\ Forall (fun rw => length rw = N) (grid b).

(** Well-formed board: 9x9 with every cell in 0..9. *)
Definition wf (b : Board) : Prop :=
  shape b /\ forall r c, r < N -> c < N -> (0 <= cell b r c <= 9)%Z.

Definition complete (b : Board) : Prop :=
  forall r c, r < N -> c < N -> cell b r c <> 0%Z.

(** Two distinct cells sharing a row, a column or a box. *)
Definition peer (r c r' c' : nat) : Prop :=
  (r, c) <> (r', c') /\ (r = r' \/ c = c' \/ box_index r c = box_index r' c').

(** No row, column or box holds the same nonzero digit twice. *)
Definition legal (b : Board) : Prop :=
  forall r c r' c', r < N -> c < N -> r' < N -> c' < N ->
    peer r c r' c' -> cell b r c <> 0%Z -> cell b r c <> cell b r' c'.

(** [s] completes [b]: a full legal grid of digits 1..9 that keeps every clue of [b]. *)
Definition completion (b s : Board) : Prop :=
  wf s /\ complete s /\ legal s /\
  forall r c, r < N -> c < N -> cell b r c <> 0%Z -> cell s r c = cell b r c.

(** [l] lists the completions of [b], each exactly once. *)
Definition solutions (b : Board) (l : list Board) : Prop :=
  List.NoDup l /\ forall s, In s l <-> completion b s.

Definition mask_ok (x : Z) : Prop := (0 <= x < 2 ^ 32)%Z.

Definition masks_ok (m : Masks) : Prop :=
  (length (row m) = N /\ length (col m) = N /\ length (box m) = N) /\
  Forall mask_ok (row m) /\ Forall mask_ok (col m) /\ Forall mask_ok (box m).

(** Digit [d+1] occurs in row [r] / column [c] / box [k] of [b]. *)
Definition in_row (b : Board) (r : nat) (v : Z) : Prop :=
  exists c, c < N /\ cell b r c = v.
Definition in_col (b : Board) (c : nat) (v : Z) : Prop :=
  exists r, r < N /\ cell b r c = v.
Definition in_box (b : Board) (k : nat) (v : Z) : Prop :=
  exists r c, r < N /\ c < N /\ box_index r c = k /\ cell b r c = v.

(** The mask invariant: bit [d] of a mask is set iff digit [d+1] occurs
    in the corresponding row, column or box. *)
Definition consistent (b : Board) (m : Masks) : Prop :=
  masks_ok m /\
  forall i d, i < N -> (0 <= d)%Z ->
    (Z.testbit (row m !!! i) d = true <-> (d < 9)%Z /\ in_row b i (d + 1)) /\
    (Z.testbit (col m !!! i) d = true <-> (d < 9)%Z /\ in_col b i (d + 1)) /\
    (Z.testbit (box m !!! i) d = true <-> (d < 9)%Z /\ in_box b i (d + 1)).

(** Number of empty cells. *)
Definition empties (b : Board) : nat :=
  length (List.filter (fun '(r, c) => (cell b r c =? 0)%Z) all_cells).

(** The digits of a candidate set, ascending. *)
Definition digits_of (cand : Z) : list Z :=
  List.filter (fun v => Z.testbit cand (v - 1)) [1; 2; 3; 4; 5; 6; 7; 8; 9]%Z.

(** The empty cells of [b] with their candidate counts, in scan order. *)
Definition empty_cells (b : Board) : list (nat * nat) :=
  List.filter (fun '(r, c) => (cell b r c =? 0)%Z) all_cells.

(** Executable forms of [shape], [wf] and [complete]. *)
Definition shapeb (b : Board) : bool :=
  (length (grid b) =? N) && forallb (fun rw => length rw =? N) (grid b).
Definition wfb (b : Board) : bool :=
  shapeb b && forallb (fun '(r, c) => (0 <=? cell b r c)%Z && (cell b r c <=? 9)%Z) all_cells.
Definition completeb (b : Board) : bool := negb (any_empty b).
Definition mask_okb (x : Z) : bool := (0 <=? x)%Z && (x <? 2 ^ 32)%Z.
Definition masks_okb (m : Masks) : bool :=
  (length (row m) =? N) && (length (col m) =? N) && (length (box m) =? N)
  && forallb mask_okb (row m) && forallb mask_okb (col m) && forallb mask_okb (box m).

(** The facts about one pass of [while(cand)] used below, as a check on
    one candidate word. *)
Definition bit_step_ok (cand : Z) : bool :=
  let bit := Z.land cand (uneg cand) in
  let cand' := Z.lxor cand bit in
  let v := (lsb_index bit + 1)%Z in
  if (cand =? 0)%Z then
    match digits_of cand with [] => true | _ => false end
  else
    match digits_of cand with
    | [] => false
    | v0 :: rest =>
        (v0 =? v)%Z && bool_decide (rest = digits_of cand')
        && (0 <=? cand')%Z && (cand' <? cand)%Z
    end.

Definition popcount_ok (cand : Z) : bool :=
  (popcount9 cand =? Z.of_nat (length (digits_of cand)))%Z.

Definition words9 : list Z := List.map Z.of_nat (seq 0 512).

(** The two [while(cand)] loops again, driven by the ascending list of the
    digits of the candidate word instead of the bit manipulation. *)
Fixpoint count_digits (rec : Board -> Masks -> Z -> option (Board * Masks * Z))
    (r c : nat) (vs : list Z) (bb : Board) (mm : Masks) (lim total : Z)
  : option (Board * Masks * Z) :=
  match vs with
  | [] => Some (bb, mm, total)
  | v :: vs' =>
      let '(bb1, mm1) := apply_set bb mm r c v in
      match rec bb1 mm1 (lim - total)%Z with
      | None => None
      | Some (bb2, mm2, k) =>
          let total' := (total + k)%Z in
          let '(bb3, mm3) := apply_clear bb2 mm2 r c in
          if (total' >=? lim)%Z then Some (bb3, mm3, total')
          else count_digits rec r c vs' bb3 mm3 lim total'
      end
  end.

Fixpoint solve_digits (rec : Board -> Masks -> option (bool * Board * Masks))
    (r c : nat) (vs : list Z) (bb : Board) (mm : Masks)
  : option (bool * Board * Masks) :=
  match vs with
  | [] => Some (false, bb, mm)
  | v :: vs' =>
      let '(bb1, mm1) := apply_set bb mm r c v in
      match rec bb1 mm1 with
      | None => None
      | Some (true, bb2, mm2) => Some (true, bb2, mm2)
      | Some (false, bb2, mm2) =>
          let '(bb3, mm3) := apply_clear bb2 mm2 r c in
          solve_digits rec r c vs' bb3 mm3
      end
  end.

(** Candidate count of a cell, as [find_best_cell] computes it. *)
Definition cand_count (m : Masks) (p : nat * nat) : Z :=
  popcount9 (candidates_mask m (fst p) (snd p)).

(** State of the scan of [find_best_cell]: nothing recorded yet, or a
    recorded empty cell with its candidate word. *)
Definition best_good (b : Board) (m : Masks) (st : Best) : Prop :=
  (bestR st = (-1)%Z /\ bestCount st = 10%Z) \/
  exists r c, r < N /\ c < N /\ bestR st = Z.of_nat r /\ bestC st = Z.of_nat c /\
    cell b r c = 0%Z /\ bestMask st = candidates_mask m r c /\
    (1 <= popcount9 (bestMask st))%Z.

(** Executable form of [completion]. *)
Definition agreeb (b s : Board) : bool :=
  forallb (fun '(r, c) => (cell b r c =? 0)%Z || (cell s r c =? cell b r c)%Z) all_cells.
Definition completionb (b s : Board) : bool :=
  wfb s && completeb s && is_legal s && agreeb b s.

(** ** Example boards *)

Definition empty_board : Board := mkBoard (replicate N (replicate N 0%Z)).

(** The base pattern, row 0 = 1..9. *)
Definition base_board : Board := base_complete empty_board.

(** A 26-clue puzzle and its solution. *)
Definition ex_puzzle : Board :=
  mkBoard
    [[0; 3; 0; 0; 7; 0; 8; 6; 0];
     [0; 0; 0; 4; 0; 0; 0; 0; 0];
     [0; 4; 6; 3; 0; 5; 0; 0; 0];
     [0; 5; 0; 0; 0; 0; 0; 0; 8];
     [6; 0; 1; 0; 0; 0; 7; 0; 2];
     [7; 0; 0; 0; 0; 0; 0; 4; 0];
     [0; 0; 0; 9; 0; 4; 3; 5; 0];
     [0; 0; 0; 0; 0; 3; 0; 0; 0];
     [0; 7; 5; 0; 2; 0; 0; 8; 0]]%Z.

Definition ex_solution : Board :=
  mkBoard
    [[5; 3; 9; 1; 7; 2; 8; 6; 4];
     [2; 1; 7; 4; 6; 8; 5; 9; 3];
     [8; 4; 6; 3; 9; 5; 2; 7; 1];
     [9; 5; 4; 2; 3; 7; 6; 1; 8];
     [6; 8; 1; 5; 4; 9; 7; 3; 2];
     [7; 2; 3; 8; 1; 6; 9; 4; 5];
     [1; 6; 2; 9; 8; 4; 3; 5; 7];
     [4; 9; 8; 7; 5; 3; 1; 2; 6];
     [3; 7; 5; 6; 2; 1; 4; 8; 9]]%Z.

(** A legal board without completion: cell (4,0) has no candidate, while
    cell (0,0), met earlier by the scan, has exactly one. *)
Definition dead_board : Board :=
  mkBoard
    [[0; 2; 3; 4; 5; 6; 7; 8; 9];
     [0; 0; 0; 0; 0; 0; 0; 0; 0];
     [0; 0; 0; 0; 0; 0; 0; 0; 0];
     [0; 0; 0; 0; 0; 0; 0; 0; 0];
     [0; 1; 2; 3; 4; 5; 6; 7; 8];
     [0; 0; 0; 0; 0; 0; 0; 0; 0];
     [0; 0; 0; 0; 0; 0; 0; 0; 0];
     [0; 0; 0; 0; 0; 0; 0; 0; 0];
     [9; 0; 0; 0; 0; 0; 0; 0; 0]]%Z.

(** A board whose only clue is a 1 at (0,1). *)
Definition one_clue_board : Board := store empty_board 0 1 1%Z.

(** A fixed sequence of [rand()] results. *)
Definition ex_rand : Rand := mkRand (fun n => (Z.of_nat n * 7919 + 13)%Z) 0.

(** [rand()] never returns a negative value. *)
Definition rand_ok (g : Rand) : Prop := forall n, (0 <= draws g n)%Z.

(** A valid complete grid. *)
Definition valid (b : Board) : Prop := wf b /\ complete b /\ legal b.

(** ** Move checking of the interactive game *)

(** [can_place]: the cell is not a given and [v] occurs nowhere in the
    row, the column and the box of [(r,c)] of the current board (the cell
    itself included). *)
Definition can_place (current fixed : Board) (r c : nat) (v : Z) : bool :=
  if negb (cell fixed r c =? 0)%Z then false
  else
    forallb (fun i => negb (cell current r i =? v)%Z && negb (cell current i c =? v)%Z)
            (seq 0 N)
    && (let br := (r / 3) * 3 in
        let bc := (c / 3) * 3 in
        forallb (fun '(dr, dc) => negb (cell current (br + dr) (bc + dc) =? v)%Z)
                (pairs 3 3)).

(** The body of the double loop of [is_complete_and_correct] for one cell;
    [false] is the early [return false]. *)
Definition cell_correct (current : Board) (r c : nat) : bool :=
  let v := cell current r c in
  if (v <? 1)%Z || (v >? 9)%Z then false
  else
    forallb (fun i =>
               negb (negb (i =? c) && (cell current r i =? v)%Z)
               && negb (negb (i =? r) && (cell current i c =? v)%Z))
            (seq 0 N)
    && (let br := (r / 3) * 3 in
        let bc := (c / 3) * 3 in
        forallb (fun '(dr, dc) =>
                   let rr := br + dr in
                   let cc := bc + dc in
                   if (rr =? r) && (cc =? c) then true
                   else negb (cell current rr cc =? v)%Z)
                (pairs 3 3)).

Definition is_complete_and_correct (current : Board) : bool :=
  forallb (fun '(r, c) => cell_correct current r c) all_cells.

(** ** Difficulty selection *)

(** A C string is given by its characters before the terminating NUL; the
    character read at the end of the string is 0. *)
Definition char_at_head (s : string) : Z :=
  match s with
  | EmptyString => 0%Z
  | String a _ => Z.of_nat (nat_of_ascii a)
  end.

Definition str_tail (s : string) : string :=
  match s with
  | EmptyString => EmptyString
  | String _ s' => s'
  end.

(** [strncmp]: compare at most [n] characters, stopping after a NUL. *)
Fixpoint strncmp (s t : string) (n : nat) : Z :=
  match n with
  | O => 0%Z
  | S n' =>
      let a := char_at_head s in
      let b := char_at_head t in
      if (a =? b)%Z then
        if (a =? 0)%Z then 0%Z else strncmp (str_tail s) (str_tail t) n'
      else (a - b)%Z
  end.

(** [parse_difficulty]; [None] is the null pointer. *)
Definition parse_difficulty (s : option string) : Difficulty :=
  match s with
  | None => DIFF_MEDIUM
  | Some s =>
      if (strncmp s "easy" 4 =? 0)%Z then DIFF_EASY
      else if (strncmp s "hard" 4 =? 0)%Z then DIFF_HARD
      else DIFF_MEDIUM
  end.

(** [tolower] in the "C" locale, which is in force since the program never
    calls [setlocale]. *)
Definition tolower (a : ascii) : ascii :=
  let n := nat_of_ascii a in
  if (65 <=? n) && (n <=? 90) then ascii_of_nat (n + 32) else a.

(** The loop that lowers every character of [buf] in place: it stops at
    the first NUL. *)
Fixpoint lower_buf (s : string) : string :=
  match s with
  | EmptyString => EmptyString
  | String a s' =>
      if (nat_of_ascii a =? 0) then s
      else String (tolower a) (lower_buf s')
  end.

(** [prompt_difficulty] after its output: [line] is what [read_line] left
    in [buf], [None] when [read_line] failed. *)
Definition prompt_difficulty (line : option string) : Difficulty :=
  match line with
  | None => DIFF_MEDIUM
  | Some buf =>
      let buf := lower_buf buf in
      if (char_at_head buf =? 0)%Z then DIFF_MEDIUM
      else parse_difficulty (Some buf)
  end.

(** ** The game state and the commands of [main] *)

(** The four boards of [main]. *)
Record Game := mkGame
  { g_solution : Board; g_puzzle : Board; g_current : Board; g_fixed : Board }.

(** What [main] prints in answer to a command (the board printing apart). *)
Inductive Reply :=
  | RangeError      (* "r,c in 1..9 ..." *)
  | IllegalMove     (* "Illegal move (conflict or fixed cell)." *)
  | GivenCell       (* "That cell is a given..." *)
  | NoSolution      (* "No solution ..." *)
  | NoHint          (* "No hint available." *)
  | Violations      (* "There are rule violations." *)
  | CompleteCorrect (* "Looks complete and correct. Nice!" *)
  | SoFarSoGood     (* "So far so good. ..." *)
  | Shown           (* the board is printed *)
  | ShownSolved     (* the board is printed, then "Solved!" *)
  | Restarted
  | HelpText.

(** A command line after [parse_ints] succeeded: the integers are the
    1-based numbers typed by the player.  The handlers subtract 1 in [Z];
    for the one [int] where the C subtraction would overflow (the least
    one) the mathematical value is out of range as well. *)
Inductive Command :=
  | CmdSet (a0 a1 a2 : Z)
  | CmdClear (a0 a1 : Z)
  | CmdHint (a0 a1 : Z)
  | CmdSolve
  | CmdRestart
  | CmdCheck
  | CmdPrint
  | CmdHelp.

(** [r<0||r>=9||c<0||c>=9] *)
Definition out_of_range (r c : Z) : bool :=
  (r <? 0)%Z || (r >=? 9)%Z || (c <? 0)%Z || (c >=? 9)%Z.

(** The start of [main] up to the first prompt: generation, carving and
    the two safety checks.  [mem] is the uninitialised content of
    [solution]. *)
Definition start_game (mem : Board) (diff : Difficulty) (g : Rand)
  : option (Game * Rand) :=
  let '(solution, g1) := generate_complete mem g in
  match make_puzzle solution diff g1 with
  | None => None
  | Some (puzzle, g2) =>
      let first :=
        if negb (is_legal puzzle) then
          let '(solution', g3) := generate_complete solution g2 in
          match make_puzzle solution' diff g3 with
          | None => None
          | Some (puzzle', g4) => Some (mkGame solution' puzzle' puzzle' puzzle', g4)
          end
        else Some (mkGame solution puzzle puzzle puzzle, g2) in
      match first with
      | None => None
      | Some (st, g5) =>
          let tmp := g_puzzle st in
          match count_solutions tmp 2 with
          | None => None
          | Some (_, n) =>
              if negb (n =? 1)%Z then
                let s2 := g_puzzle st in
                match solve_board s2 with
                | None => None
                | Some (true, s2') =>
                    Some (mkGame s2' (g_puzzle st) (g_current st) (g_fixed st), g5)
                | Some (false, _) =>
                    let '(solution', g6) := generate_complete (g_solution st) g5 in
                    Some (mkGame solution' (g_puzzle st) (g_current st) (g_fixed st), g6)
                end
              else Some (st, g5)
          end
      end
  end.

(** One pass of the command loop for a parsed command: the new state and
    the reply.  [None] only if the call budget of [solve_board] is
    exhausted. *)
Definition step (cmd : Command) (st : Game) : option (Game * Reply) :=
  match cmd with
  | CmdSet a0 a1 a2 =>
      let r := (a0 - 1)%Z in
      let c := (a1 - 1)%Z in
      let v := a2 in
      if out_of_range r c || (v <? 1)%Z || (v >? 9)%Z then Some (st, RangeError)
      else if negb (can_place (g_current st) (g_fixed st) (Z.to_nat r) (Z.to_nat c) v)
      then Some (st, IllegalMove)
      else
        let cur := store (g_current st) (Z.to_nat r) (Z.to_nat c) v in
        Some (mkGame (g_solution st) (g_puzzle st) cur (g_fixed st),
              if is_complete_and_correct cur then ShownSolved else Shown)
  | CmdClear a0 a1 =>
      let r := (a0 - 1)%Z in
      let c := (a1 - 1)%Z in
      if out_of_range r c then Some (st, RangeError)
      else if negb (cell (g_fixed st) (Z.to_nat r) (Z.to_nat c) =? 0)%Z
      then Some (st, GivenCell)
      else
        Some (mkGame (g_solution st) (g_puzzle st)
                     (store (g_current st) (Z.to_nat r) (Z.to_nat c) 0%Z) (g_fixed st),
              Shown)
  | CmdHint a0 a1 =>
      let r := (a0 - 1)%Z in
      let c := (a1 - 1)%Z in
      if out_of_range r c then Some (st, RangeError)
      else if negb (cell (g_fixed st) (Z.to_nat r) (Z.to_nat c) =? 0)%Z
      then Some (st, GivenCell)
      else
        match solve_board (g_puzzle st) with
        | None => None
        | Some (false, _) => Some (st, NoSolution)
        | Some (true, s) =>
            let v := cell s (Z.to_nat r) (Z.to_nat c) in
            if (v =? 0)%Z then Some (st, NoHint)
            else
              Some (mkGame (g_solution st) (g_puzzle st)
                           (store (g_current st) (Z.to_nat r) (Z.to_nat c) v) (g_fixed st),
                    Shown)
        end
  | CmdSolve =>
      match solve_board (g_current st) with
      | None => None
      | Some (false, _) => Some (st, NoSolution)
      | Some (true, s) => Some (mkGame (g_solution st) (g_puzzle st) s (g_fixed st), Shown)
      end
  | CmdRestart =>
      Some (mkGame (g_solution st) (g_puzzle st) (g_puzzle st) (g_fixed st), Restarted)
  | CmdCheck =>
      Some (st,
            if negb (is_legal (g_current st)) then Violations
            else if is_complete_and_correct (g_current st) then CompleteCorrect
            else SoFarSoGood)
  | CmdPrint => Some (st, Shown)
  | CmdHelp => Some (st, HelpText)
  end.

(** A run of the command loop. *)
Fixpoint run (cmds : list Command) (st : Game) : option Game :=
  match cmds with
  | [] => Some st
  | cmd :: rest =>
      match step cmd st with
      | None => None
      | Some (st', _) => run rest st'
      end
  end.

(** Number of filled cells. *)
Definition clue_count (b : Board) : nat := N * N - empties b.

(** State of a game that the commands maintain: the givens are the
    nonzero cells of the puzzle and the current board carries them. *)
Definition game_ok (st : Game) : Prop :=
  wf (g_puzzle st) /\ g_fixed st = g_puzzle st /\ wf (g_current st) /\
  forall r c, r < N -> c < N -> cell (g_puzzle st) r c <> 0%Z ->
    cell (g_current st) r c = cell (g_puzzle st) r c.

(** Every cell of [p] is empty or holds the digit [s] has there. *)
Definition carved_from (s p : Board) : Prop :=
  forall r c, r < N -> c < N -> cell p r c = 0%Z \/ cell p r c = cell s r c.

(** The pattern of empty cells is unchanged by the half turn of the grid. *)
Definition half_turn_symmetric (p : Board) : Prop :=
  forall r c, r < N -> c < N ->
    (cell p r c = 0%Z <-> cell p (8 - r) (8 - c) = 0%Z).

(** The puzzle of the game is legal and the stored solution is its only
    completion. *)
Definition unique_solution (st : Game) : Prop :=
  is_legal (g_puzzle st) = true /\
  completion (g_puzzle st) (g_solution st) /\
  forall s, completion (g_puzzle st) s -> s = g_solution st.

(** A command that is not a hint. *)
Definition is_hint (cmd : Command) : bool :=
  match cmd with
  | CmdHint _ _ => true
  | _ => false
  end.

(** No character of [t] is NUL, so [t] is the content of a C string. *)
Fixpoint no_nul (t : string) : Prop :=
  match t with
  | EmptyString => True
  | String a t' => nat_of_ascii a <> 0 /\ no_nul t'
  end.

(** A game on the example puzzle, as [main] sets it up. *)
Definition ex_game : Game := mkGame ex_solution ex_puzzle ex_puzzle ex_puzzle.

(** * Proofs *)

Arguments apply_set : simpl never.
Arguments apply_clear : simpl never.
Arguments candidates_mask : simpl never.
Arguments find_best_cell : simpl never.
Arguments masks_init : simpl never.
Arguments any_empty : simpl never.

(** ** Arrays: reading and writing cells *)

Section BoardArray.

Lemma shape_rows (b : Board) (r : nat) :
  shape b -> r < N -> length (grid b !!! r) = N.
Proof.
  intros [Hl Hr] Hlt.
  rewrite Forall_forall in Hr. apply Hr.
  apply list_elem_of_lookup. exists r.
  apply list_lookup_lookup_total_lt. lia.
Qed.

Lemma cell_store_eq (b : Board) (r c : nat) (v : Z) :
  shape b -> r < N -> c < N -> cell (store b r c v) r c = v.
Proof.
  intros Hs Hr Hc. unfold cell, store; simpl.
  rewrite list_lookup_total_insert_eq by (destruct Hs; lia).
  rewrite list_lookup_total_insert_eq; [reflexivity|].
  rewrite shape_rows by assumption. exact Hc.
Qed.

Lemma cell_store_ne (b : Board) (r c r' c' : nat) (v : Z) :
  (r, c) <> (r', c') -> cell (store b r c v) r' c' = cell b r' c'.
Proof.
  intros Hne. unfold cell, store; simpl.
  destruct (decide (r = r')) as [->|Hr].
  - destruct (decide (r' < length (grid b))) as [Hlt|Hge].
    + rewrite list_lookup_total_insert_eq by assumption.
      rewrite list_lookup_total_insert_ne; [reflexivity|congruence].
    + rewrite list_insert_ge by lia. reflexivity.
  - rewrite list_lookup_total_insert_ne by assumption. reflexivity.
Qed.

Lemma cell_store (b : Board) (r c r' c' : nat) (v : Z) :
  shape b -> r < N -> c < N ->
  cell (store b r c v) r' c' = if decide ((r, c) = (r', c')) then v else cell b r' c'.
Proof.
  intros Hs Hr Hc. destruct (decide ((r, c) = (r', c'))) as [E|E].
  - inversion E; subst. apply cell_store_eq; assumption.
  - apply cell_store_ne; assumption.
Qed.

Lemma shape_store (b : Board) (r c : nat) (v : Z) :
  shape b -> shape (store b r c v).
Proof.
  intros Hs. pose proof Hs as [Hl Hr]. split; simpl.
  - rewrite length_insert. exact Hl.
  - rewrite Forall_forall in *. intros rw Hin.
    apply list_elem_of_lookup in Hin as [i Hi].
    destruct (decide (r = i)) as [->|Hne].
    + pose proof (lookup_lt_Some _ _ _ Hi) as Hlt. rewrite length_insert in Hlt.
      rewrite list_lookup_insert_eq in Hi by assumption.
      inversion Hi; subst. rewrite length_insert.
      apply Hr, list_elem_of_lookup. exists i.
      apply list_lookup_lookup_total_lt. assumption.
    + rewrite list_lookup_insert_ne in Hi by assumption.
      apply Hr, list_elem_of_lookup. eauto.
Qed.

Lemma board_ext (b b' : Board) :
  shape b -> shape b' ->
  (forall r c, r < N -> c < N -> cell b r c = cell b' r c) -> b = b'.
Proof.
  intros Hs Hs' Hc. destruct b as [g], b' as [g'].
  f_equal. apply (list_eq_same_length g g' N).
  - apply Hs'.
  - apply Hs.
  - intros i x y Hi Hx Hy.
    pose proof (shape_rows _ i Hs Hi) as Lx.
    pose proof (shape_rows _ i Hs' Hi) as Ly.
    simpl in Lx, Ly.
    rewrite (list_lookup_total_correct _ _ _ Hx) in Lx.
    rewrite (list_lookup_total_correct _ _ _ Hy) in Ly.
    apply (list_eq_same_length x y N); try assumption.
    intros j u w Hj Hu Hw.
    specialize (Hc i j Hi Hj). unfold cell in Hc; simpl in Hc.
    rewrite (list_lookup_total_correct _ _ _ Hx) in Hc.
    rewrite (list_lookup_total_correct _ _ _ Hy) in Hc.
    rewrite (list_lookup_total_correct _ _ _ Hu) in Hc.
    rewrite (list_lookup_total_correct _ _ _ Hw) in Hc.
    exact Hc.
Qed.

Lemma store_same (b : Board) (r c : nat) :
  shape b -> r < N -> c < N -> store b r c (cell b r c) = b.
Proof.
  intros Hs Hr Hc. apply board_ext; auto using shape_store.
  intros r' c' _ _. rewrite cell_store by assumption.
  destruct (decide ((r, c) = (r', c'))) as [E|E]; [inversion E; subst|]; reflexivity.
Qed.

Lemma store_store (b : Board) (r c : nat) (v w : Z) :
  shape b -> r < N -> c < N -> store (store b r c v) r c w = store b r c w.
Proof.
  intros Hs Hr Hc. apply board_ext; auto using shape_store.
  intros r' c' _ _. rewrite !cell_store by auto using shape_store.
  destruct (decide ((r, c) = (r', c'))); reflexivity.
Qed.

End BoardArray.

(** Linear arithmetic with division and remainder by constants. *)
Ltac divlia := unfold N, BOX in *; zify; Z.to_euclidean_division_equations; lia.

(** ** Bit-level facts about [unsigned] masks *)

Section Bits.

Lemma mask_ok_bits (x : Z) :
  mask_ok x <-> (forall d, (0 <= d)%Z -> Z.testbit x d = true -> (d < 32)%Z).
Proof.
  unfold mask_ok. split.
  - intros Hx d Hd Ht.
    rewrite <- (Z.mod_small x (2 ^ 32)) in Ht by lia.
    rewrite Z.testbit_mod_pow2 in Ht by lia.
    apply andb_true_iff in Ht as [Ht _]. lia.
  - intros Hb.
    assert (E : (x mod 2 ^ 32)%Z = x).
    { apply Z.bits_inj'. intros d Hd.
      rewrite Z.testbit_mod_pow2 by lia.
      destruct (Z.testbit x d) eqn:Ht.
      - specialize (Hb d Hd Ht). rewrite andb_true_r. lia.
      - apply andb_false_r. }
    rewrite <- E. apply Z.mod_pos_bound. lia.
Qed.

Lemma mask_ok_high (x d : Z) :
  mask_ok x -> (32 <= d)%Z -> Z.testbit x d = false.
Proof.
  intros Hx Hd. destruct (Z.testbit x d) eqn:Ht; [|reflexivity].
  apply mask_ok_bits in Ht; [lia|assumption|lia].
Qed.

Lemma bit_of_pow (v : Z) : (1 <= v <= 32)%Z -> bit_of v = (2 ^ (v - 1))%Z.
Proof.
  intros Hv. unfold bit_of, u32. rewrite Z.shiftl_1_l.
  apply Z.mod_small. split; [apply Z.pow_nonneg; lia|].
  apply Z.pow_lt_mono_r; lia.
Qed.

Lemma testbit_bit_of (v d : Z) :
  (1 <= v <= 32)%Z -> Z.testbit (bit_of v) d = (v - 1 =? d)%Z.
Proof.
  intros Hv. rewrite bit_of_pow by assumption.
  apply Z.pow2_bits_eqb. lia.
Qed.

Lemma testbit_unot (x d : Z) :
  (0 <= d)%Z -> Z.testbit (unot x) d = ((d <? 32)%Z && negb (Z.testbit x d)).
Proof.
  intros Hd. unfold unot, u32.
  rewrite Z.testbit_mod_pow2 by lia. rewrite Z.lnot_spec by assumption. reflexivity.
Qed.

Lemma mask_ok_lor_bit (x v : Z) :
  mask_ok x -> (1 <= v <= 32)%Z -> mask_ok (Z.lor x (bit_of v)).
Proof.
  intros Hx Hv. apply mask_ok_bits. intros d Hd Ht.
  rewrite Z.lor_spec, testbit_bit_of in Ht by assumption.
  apply orb_true_iff in Ht as [Ht|Ht].
  - apply mask_ok_bits in Ht; assumption.
  - lia.
Qed.

Lemma mask_ok_land (x y : Z) : mask_ok x -> mask_ok (Z.land x y).
Proof.
  intros Hx. apply mask_ok_bits. intros d Hd Ht.
  rewrite Z.land_spec in Ht. apply andb_true_iff in Ht as [Ht _].
  apply mask_ok_bits in Ht; assumption.
Qed.

(** Setting a bit that was clear and clearing it again gives back the word. *)
Lemma lor_land_unot (x v : Z) :
  mask_ok x -> (1 <= v <= 32)%Z -> Z.testbit x (v - 1) = false ->
  Z.land (Z.lor x (bit_of v)) (unot (bit_of v)) = x.
Proof.
  intros Hx Hv Hclear. apply Z.bits_inj'. intros d Hd.
  rewrite Z.land_spec, Z.lor_spec, testbit_unot, testbit_bit_of by assumption.
  destruct (Z.eqb_spec (v - 1) d) as [E|Hne].
  - rewrite <- E, Hclear. simpl. apply andb_false_r.
  - rewrite orb_false_r. simpl. rewrite andb_true_r.
    destruct (Z.ltb_spec d 32); [apply andb_true_r|].
    rewrite (mask_ok_high x d) by assumption. reflexivity.
Qed.

Lemma testbit_land_unot (x v d : Z) :
  mask_ok x -> (1 <= v <= 32)%Z -> (0 <= d)%Z ->
  Z.testbit (Z.land x (unot (bit_of v))) d = (Z.testbit x d && negb (v - 1 =? d)%Z).
Proof.
  intros Hx Hv Hd.
  rewrite Z.land_spec, testbit_unot, testbit_bit_of by assumption.
  destruct (Z.ltb_spec d 32); [reflexivity|].
  rewrite (mask_ok_high x d) by assumption. reflexivity.
Qed.

Lemma ALL_ones : ALL = Z.ones 9.
Proof. reflexivity. Qed.

Lemma testbit_ALL (d : Z) : (0 <= d)%Z -> Z.testbit ALL d = (d <? 9)%Z.
Proof. intros Hd. rewrite ALL_ones. apply Z.testbit_ones_nonneg; lia. Qed.

End Bits.

(** ** Mask arrays *)

Section MaskArrays.

Lemma Forall_lookup_total_ok (a : list Z) (i : nat) :
  Forall mask_ok a -> i < length a -> mask_ok (a !!! i).
Proof.
  intros Ha Hi. rewrite Forall_forall in Ha. apply Ha.
  apply list_elem_of_lookup. exists i. apply list_lookup_lookup_total_lt. exact Hi.
Qed.

Lemma Forall_insert_ok (a : list Z) (i : nat) (x : Z) :
  Forall mask_ok a -> mask_ok x -> Forall mask_ok (<[i := x]> a).
Proof.
  intros Ha Hx. apply Forall_insert; assumption.
Qed.

Lemma or_bit_lookup (a : list Z) (i j : nat) (bit : Z) :
  i < length a ->
  or_bit a i bit !!! j = if decide (i = j) then Z.lor (a !!! i) bit else a !!! j.
Proof.
  intros Hi. unfold or_bit. destruct (decide (i = j)) as [->|Hne].
  - apply list_lookup_total_insert_eq. assumption.
  - apply list_lookup_total_insert_ne. assumption.
Qed.

Lemma and_not_bit_lookup (a : list Z) (i j : nat) (bit : Z) :
  i < length a ->
  and_not_bit a i bit !!! j
  = if decide (i = j) then Z.land (a !!! i) (unot bit) else a !!! j.
Proof.
  intros Hi. unfold and_not_bit. destruct (decide (i = j)) as [->|Hne].
  - apply list_lookup_total_insert_eq. assumption.
  - apply list_lookup_total_insert_ne. assumption.
Qed.

Lemma and_not_or_bit (a : list Z) (i : nat) (v : Z) :
  Forall mask_ok a -> i < length a -> (1 <= v <= 32)%Z ->
  Z.testbit (a !!! i) (v - 1) = false ->
  and_not_bit (or_bit a i (bit_of v)) i (bit_of v) = a.
Proof.
  intros Ha Hi Hv Hclear. unfold and_not_bit.
  rewrite or_bit_lookup by assumption.
  destruct (decide (i = i)) as [_|]; [|congruence].
  unfold or_bit. rewrite list_insert_insert_eq.
  rewrite lor_land_unot by auto using Forall_lookup_total_ok.
  apply list_insert_id. apply list_lookup_lookup_total_lt. assumption.
Qed.

Lemma box_index_lt (r c : nat) : r < N -> c < N -> box_index r c < N.
Proof. unfold box_index. intros. divlia. Qed.

Lemma masks_ok_set (m : Masks) (r c : nat) (v : Z) :
  masks_ok m -> (1 <= v <= 32)%Z -> r < N -> c < N ->
  forall b, masks_ok (snd (apply_set b m r c v)).
Proof.
  intros [[Lr [Lc Lb]] [Fr [Fc Fb]]] Hv Hr Hc b. unfold apply_set. simpl.
  pose proof (box_index_lt r c Hr Hc) as Hk.
  unfold masks_ok, or_bit; simpl. rewrite !length_insert.
  repeat split; try assumption;
    apply Forall_insert_ok; try assumption;
    apply mask_ok_lor_bit; try assumption;
    apply Forall_lookup_total_ok; try assumption; lia.
Qed.

Lemma masks_ok_clear (b : Board) (m : Masks) (r c : nat) :
  masks_ok m -> r < N -> c < N -> masks_ok (snd (apply_clear b m r c)).
Proof.
  intros Hm Hr Hc. unfold apply_clear.
  destruct (cell b r c =? 0)%Z; [exact Hm|].
  destruct Hm as [[Lr [Lc Lb]] [Fr [Fc Fb]]]. simpl.
  pose proof (box_index_lt r c Hr Hc) as Hk.
  unfold masks_ok, and_not_bit; simpl. rewrite !length_insert.
  repeat split; try assumption;
    apply Forall_insert_ok; try assumption;
    apply mask_ok_land;
    apply Forall_lookup_total_ok; try assumption; lia.
Qed.

Lemma used_mask_false (m : Masks) (r c : nat) (d : Z) :
  Z.testbit (used_mask m r c) d = false <->
  Z.testbit (row m !!! r) d = false /\ Z.testbit (col m !!! c) d = false /\
  Z.testbit (box m !!! box_index r c) d = false.
Proof.
  unfold used_mask. rewrite !Z.lor_spec, !orb_false_iff. tauto.
Qed.

(** The placement made by [apply_set] on an empty cell with a digit whose
    bit is clear in all three masks is undone exactly by [apply_clear]. *)
Lemma set_clear_restores (b : Board) (m : Masks) (r c : nat) (v : Z) :
  shape b -> masks_ok m -> r < N -> c < N -> (1 <= v <= 9)%Z ->
  cell b r c = 0%Z -> Z.testbit (used_mask m r c) (v - 1) = false ->
  apply_clear (fst (apply_set b m r c v)) (snd (apply_set b m r c v)) r c = (b, m).
Proof.
  intros Hs [[Lr [Lc Lb]] [Fr [Fc Fb]]] Hr Hc Hv Hz Hu.
  apply used_mask_false in Hu as [Ur [Uc Ub]].
  pose proof (box_index_lt r c Hr Hc) as Hk.
  unfold apply_clear, apply_set; simpl.
  rewrite cell_store_eq by assumption.
  destruct (Z.eqb_spec v 0); [lia|].
  rewrite store_store by assumption.
  rewrite <- Hz at 1. rewrite store_same by assumption.
  rewrite !and_not_or_bit by (assumption || lia).
  destruct m; reflexivity.
Qed.

End MaskArrays.

(** ** Candidate words: the bit loop visits the digits in ascending order *)

Section CandidateWords.

Lemma words9_checked :
  forallb (fun w => bit_step_ok w && popcount_ok w) words9 = true.
Proof. vm_compute. reflexivity. Qed.

Lemma In_words9 (w : Z) : (0 <= w < 512)%Z -> In w words9.
Proof.
  intros Hw. unfold words9. apply in_map_iff. exists (Z.to_nat w).
  split; [lia|]. apply in_seq. lia.
Qed.

Lemma word9_facts (w : Z) :
  (0 <= w < 512)%Z -> bit_step_ok w = true /\ popcount_ok w = true.
Proof.
  intros Hw. pose proof words9_checked as H.
  rewrite forallb_forall in H. specialize (H w (In_words9 w Hw)).
  apply andb_true_iff in H. exact H.
Qed.

Lemma candidates_range (m : Masks) (r c : nat) :
  (0 <= candidates_mask m r c < 512)%Z.
Proof.
  unfold candidates_mask. rewrite ALL_ones, Z.land_ones by lia.
  apply Z.mod_pos_bound. lia.
Qed.

Lemma digits_of_0 (cand : Z) : cand = 0%Z -> digits_of cand = [].
Proof. intros ->. reflexivity. Qed.

Lemma bit_step (cand : Z) :
  (0 <= cand < 512)%Z -> cand <> 0%Z ->
  let bit := Z.land cand (uneg cand) in
  let cand' := Z.lxor cand bit in
  digits_of cand = (lsb_index bit + 1)%Z :: digits_of cand' /\ (0 <= cand' < 512)%Z.
Proof.
  intros Hw Hnz bit cand'.
  destruct (word9_facts cand Hw) as [H _]. unfold bit_step_ok in H.
  destruct (Z.eqb_spec cand 0); [contradiction|].
  fold bit in H. fold cand' in H.
  destruct (digits_of cand) as [|v0 rest]; [discriminate|].
  apply andb_true_iff in H as [H H4]. apply andb_true_iff in H as [H H3].
  apply andb_true_iff in H as [H1 H2].
  apply bool_decide_eq_true in H2. apply Z.eqb_eq in H1. subst.
  split; [reflexivity|lia].
Qed.

Lemma popcount_digits (cand : Z) :
  (0 <= cand < 512)%Z -> popcount9 cand = Z.of_nat (length (digits_of cand)).
Proof.
  intros Hw. destruct (word9_facts cand Hw) as [_ H].
  revert H. unfold popcount_ok. apply Z.eqb_eq.
Qed.

Lemma digits_of_spec (cand v : Z) :
  In v (digits_of cand) <-> (1 <= v <= 9)%Z /\ Z.testbit cand (v - 1) = true.
Proof.
  unfold digits_of. rewrite List.filter_In. simpl.
  split; intros [H1 H2]; (split; [|exact H2]); lia.
Qed.

Lemma digits_of_NoDup (cand : Z) : List.NoDup (digits_of cand).
Proof.
  apply List.NoDup_filter.
  repeat (constructor; [simpl; intros H; repeat destruct H as [H|H]; try discriminate; exact H|]).
  constructor.
Qed.

Lemma digits_of_length (cand : Z) : length (digits_of cand) <= 9.
Proof. unfold digits_of. apply (List.filter_length_le _ [1;2;3;4;5;6;7;8;9]%Z). Qed.

Lemma count_loop_digits rec (n : nat) (r c : nat) :
  forall (cand : Z) (bb : Board) (mm : Masks) (lim total : Z),
    (0 <= cand < 512)%Z -> length (digits_of cand) < n ->
    count_loop rec n r c cand bb mm lim total
    = count_digits rec r c (digits_of cand) bb mm lim total.
Proof.
  induction n as [|n IH]; intros cand bb mm lim total Hw Hn; [lia|].
  cbn [count_loop]. destruct (Z.eqb_spec cand 0) as [E|E].
  - rewrite (digits_of_0 cand E). reflexivity.
  - destruct (bit_step cand Hw E) as [Hd Hw'].
    rewrite Hd in *. cbn [count_digits length] in *.
    destruct (apply_set bb mm r c _) as [bb1 mm1].
    destruct (rec bb1 mm1 _) as [[[bb2 mm2] k]|]; [|reflexivity].
    destruct (apply_clear bb2 mm2 r c) as [bb3 mm3].
    destruct (_ >=? _)%Z; [reflexivity|].
    apply IH; [assumption|lia].
Qed.

Lemma solve_loop_digits rec (n : nat) (r c : nat) :
  forall (cand : Z) (bb : Board) (mm : Masks),
    (0 <= cand < 512)%Z -> length (digits_of cand) < n ->
    solve_loop rec n r c cand bb mm = solve_digits rec r c (digits_of cand) bb mm.
Proof.
  induction n as [|n IH]; intros cand bb mm Hw Hn; [lia|].
  cbn [solve_loop]. destruct (Z.eqb_spec cand 0) as [E|E].
  - rewrite (digits_of_0 cand E). reflexivity.
  - destruct (bit_step cand Hw E) as [Hd Hw'].
    rewrite Hd in *. cbn [solve_digits length] in *.
    destruct (apply_set bb mm r c _) as [bb1 mm1].
    destruct (rec bb1 mm1) as [[[[|] bb2] mm2]|]; try reflexivity.
    destruct (apply_clear bb2 mm2 r c) as [bb3 mm3].
    apply IH; [assumption|lia].
Qed.

End CandidateWords.

Opaque popcount9 lsb_index.

(** ** The cell list and the count of empty cells *)

Section Cells.

Lemma in_pairs (n m i j : nat) : In (i, j) (pairs n m) <-> i < n /\ j < m.
Proof.
  unfold pairs. rewrite in_flat_map. split.
  - intros [x [Hx Hin]]. apply in_map_iff in Hin as [y [E Hy]].
    inversion E; subst. apply in_seq in Hx, Hy. lia.
  - intros [Hi Hj]. exists i. split; [apply in_seq; lia|].
    apply in_map_iff. exists j. split; [reflexivity|apply in_seq; lia].
Qed.

Lemma in_all_cells (r c : nat) : In (r, c) all_cells <-> r < N /\ c < N.
Proof. apply in_pairs. Qed.

Lemma all_cells_NoDup : List.NoDup all_cells.
Proof. apply NoDup_ListNoDup. apply (bool_decide_unpack _). vm_compute. exact I. Qed.

Lemma any_empty_false (b : Board) :
  any_empty b = false -> complete b.
Proof.
  unfold any_empty. intros H r c Hr Hc Hz.
  assert (E : existsb (fun '(r, c) => (cell b r c =? 0)%Z) all_cells = true).
  { apply existsb_exists. exists (r, c). split; [apply in_all_cells; auto|].
    apply Z.eqb_eq. exact Hz. }
  congruence.
Qed.

Lemma any_empty_true (b : Board) :
  any_empty b = true -> exists r c, r < N /\ c < N /\ cell b r c = 0%Z.
Proof.
  unfold any_empty. intros H. apply existsb_exists in H as [[r c] [Hin Hz]].
  apply in_all_cells in Hin. exists r, c. apply Z.eqb_eq in Hz. tauto.
Qed.

Lemma complete_any_empty (b : Board) : complete b -> any_empty b = false.
Proof.
  intros Hc. destruct (any_empty b) eqn:E; [|reflexivity].
  apply any_empty_true in E as [r [c [Hr [Hcc Hz]]]].
  exfalso. exact (Hc r c Hr Hcc Hz).
Qed.

Lemma filter_length_flip {A} (f g : A -> bool) (l : list A) (x : A) :
  List.NoDup l -> In x l -> f x = true -> g x = false ->
  (forall y, y <> x -> g y = f y) ->
  length (List.filter f l) = S (length (List.filter g l)).
Proof.
  intros Hnd Hin Hf Hg Hagree. induction l as [|a l IH]; [destruct Hin|].
  inversion Hnd as [|? ? Hnotin Hnd']; subst.
  destruct Hin as [->|Hin].
  - simpl. rewrite Hf, Hg. simpl. f_equal.
    f_equal. apply List.filter_ext_in. intros y Hy.
    symmetry. apply Hagree. intros ->. contradiction.
  - assert (a <> x) by (intros ->; contradiction).
    simpl. rewrite (Hagree a) by assumption.
    destruct (f a); simpl; rewrite IH by assumption; reflexivity.
Qed.

(** Filling an empty cell removes exactly one empty cell. *)
Lemma empties_store (b : Board) (r c : nat) (v : Z) :
  shape b -> r < N -> c < N -> cell b r c = 0%Z -> v <> 0%Z ->
  empties b = S (empties (store b r c v)).
Proof.
  intros Hs Hr Hc Hz Hv. unfold empties.
  apply (filter_length_flip _ _ _ (r, c)).
  - exact all_cells_NoDup.
  - apply in_all_cells; auto.
  - apply Z.eqb_eq. exact Hz.
  - rewrite cell_store_eq by assumption. apply Z.eqb_neq. exact Hv.
  - intros [r' c'] Hne. rewrite cell_store_ne; [reflexivity|congruence].
Qed.

Lemma empties_le (b : Board) : empties b <= N * N.
Proof.
  unfold empties. etransitivity; [apply List.filter_length_le|].
  vm_compute. reflexivity.
Qed.

End Cells.

Opaque all_cells.

(** ** MRV selection: what [find_best_cell] returns *)

Section Selection.

Variable b : Board.
Variable m : Masks.

Lemma cand_count_range (p : nat * nat) : (0 <= cand_count m p <= 9)%Z.
Proof.
  unfold cand_count. rewrite popcount_digits by apply candidates_range.
  pose proof (digits_of_length (candidates_mask m (fst p) (snd p))). lia.
Qed.

Lemma popcount_range (r c : nat) : (0 <= popcount9 (candidates_mask m r c) <= 9)%Z.
Proof.
  rewrite popcount_digits by apply candidates_range.
  pose proof (digits_of_length (candidates_mask m r c)). lia.
Qed.

Lemma scan_cells_good (cells : list (nat * nat)) :
  forall st st',
    (forall p, In p cells -> fst p < N /\ snd p < N) ->
    best_good b m st -> scan_cells cells b m st = Some st' -> best_good b m st'.
Proof.
  induction cells as [|[r c] rest IH]; intros st st' Hin Hg Hs; simpl in Hs.
  - inversion Hs; subst. exact Hg.
  - assert (Hrest : forall p, In p rest -> fst p < N /\ snd p < N)
      by (intros p Hp; apply Hin; right; exact Hp).
    destruct (Hin (r, c) (or_introl eq_refl)) as [Hr Hc]; simpl in Hr, Hc.
    destruct (Z.eqb_spec (cell b r c) 0) as [Hz|Hz]; simpl in Hs.
    2:{ exact (IH _ _ Hrest Hg Hs). }
    pose proof (popcount_range r c) as Hcnt.
    destruct (Z.eqb_spec (popcount9 (candidates_mask m r c)) 0) as [E0|E0];
      [discriminate|].
    assert (Hnew : best_good b m
              (mkBest (candidates_mask m r c) (Z.of_nat r) (Z.of_nat c)
                      (popcount9 (candidates_mask m r c)))).
    { right. exists r, c. simpl. repeat split; auto; lia. }
    destruct (Z.ltb_spec (popcount9 (candidates_mask m r c)) (bestCount st)).
    + destruct (Z.eqb_spec (popcount9 (candidates_mask m r c)) 1).
      * inversion Hs; subst. exact Hnew.
      * exact (IH _ _ Hrest Hnew Hs).
    + exact (IH _ _ Hrest Hg Hs).
Qed.

Lemma scan_cells_none (cells : list (nat * nat)) :
  forall st, scan_cells cells b m st = None ->
    exists r c, In (r, c) cells /\ cell b r c = 0%Z /\
      popcount9 (candidates_mask m r c) = 0%Z.
Proof.
  induction cells as [|[r c] rest IH]; intros st Hs; simpl in Hs; [discriminate|].
  assert (Hrec : forall st0, scan_cells rest b m st0 = None ->
            exists r0 c0, In (r0, c0) ((r, c) :: rest) /\ cell b r0 c0 = 0%Z /\
              popcount9 (candidates_mask m r0 c0) = 0%Z).
  { intros st0 H0. destruct (IH st0 H0) as [r0 [c0 [Hin H1]]].
    exists r0, c0. split; [right; exact Hin|exact H1]. }
  destruct (Z.eqb_spec (cell b r c) 0) as [Hz|Hz]; simpl in Hs; [|eauto].
  destruct (Z.eqb_spec (popcount9 (candidates_mask m r c)) 0) as [E0|E0].
  - exists r, c. split; [left; reflexivity|auto].
  - destruct (_ <? _)%Z; [|eauto].
    destruct (_ =? 1)%Z; [discriminate|eauto].
Qed.

(** Once a cell is recorded the row field never returns to the sentinel. *)
Lemma scan_cells_seen (cells : list (nat * nat)) :
  forall st st', (0 <= bestR st)%Z -> scan_cells cells b m st = Some st' ->
    (0 <= bestR st')%Z.
Proof.
  induction cells as [|[r c] rest IH]; intros st st' Hst Hs; simpl in Hs.
  - inversion Hs; subst. exact Hst.
  - destruct (negb _); [eauto|].
    destruct (_ =? 0)%Z; [discriminate|].
    destruct (_ <? _)%Z; [|eauto].
    destruct (_ =? 1)%Z.
    + inversion Hs; subst. simpl. lia.
    + eapply IH; [|exact Hs]. simpl. lia.
Qed.

Lemma scan_cells_unseen (cells : list (nat * nat)) :
  forall st st',
    bestR st = (-1)%Z -> bestCount st = 10%Z ->
    scan_cells cells b m st = Some st' -> bestR st' = (-1)%Z ->
    forall r c, In (r, c) cells -> cell b r c <> 0%Z.
Proof.
  induction cells as [|[r c] rest IH]; intros st st' HR HC Hs HR' r0 c0 Hin;
    simpl in Hs; [destruct Hin|].
  pose proof (popcount_range r c) as Hcnt.
  destruct (Z.eqb_spec (cell b r c) 0) as [Hz|Hz]; simpl in Hs.
  - exfalso.
    destruct (Z.eqb_spec (popcount9 (candidates_mask m r c)) 0); [discriminate|].
    destruct (Z.ltb_spec (popcount9 (candidates_mask m r c)) (bestCount st)); [|lia].
    destruct (_ =? 1)%Z.
    + inversion Hs; subst. simpl in HR'. lia.
    + apply scan_cells_seen in Hs; simpl; lia.
  - destruct Hin as [E|Hin].
    + inversion E; subst. exact Hz.
    + exact (IH _ _ HR HC Hs HR' _ _ Hin).
Qed.

(** A returned choice is an empty cell of the board with its candidate
    word, and that word is not empty. *)
Lemma find_best_cell_some (ch : Choice) :
  find_best_cell b m = Some ch ->
  ch_r ch < N /\ ch_c ch < N /\ cell b (ch_r ch) (ch_c ch) = 0%Z /\
  ch_cand ch = candidates_mask m (ch_r ch) (ch_c ch) /\
  digits_of (ch_cand ch) <> [].
Proof.
  unfold find_best_cell. intros H.
  destruct (scan_cells all_cells b m _) as [st|] eqn:Hs; [|discriminate].
  destruct (Z.eqb_spec (bestR st) (-1)) as [|Hne]; [discriminate|].
  inversion H; subst; clear H. simpl.
  apply scan_cells_good in Hs.
  - destruct Hs as [[HR _]|[r [c [Hr [Hc [ER [EC [Hz [EM Hp]]]]]]]]]; [contradiction|].
    rewrite ER, EC, !Nat2Z.id. repeat split; try assumption.
    intros E. rewrite EM in Hp.
    rewrite popcount_digits in Hp by apply candidates_range.
    rewrite <- EM, E in Hp. simpl in Hp. lia.
  - intros [r c] Hin. apply in_all_cells in Hin. exact Hin.
  - left. split; reflexivity.
Qed.

(** No choice is returned only on a full board or in front of a dead cell. *)
Lemma find_best_cell_none :
  find_best_cell b m = None ->
  complete b \/
  exists r c, r < N /\ c < N /\ cell b r c = 0%Z /\
    digits_of (candidates_mask m r c) = [].
Proof.
  unfold find_best_cell. intros H.
  destruct (scan_cells all_cells b m _) as [st|] eqn:Hs.
  - destruct (Z.eqb_spec (bestR st) (-1)) as [HR|]; [|discriminate].
    left. intros r c Hr Hc.
    eapply scan_cells_unseen; [| |exact Hs|exact HR|apply in_all_cells; auto];
      reflexivity.
  - right. apply scan_cells_none in Hs as [r [c [Hin [Hz Hp]]]].
    apply in_all_cells in Hin as [Hr Hc]. exists r, c. repeat split; try assumption.
    rewrite popcount_digits in Hp by apply candidates_range.
    destruct (digits_of _); [reflexivity|simpl in Hp; lia].
Qed.

End Selection.

(** ** The mask invariant *)

Section MaskInvariant.

Lemma or_bit_testbit (a : list Z) (k i : nat) (v d : Z) :
  k < length a -> (1 <= v <= 32)%Z ->
  Z.testbit (or_bit a k (bit_of v) !!! i) d = true <->
  Z.testbit (a !!! i) d = true \/ (i = k /\ d = (v - 1)%Z).
Proof.
  intros Hk Hv. rewrite or_bit_lookup by assumption.
  destruct (decide (k = i)) as [->|Hne].
  - rewrite Z.lor_spec, testbit_bit_of, orb_true_iff, Z.eqb_eq by assumption.
    intuition congruence.
  - intuition congruence.
Qed.

Lemma and_not_bit_testbit (a : list Z) (k i : nat) (v d : Z) :
  Forall mask_ok a -> k < length a -> (1 <= v <= 32)%Z -> (0 <= d)%Z ->
  Z.testbit (and_not_bit a k (bit_of v) !!! i) d = true <->
  Z.testbit (a !!! i) d = true /\ ~ (i = k /\ d = (v - 1)%Z).
Proof.
  intros Ha Hk Hv Hd. rewrite and_not_bit_lookup by assumption.
  destruct (decide (k = i)) as [->|Hne].
  - rewrite testbit_land_unot by auto using Forall_lookup_total_ok.
    rewrite andb_true_iff, negb_true_iff, Z.eqb_neq.
    intuition congruence.
  - intuition congruence.
Qed.

Variable b : Board.
Variables r c : nat.
Hypothesis Hshape : shape b.
Hypothesis Hr : r < N.
Hypothesis Hc : c < N.

Lemma in_row_store (v w : Z) (i : nat) :
  cell b r c = 0%Z -> w <> 0%Z ->
  in_row (store b r c v) i w <-> in_row b i w \/ (i = r /\ w = v).
Proof.
  intros Hz Hw. unfold in_row. split.
  - intros [c' [Hc' E]]. rewrite cell_store in E by assumption.
    destruct (decide ((r, c) = (i, c'))) as [P|P].
    + inversion P; subst. right. auto.
    + left. eauto.
  - intros [[c' [Hc' E]]|[-> ->]].
    + exists c'. split; [assumption|]. rewrite cell_store_ne; [assumption|].
      intros P. inversion P; subst. congruence.
    + exists c. split; [assumption|]. apply cell_store_eq; assumption.
Qed.

Lemma in_col_store (v w : Z) (i : nat) :
  cell b r c = 0%Z -> w <> 0%Z ->
  in_col (store b r c v) i w <-> in_col b i w \/ (i = c /\ w = v).
Proof.
  intros Hz Hw. unfold in_col. split.
  - intros [r' [Hr' E]]. rewrite cell_store in E by assumption.
    destruct (decide ((r, c) = (r', i))) as [P|P].
    + inversion P; subst. right. auto.
    + left. eauto.
  - intros [[r' [Hr' E]]|[-> ->]].
    + exists r'. split; [assumption|]. rewrite cell_store_ne; [assumption|].
      intros P. inversion P; subst. congruence.
    + exists r. split; [assumption|]. apply cell_store_eq; assumption.
Qed.

Lemma in_box_store (v w : Z) (i : nat) :
  cell b r c = 0%Z -> w <> 0%Z ->
  in_box (store b r c v) i w <-> in_box b i w \/ (i = box_index r c /\ w = v).
Proof.
  intros Hz Hw. unfold in_box. split.
  - intros [r' [c' [Hr' [Hc' [Hk E]]]]]. rewrite cell_store in E by assumption.
    destruct (decide ((r, c) = (r', c'))) as [P|P].
    + inversion P; subst. right. auto.
    + left. eauto 8.
  - intros [[r' [c' [Hr' [Hc' [Hk E]]]]]|[-> ->]].
    + exists r', c'. repeat split; try assumption. rewrite cell_store_ne; [assumption|].
      intros P. inversion P; subst. congruence.
    + exists r, c. repeat split; try assumption. apply cell_store_eq; assumption.
Qed.

(** [apply_set] on an empty cell keeps the invariant. *)
Lemma consistent_set (m : Masks) (v : Z) :
  consistent b m -> cell b r c = 0%Z -> (1 <= v <= 9)%Z ->
  consistent (fst (apply_set b m r c v)) (snd (apply_set b m r c v)).
Proof.
  intros [Hm Hbits] Hz Hv. split.
  - apply masks_ok_set; (assumption || lia).
  - pose proof Hm as [[Lr [Lc Lb]] _].
    pose proof (box_index_lt r c Hr Hc) as Hk.
    intros i d Hi Hd. destruct (Hbits i d Hi Hd) as [HR [HC HB]].
    unfold apply_set; simpl.
    rewrite !or_bit_testbit by lia.
    rewrite in_row_store, in_col_store, in_box_store by (assumption || lia).
    rewrite HR, HC, HB.
    repeat split; intros; intuition (try lia; auto).
    all: right; split; auto; lia.
Qed.

(** The cell [(r,c)] holds [v] and [v] occurs nowhere else in its row. *)
Lemma in_row_clear (v w : Z) (i : nat) :
  cell b r c = v -> w <> 0%Z ->
  (forall c', c' < N -> c' <> c -> cell b r c' <> v) ->
  in_row (store b r c 0) i w <-> in_row b i w /\ ~ (i = r /\ w = v).
Proof.
  intros Hv Hw Hu. unfold in_row. split.
  - intros [c' [Hc' E]]. rewrite cell_store in E by assumption.
    destruct (decide ((r, c) = (i, c'))) as [P|P]; [congruence|].
    split; [eauto|]. intros [-> ->]. apply (Hu c'); congruence.
  - intros [[c' [Hc' E]] Hn]. exists c'. split; [assumption|].
    rewrite cell_store_ne; [assumption|].
    intros P. inversion P; subst. apply Hn. auto.
Qed.

Lemma in_col_clear (v w : Z) (i : nat) :
  cell b r c = v -> w <> 0%Z ->
  (forall r', r' < N -> r' <> r -> cell b r' c <> v) ->
  in_col (store b r c 0) i w <-> in_col b i w /\ ~ (i = c /\ w = v).
Proof.
  intros Hv Hw Hu. unfold in_col. split.
  - intros [r' [Hr' E]]. rewrite cell_store in E by assumption.
    destruct (decide ((r, c) = (r', i))) as [P|P]; [congruence|].
    split; [eauto|]. intros [-> ->]. apply (Hu r'); congruence.
  - intros [[r' [Hr' E]] Hn]. exists r'. split; [assumption|].
    rewrite cell_store_ne; [assumption|].
    intros P. inversion P; subst. apply Hn. auto.
Qed.

Lemma in_box_clear (v w : Z) (i : nat) :
  cell b r c = v -> w <> 0%Z ->
  (forall r' c', r' < N -> c' < N -> (r', c') <> (r, c) ->
     box_index r' c' = box_index r c -> cell b r' c' <> v) ->
  in_box (store b r c 0) i w <-> in_box b i w /\ ~ (i = box_index r c /\ w = v).
Proof.
  intros Hv Hw Hu. unfold in_box. split.
  - intros [r' [c' [Hr' [Hc' [Hk E]]]]]. rewrite cell_store in E by assumption.
    destruct (decide ((r, c) = (r', c'))) as [P|P]; [congruence|].
    split; [eauto 8|]. intros [-> ->]. apply (Hu r' c'); congruence.
  - intros [[r' [c' [Hr' [Hc' [Hk E]]]]] Hn]. exists r', c'.
    repeat split; try assumption.
    rewrite cell_store_ne; [assumption|].
    intros P. inversion P; subst. apply Hn. auto.
Qed.

(** [apply_clear] keeps the invariant when the digit removed occurs
    nowhere else in the row, the column and the box of the cell. *)
Lemma consistent_clear (m : Masks) :
  consistent b m -> (0 <= cell b r c <= 9)%Z ->
  (forall r' c', r' < N -> c' < N -> peer r c r' c' -> cell b r' c' <> cell b r c) ->
  consistent (fst (apply_clear b m r c)) (snd (apply_clear b m r c)).
Proof.
  intros [Hm Hbits] Hv Hu. unfold apply_clear.
  destruct (Z.eqb_spec (cell b r c) 0) as [Hz|Hnz]; [split; assumption|].
  split.
  - pose proof (masks_ok_clear b m r c Hm Hr Hc) as H. unfold apply_clear in H.
    destruct (Z.eqb_spec (cell b r c) 0); [contradiction|exact H].
  - pose proof Hm as [[Lr [Lc Lb]] [Fr [Fc Fb]]].
    pose proof (box_index_lt r c Hr Hc) as Hk.
    intros i d Hi Hd. destruct (Hbits i d Hi Hd) as [HR [HC HB]].
    simpl.
    rewrite !and_not_bit_testbit by (assumption || lia).
    rewrite (in_row_clear (cell b r c)), (in_col_clear (cell b r c)),
      (in_box_clear (cell b r c)); try reflexivity; try lia.
    + rewrite HR, HC, HB.
      repeat split; intros; intuition (try lia; auto).
      all: match goal with H : ~ _ |- _ => apply H; split; auto; lia end.
    + intros r' c' Hr' Hc' Hne Hbx. apply Hu; try assumption.
      split; [congruence|auto].
    + intros r' Hr' Hne. apply Hu; try assumption.
      split; [congruence|auto].
    + intros c' Hc' Hne. apply Hu; try assumption.
      split; [congruence|auto].
Qed.

End MaskInvariant.

(** ** [masks_init] establishes the invariant *)

Section MasksInit.

Variable b : Board.
Hypothesis Hwf : wf b.

(** One of the three mask arrays during the second loop of [masks_init];
    [u] names the unit (row, column or box) a cell belongs to. *)
Lemma unit_fold_spec (u : nat -> nat -> nat) (cells : list (nat * nat)) :
  forall (a : list Z) (seen : list (nat * nat)),
    length a = N -> Forall mask_ok a ->
    (forall r c, In (r, c) cells -> r < N /\ c < N /\ u r c < N) ->
    (forall i d, i < N -> (0 <= d)%Z ->
       Z.testbit (a !!! i) d = true <->
       (d < 9)%Z /\ exists r c, In (r, c) seen /\ u r c = i /\ cell b r c = (d + 1)%Z) ->
    let a' :=
      fold_left (fun a '(i, j) =>
                   if (cell b i j =? 0)%Z then a
                   else or_bit a (u i j) (bit_of (cell b i j))) cells a in
    length a' = N /\ Forall mask_ok a' /\
    (forall i d, i < N -> (0 <= d)%Z ->
       Z.testbit (a' !!! i) d = true <->
       (d < 9)%Z /\
       exists r c, In (r, c) (seen ++ cells) /\ u r c = i /\ cell b r c = (d + 1)%Z).
Proof.
  induction cells as [|[r c] rest IH]; intros a seen La Fa Hin Hinv; simpl.
  - rewrite app_nil_r. auto.
  - destruct (Hin r c (or_introl eq_refl)) as [Hr [Hc Hu]].
    assert (Hrest : forall r0 c0, In (r0, c0) rest -> r0 < N /\ c0 < N /\ u r0 c0 < N)
      by (intros; apply Hin; right; assumption).
    assert (Hassoc : seen ++ (r, c) :: rest = (seen ++ [(r, c)]) ++ rest)
      by (rewrite <- app_assoc; reflexivity).
    rewrite Hassoc.
    destruct Hwf as [_ Hrange]. specialize (Hrange r c Hr Hc).
    destruct (Z.eqb_spec (cell b r c) 0) as [Hz|Hnz].
    + apply IH; try assumption.
      intros i d Hi Hd. rewrite (Hinv i d Hi Hd).
      split; intros [Hd9 [r0 [c0 [Hs [E1 E2]]]]]; (split; [assumption|]).
      * exists r0, c0. rewrite in_app_iff. auto.
      * apply in_app_iff in Hs as [Hs|[P|[]]]; [eauto|].
        inversion P; subst. lia.
    + apply IH; try assumption.
      * unfold or_bit. rewrite length_insert. assumption.
      * apply Forall_insert_ok; [assumption|].
        apply mask_ok_lor_bit; [|lia].
        apply Forall_lookup_total_ok; [assumption|lia].
      * intros i d Hi Hd.
        rewrite or_bit_testbit by lia. rewrite (Hinv i d Hi Hd).
        split.
        -- intros [[Hd9 [r0 [c0 [Hs [E1 E2]]]]]|[-> ->]].
           ++ split; [assumption|]. exists r0, c0. rewrite in_app_iff. auto.
           ++ split; [lia|]. exists r, c. rewrite in_app_iff. simpl.
              repeat split; auto. lia.
        -- intros [Hd9 [r0 [c0 [Hs [E1 E2]]]]].
           apply in_app_iff in Hs as [Hs|[P|[]]]; [left; eauto 6|].
           inversion P; subst. right. split; [reflexivity|lia].
Qed.

Lemma masks_init_row (cells : list (nat * nat)) (m : Masks) :
  row (fold_left
         (fun m '(i, j) =>
            let v := cell b i j in
            if (v =? 0)%Z then m
            else
              let bit := bit_of v in
              mkMasks (or_bit (row m) i bit) (or_bit (col m) j bit)
                      (or_bit (box m) (box_index i j) bit)) cells m)
  = fold_left (fun a '(i, j) =>
                 if (cell b i j =? 0)%Z then a
                 else or_bit a ((fun r _ => r) i j) (bit_of (cell b i j))) cells (row m).
Proof.
  revert m. induction cells as [|[i j] rest IH]; intros m; simpl; [reflexivity|].
  rewrite IH. destruct (cell b i j =? 0)%Z; reflexivity.
Qed.

Lemma masks_init_col (cells : list (nat * nat)) (m : Masks) :
  col (fold_left
         (fun m '(i, j) =>
            let v := cell b i j in
            if (v =? 0)%Z then m
            else
              let bit := bit_of v in
              mkMasks (or_bit (row m) i bit) (or_bit (col m) j bit)
                      (or_bit (box m) (box_index i j) bit)) cells m)
  = fold_left (fun a '(i, j) =>
                 if (cell b i j =? 0)%Z then a
                 else or_bit a ((fun _ c => c) i j) (bit_of (cell b i j))) cells (col m).
Proof.
  revert m. induction cells as [|[i j] rest IH]; intros m; simpl; [reflexivity|].
  rewrite IH. destruct (cell b i j =? 0)%Z; reflexivity.
Qed.

Lemma masks_init_box (cells : list (nat * nat)) (m : Masks) :
  box (fold_left
         (fun m '(i, j) =>
            let v := cell b i j in
            if (v =? 0)%Z then m
            else
              let bit := bit_of v in
              mkMasks (or_bit (row m) i bit) (or_bit (col m) j bit)
                      (or_bit (box m) (box_index i j) bit)) cells m)
  = fold_left (fun a '(i, j) =>
                 if (cell b i j =? 0)%Z then a
                 else or_bit a (box_index i j) (bit_of (cell b i j))) cells (box m).
Proof.
  revert m. induction cells as [|[i j] rest IH]; intros m; simpl; [reflexivity|].
  rewrite IH. destruct (cell b i j =? 0)%Z; reflexivity.
Qed.

Lemma zero_array_spec (u : nat -> nat -> nat) :
  length (replicate N 0%Z) = N /\ Forall mask_ok (replicate N 0%Z) /\
  forall i d, i < N -> (0 <= d)%Z ->
    Z.testbit (replicate N 0%Z !!! i) d = true <->
    (d < 9)%Z /\ exists r c, In (r, c) (@nil (nat * nat)) /\ u r c = i
                             /\ cell b r c = (d + 1)%Z.
Proof.
  split; [apply length_replicate|]. split.
  - apply Forall_replicate. unfold mask_ok. lia.
  - intros i d Hi Hd. rewrite lookup_total_replicate_2 by assumption.
    rewrite Z.bits_0. split; [discriminate|].
    intros [_ [r [c [[] _]]]].
Qed.

Lemma masks_init_consistent : consistent b (masks_init b).
Proof.
  unfold masks_init.
  destruct (zero_array_spec (fun r _ => r)) as [L1 [F1 I1]].
  destruct (zero_array_spec (fun _ c => c)) as [L2 [F2 I2]].
  destruct (zero_array_spec box_index) as [L3 [F3 I3]].
  assert (Hcells : forall u : nat -> nat -> nat,
            (forall r c, r < N -> c < N -> u r c < N) ->
            forall r c, In (r, c) all_cells -> r < N /\ c < N /\ u r c < N).
  { intros u Hu r c Hin. apply in_all_cells in Hin as [Hr Hc]. auto. }
  pose proof (unit_fold_spec (fun r _ => r) all_cells _ [] L1 F1
                (Hcells _ (fun r c Hr _ => Hr)) I1) as [A1 [B1 C1]].
  pose proof (unit_fold_spec (fun _ c => c) all_cells _ [] L2 F2
                (Hcells _ (fun r c _ Hc => Hc)) I2) as [A2 [B2 C2]].
  pose proof (unit_fold_spec box_index all_cells _ [] L3 F3
                (Hcells _ box_index_lt) I3) as [A3 [B3 C3]].
  change ([] ++ all_cells) with all_cells in C1, C2, C3.
  unfold consistent, masks_ok.
  rewrite masks_init_row, masks_init_col, masks_init_box.
  change (row zero_masks) with (replicate N 0%Z).
  change (col zero_masks) with (replicate N 0%Z).
  change (box zero_masks) with (replicate N 0%Z).
  split; [auto 10|].
  intros i d Hi Hd. rewrite (C1 i d Hi Hd), (C2 i d Hi Hd), (C3 i d Hi Hd).
  unfold in_row, in_col, in_box.
  split; [|split]; split.
  - intros [H [r [c [Hin [-> E]]]]]. apply in_all_cells in Hin. split; [auto|]. exists c. tauto.
  - intros [H [c [Hc E]]]. split; [auto|]. exists i, c. rewrite in_all_cells. auto.
  - intros [H [r [c [Hin [-> E]]]]]. apply in_all_cells in Hin. split; [auto|]. exists r. tauto.
  - intros [H [r [Hr E]]]. split; [auto|]. exists r, i. rewrite in_all_cells. auto.
  - intros [H [r [c [Hin [<- E]]]]]. apply in_all_cells in Hin. split; [auto|]. exists r, c. tauto.
  - intros [H [r [c [Hr [Hc [E1 E2]]]]]]. split; [auto|]. exists r, c. rewrite in_all_cells. auto.
Qed.

End MasksInit.

(** ** Candidates, legality and completions *)

Section Completions.

Lemma testbit_candidates (m : Masks) (r c : nat) (d : Z) :
  (0 <= d)%Z ->
  Z.testbit (candidates_mask m r c) d
  = ((d <? 9)%Z && negb (Z.testbit (used_mask m r c) d)).
Proof.
  intros Hd. unfold candidates_mask.
  rewrite Z.land_spec, testbit_unot, testbit_ALL by assumption.
  destruct (Z.ltb_spec d 9), (Z.ltb_spec d 32); try lia;
    destruct (Z.testbit (used_mask m r c) d); reflexivity.
Qed.

Lemma candidate_unused (m : Masks) (r c : nat) (v : Z) :
  In v (digits_of (candidates_mask m r c)) ->
  (1 <= v <= 9)%Z /\ Z.testbit (used_mask m r c) (v - 1) = false.
Proof.
  intros H. apply digits_of_spec in H as [Hv Ht]. split; [assumption|].
  rewrite testbit_candidates in Ht by lia.
  apply andb_true_iff in Ht as [_ Ht]. apply negb_true_iff in Ht. exact Ht.
Qed.

Lemma peer_sym (r c r' c' : nat) : peer r c r' c' -> peer r' c' r c.
Proof. unfold peer. intros [Hne H]. split; [congruence|intuition congruence]. Qed.

(** Under the mask invariant the candidates of an empty cell are the
    digits that none of its peers holds. *)
Lemma candidate_iff (b : Board) (m : Masks) (r c : nat) (v : Z) :
  consistent b m -> r < N -> c < N -> (1 <= v <= 9)%Z -> cell b r c = 0%Z ->
  In v (digits_of (candidates_mask m r c)) <->
  (forall r' c', r' < N -> c' < N -> peer r c r' c' -> cell b r' c' <> v).
Proof.
  intros [Hm Hbits] Hr Hc Hv Hz.
  pose proof (box_index_lt r c Hr Hc) as Hk.
  rewrite digits_of_spec, testbit_candidates by lia.
  rewrite andb_true_iff, negb_true_iff, used_mask_false.
  destruct (Hbits r (v - 1)%Z Hr ltac:(lia)) as [HR _].
  destruct (Hbits c (v - 1)%Z Hc ltac:(lia)) as [_ [HC _]].
  destruct (Hbits (box_index r c) (v - 1)%Z Hk ltac:(lia)) as [_ [_ HB]].
  replace (v - 1 + 1)%Z with v in * by lia.
  split.
  - intros [_ [_ [Ht1 [Ht2 Ht3]]]] r' c' Hr' Hc' [Hne [E|[E|E]]] Hcell.
    + assert (Z.testbit (row m !!! r) (v - 1) = true); [|congruence].
      apply HR. split; [lia|]. exists c'. rewrite E. auto.
    + assert (Z.testbit (col m !!! c) (v - 1) = true); [|congruence].
      apply HC. split; [lia|]. exists r'. rewrite E. auto.
    + assert (Z.testbit (box m !!! box_index r c) (v - 1) = true); [|congruence].
      apply HB. split; [lia|]. exists r', c'. auto.
  - intros Hpeers. split; [assumption|]. split; [apply Z.ltb_lt; lia|].
    repeat split.
    + apply not_true_is_false. intros Ht.
      apply HR in Ht as [_ [c' [Hc' E]]]. exfalso.
      apply (Hpeers r c' Hr Hc'); [|assumption].
      split; [|auto]. intros P. inversion P; subst. lia.
    + apply not_true_is_false. intros Ht.
      apply HC in Ht as [_ [r' [Hr' E]]]. exfalso.
      apply (Hpeers r' c Hr' Hc); [|assumption].
      split; [|auto]. intros P. inversion P; subst. lia.
    + apply not_true_is_false. intros Ht.
      apply HB in Ht as [_ [r' [c' [Hr' [Hc' [Hbx E]]]]]]. exfalso.
      apply (Hpeers r' c' Hr' Hc'); [|assumption].
      split; [|auto]. intros P. inversion P; subst. lia.
Qed.

Lemma wf_store (b : Board) (r c : nat) (v : Z) :
  wf b -> r < N -> c < N -> (0 <= v <= 9)%Z -> wf (store b r c v).
Proof.
  intros [Hs Hrange] Hr Hc Hv. split; [apply shape_store; assumption|].
  intros r' c' Hr' Hc'. rewrite cell_store by assumption.
  destruct (decide ((r, c) = (r', c'))); [lia|auto].
Qed.

Lemma legal_store (b : Board) (r c : nat) (v : Z) :
  shape b -> legal b -> r < N -> c < N ->
  (forall r' c', r' < N -> c' < N -> peer r c r' c' -> cell b r' c' <> v) ->
  legal (store b r c v).
Proof.
  intros Hs Hl Hr Hc Hfree r1 c1 r2 c2 H1 H2 H3 H4 Hp.
  pose proof Hp as [Hne _].
  rewrite !cell_store by assumption.
  destruct (decide ((r, c) = (r1, c1))) as [P|P];
    destruct (decide ((r, c) = (r2, c2))) as [Q|Q].
  - congruence.
  - inversion P; subst. intros _ E. apply (Hfree r2 c2); auto.
  - inversion Q; subst. intros _ E. apply (Hfree r1 c1); auto using peer_sym.
  - apply Hl; assumption.
Qed.

Lemma completion_digit (b s : Board) (r c : nat) :
  completion b s -> r < N -> c < N -> (1 <= cell s r c <= 9)%Z.
Proof.
  intros [[_ Hrange] [Hcomp _]] Hr Hc.
  specialize (Hrange r c Hr Hc). specialize (Hcomp r c Hr Hc). lia.
Qed.

Lemma completion_of_store (b s : Board) (r c : nat) (v : Z) :
  shape b -> r < N -> c < N -> cell b r c = 0%Z -> v <> 0%Z ->
  completion (store b r c v) s -> completion b s /\ cell s r c = v.
Proof.
  intros Hs Hr Hc Hz Hv [Hwf [Hcomp [Hleg Hag]]]. split.
  - split; [exact Hwf|]. split; [exact Hcomp|]. split; [exact Hleg|].
    intros r' c' Hr' Hc' Hnz. rewrite Hag; try assumption.
    + apply cell_store_ne. intros P. inversion P; subst. contradiction.
    + rewrite cell_store_ne; [assumption|].
      intros P. inversion P; subst. contradiction.
  - rewrite Hag by (try assumption; rewrite cell_store_eq; assumption).
    apply cell_store_eq; assumption.
Qed.

Lemma completion_to_store (b s : Board) (r c : nat) :
  shape b -> r < N -> c < N -> completion b s ->
  completion (store b r c (cell s r c)) s.
Proof.
  intros Hs Hr Hc [Hwf [Hcomp [Hleg Hag]]].
  split; [exact Hwf|]. split; [exact Hcomp|]. split; [exact Hleg|].
  intros r' c' Hr' Hc'. rewrite cell_store by assumption.
  destruct (decide ((r, c) = (r', c'))) as [P|P].
  - inversion P; subst. reflexivity.
  - apply Hag; assumption.
Qed.

Lemma completion_candidate (b s : Board) (r c : nat) :
  completion b s -> r < N -> c < N ->
  forall r' c', r' < N -> c' < N -> peer r c r' c' -> cell b r' c' <> cell s r c.
Proof.
  intros Hcpl Hr Hc r' c' Hr' Hc' Hp E.
  pose proof (completion_digit b s r c Hcpl Hr Hc) as Hd.
  destruct Hcpl as [Hwf [Hcomp [Hleg Hag]]].
  assert (Hs' : cell s r' c' = cell b r' c') by (apply Hag; try assumption; lia).
  apply (Hleg r c r' c'); try assumption; [lia|congruence].
Qed.

Lemma completion_full (b s : Board) :
  wf b -> complete b -> legal b -> completion b s <-> s = b.
Proof.
  intros Hwf Hcomp Hleg. split.
  - intros [Hwf' [_ [_ Hag]]]. apply board_ext; try apply Hwf; try apply Hwf'.
    intros r c Hr Hc. apply Hag; auto.
  - intros ->. split; [exact Hwf|]. split; [exact Hcomp|]. split; [exact Hleg|].
    reflexivity.
Qed.

(** A cell without candidates rules out every completion. *)
Lemma dead_cell_no_completion (b : Board) (m : Masks) (r c : nat) :
  consistent b m -> r < N -> c < N -> cell b r c = 0%Z ->
  digits_of (candidates_mask m r c) = [] ->
  forall s, ~ completion b s.
Proof.
  intros Hcons Hr Hc Hz Hdead s Hcpl.
  pose proof (completion_digit b s r c Hcpl Hr Hc) as Hd.
  assert (Hin : In (cell s r c) (digits_of (candidates_mask m r c))).
  { apply (candidate_iff b); try assumption.
    apply completion_candidate; assumption. }
  rewrite Hdead in Hin. destruct Hin.
Qed.

Lemma solutions_length (b : Board) (l l' : list Board) :
  solutions b l -> solutions b l' -> length l = length l'.
Proof.
  intros [N1 H1] [N2 H2]. apply Permutation_length.
  apply Permutation.NoDup_Permutation; try assumption.
  intros s. rewrite H1, H2. reflexivity.
Qed.

End Completions.

(** ** The search loops over the digit lists *)

Section SearchEquations.

Lemma count_rec_eq (fuel : nat) (b : Board) (m : Masks) (lim : Z) :
  count_rec (S fuel) b m lim =
  if negb (any_empty b) then Some (b, m, 1%Z)
  else
    match find_best_cell b m with
    | None => Some (b, m, 0%Z)
    | Some ch =>
        count_digits (count_rec fuel) (ch_r ch) (ch_c ch) (digits_of (ch_cand ch))
                     b m lim 0%Z
    end.
Proof.
  cbn [count_rec]. destruct (negb (any_empty b)); [reflexivity|].
  destruct (find_best_cell b m) as [ch|] eqn:Hf; [|reflexivity].
  apply find_best_cell_some in Hf as [_ [_ [_ [E _]]]].
  apply count_loop_digits.
  - rewrite E. apply candidates_range.
  - pose proof (digits_of_length (ch_cand ch)). unfold loop_budget. lia.
Qed.

Lemma solve_rec_eq (fuel : nat) (b : Board) (m : Masks) :
  solve_rec (S fuel) b m =
  if negb (any_empty b) then Some (true, b, m)
  else
    match find_best_cell b m with
    | None => Some (false, b, m)
    | Some ch =>
        solve_digits (solve_rec fuel) (ch_r ch) (ch_c ch) (digits_of (ch_cand ch)) b m
    end.
Proof.
  cbn [solve_rec]. destruct (negb (any_empty b)); [reflexivity|].
  destruct (find_best_cell b m) as [ch|] eqn:Hf; [|reflexivity].
  apply find_best_cell_some in Hf as [_ [_ [_ [E _]]]].
  apply solve_loop_digits.
  - rewrite E. apply candidates_range.
  - pose proof (digits_of_length (ch_cand ch)). unfold loop_budget. lia.
Qed.

End SearchEquations.

(** ** Termination of the search and restoration of the state *)

Section SearchTermination.

Lemma apply_set_fst (b : Board) (m : Masks) (r c : nat) (v : Z) :
  fst (apply_set b m r c v) = store b r c v.
Proof. reflexivity. Qed.

Lemma set_step (b : Board) (m : Masks) (r c : nat) (v : Z) (b1 : Board) (m1 : Masks) :
  shape b -> masks_ok m -> r < N -> c < N -> cell b r c = 0%Z ->
  (1 <= v <= 9)%Z /\ Z.testbit (used_mask m r c) (v - 1) = false ->
  apply_set b m r c v = (b1, m1) ->
  b1 = store b r c v /\ shape b1 /\ masks_ok m1 /\ empties b = S (empties b1) /\
  apply_clear b1 m1 r c = (b, m).
Proof.
  intros Hs Hm Hr Hc Hz [Hv Hu] E.
  pose proof (set_clear_restores b m r c v Hs Hm Hr Hc Hv Hz Hu) as Hrt.
  pose proof (masks_ok_set m r c v Hm ltac:(lia) Hr Hc b) as Hm1.
  rewrite E in Hrt, Hm1. simpl in Hrt, Hm1.
  assert (Hb1 : b1 = store b r c v) by (rewrite <- apply_set_fst with (m := m), E; reflexivity).
  subst b1. split; [reflexivity|].
  split; [apply shape_store; assumption|].
  split; [assumption|].
  split; [|assumption].
  apply empties_store; try assumption. lia.
Qed.

Lemma count_digits_total (fuel : nat) rec :
  (forall b1 m1 l, shape b1 -> masks_ok m1 -> empties b1 < fuel ->
     exists n, rec b1 m1 l = Some (b1, m1, n)) ->
  forall b m r c, shape b -> masks_ok m -> r < N -> c < N -> cell b r c = 0%Z ->
    empties b <= fuel ->
    forall vs lim total,
      (forall v, In v vs ->
         (1 <= v <= 9)%Z /\ Z.testbit (used_mask m r c) (v - 1) = false) ->
      exists n, count_digits rec r c vs b m lim total = Some (b, m, n).
Proof.
  intros Hrec b m r c Hs Hm Hr Hc Hz Hfuel vs lim.
  induction vs as [|v vs IH]; intros total Hvs; cbn [count_digits]; [eauto|].
  destruct (apply_set b m r c v) as [b1 m1] eqn:Eset.
  destruct (set_step b m r c v b1 m1 Hs Hm Hr Hc Hz (Hvs v (or_introl eq_refl)) Eset)
    as [_ [Hs1 [Hm1 [He Hclr]]]].
  destruct (Hrec b1 m1 (lim - total)%Z Hs1 Hm1 ltac:(lia)) as [k Hk].
  rewrite Hk, Hclr.
  destruct (_ >=? _)%Z; [eauto|].
  apply IH. intros w Hw. apply Hvs. right. exact Hw.
Qed.

(** With more fuel than empty cells [count_rec] returns, and it hands
    back the board and the masks it was given. *)
Lemma count_rec_total (fuel : nat) :
  forall b m lim, shape b -> masks_ok m -> empties b < fuel ->
    exists n, count_rec fuel b m lim = Some (b, m, n).
Proof.
  induction fuel as [|fuel IH]; intros b m lim Hs Hm He; [lia|].
  rewrite count_rec_eq.
  destruct (negb (any_empty b)); [eauto|].
  destruct (find_best_cell b m) as [ch|] eqn:Hf; [|eauto].
  apply find_best_cell_some in Hf as [Hr [Hc [Hz [E _]]]].
  apply (count_digits_total fuel); try assumption; [lia|].
  intros v Hv. rewrite E in Hv. apply candidate_unused. exact Hv.
Qed.

Lemma solve_digits_total (fuel : nat) rec :
  (forall b1 m1, shape b1 -> masks_ok m1 -> empties b1 < fuel ->
     exists ok b2 m2, rec b1 m1 = Some (ok, b2, m2) /\
       (ok = false -> b2 = b1 /\ m2 = m1)) ->
  forall b m r c, shape b -> masks_ok m -> r < N -> c < N -> cell b r c = 0%Z ->
    empties b <= fuel ->
    forall vs,
      (forall v, In v vs ->
         (1 <= v <= 9)%Z /\ Z.testbit (used_mask m r c) (v - 1) = false) ->
      exists ok b2 m2, solve_digits rec r c vs b m = Some (ok, b2, m2) /\
        (ok = false -> b2 = b /\ m2 = m).
Proof.
  intros Hrec b m r c Hs Hm Hr Hc Hz Hfuel vs.
  induction vs as [|v vs IH]; intros Hvs; cbn [solve_digits]; [eauto 6|].
  destruct (apply_set b m r c v) as [b1 m1] eqn:Eset.
  destruct (set_step b m r c v b1 m1 Hs Hm Hr Hc Hz (Hvs v (or_introl eq_refl)) Eset)
    as [_ [Hs1 [Hm1 [He Hclr]]]].
  destruct (Hrec b1 m1 Hs1 Hm1 ltac:(lia)) as [ok [b2 [m2 [Hk Hfail]]]].
  rewrite Hk. destruct ok.
  - exists true, b2, m2. split; [reflexivity|discriminate].
  - destruct (Hfail eq_refl) as [-> ->]. rewrite Hclr.
    apply IH. intros w Hw. apply Hvs. right. exact Hw.
Qed.

(** With more fuel than empty cells [solve_rec] returns; when it returns
    [false] the board and the masks are those it was given. *)
Lemma solve_rec_total (fuel : nat) :
  forall b m, shape b -> masks_ok m -> empties b < fuel ->
    exists ok b2 m2, solve_rec fuel b m = Some (ok, b2, m2) /\
      (ok = false -> b2 = b /\ m2 = m).
Proof.
  induction fuel as [|fuel IH]; intros b m Hs Hm He; [lia|].
  rewrite solve_rec_eq.
  destruct (negb (any_empty b)).
  { exists true, b, m. split; [reflexivity|discriminate]. }
  destruct (find_best_cell b m) as [ch|] eqn:Hf; [|eauto 6].
  apply find_best_cell_some in Hf as [Hr [Hc [Hz [E _]]]].
  apply (solve_digits_total fuel); try assumption; [lia|].
  intros v Hv. rewrite E in Hv. apply candidate_unused. exact Hv.
Qed.

Lemma solve_digits_fail rec :
  (forall b1 m1 b2 m2, shape b1 -> masks_ok m1 ->
     rec b1 m1 = Some (false, b2, m2) -> b2 = b1 /\ m2 = m1) ->
  forall b m r c, shape b -> masks_ok m -> r < N -> c < N -> cell b r c = 0%Z ->
    forall vs b' m',
      (forall v, In v vs ->
         (1 <= v <= 9)%Z /\ Z.testbit (used_mask m r c) (v - 1) = false) ->
      solve_digits rec r c vs b m = Some (false, b', m') -> b' = b /\ m' = m.
Proof.
  intros Hrec b m r c Hs Hm Hr Hc Hz vs b' m'.
  induction vs as [|v vs IH]; intros Hvs; cbn [solve_digits].
  - intros E. inversion E; subst. auto.
  - destruct (apply_set b m r c v) as [b1 m1] eqn:Eset.
    destruct (set_step b m r c v b1 m1 Hs Hm Hr Hc Hz (Hvs v (or_introl eq_refl)) Eset)
      as [_ [Hs1 [Hm1 [He Hclr]]]].
    destruct (rec b1 m1) as [[[[|] b2] m2]|] eqn:Hk; try discriminate.
    destruct (Hrec b1 m1 b2 m2 Hs1 Hm1 Hk) as [-> ->]. rewrite Hclr.
    apply IH. intros w Hw. apply Hvs. right. exact Hw.
Qed.

(** Whatever the fuel, a [false] from [solve_rec] comes with the entry state. *)
Lemma solve_rec_fail (fuel : nat) :
  forall b m b' m', shape b -> masks_ok m ->
    solve_rec fuel b m = Some (false, b', m') -> b' = b /\ m' = m.
Proof.
  induction fuel as [|fuel IH]; intros b m b' m' Hs Hm; [discriminate|].
  rewrite solve_rec_eq.
  destruct (negb (any_empty b)); [discriminate|].
  destruct (find_best_cell b m) as [ch|] eqn:Hf.
  - apply find_best_cell_some in Hf as [Hr [Hc [Hz [E _]]]].
    apply (solve_digits_fail (solve_rec fuel)); try assumption.
    intros v Hv. rewrite E in Hv. apply candidate_unused. exact Hv.
  - intros H. inversion H; subst. auto.
Qed.

End SearchTermination.

(** ** Correctness of the search on legal boards with consistent masks *)

Section SearchCorrectness.

Lemma set_step_legal (b : Board) (m : Masks) (r c : nat) (v : Z) (b1 : Board) (m1 : Masks) :
  wf b -> legal b -> consistent b m -> r < N -> c < N -> cell b r c = 0%Z ->
  In v (digits_of (candidates_mask m r c)) ->
  apply_set b m r c v = (b1, m1) ->
  b1 = store b r c v /\ wf b1 /\ legal b1 /\ consistent b1 m1 /\
  empties b = S (empties b1) /\ apply_clear b1 m1 r c = (b, m) /\ v <> 0%Z.
Proof.
  intros Hwf Hleg Hcons Hr Hc Hz Hv Eset.
  pose proof Hwf as [Hs _]. pose proof Hcons as [Hm _].
  pose proof (candidate_unused m r c v Hv) as Hcu.
  pose proof Hcu as [Hrange _].
  destruct (set_step b m r c v b1 m1 Hs Hm Hr Hc Hz Hcu Eset)
    as [Hb1 [Hs1 [Hm1 [He Hclr]]]].
  pose proof (consistent_set b r c Hs Hr Hc m v Hcons Hz Hrange) as Hc1.
  rewrite Eset in Hc1. simpl in Hc1.
  split; [assumption|]. subst b1.
  split; [apply wf_store; (assumption || lia)|].
  split.
  { apply legal_store; try assumption.
    apply (candidate_iff b m r c v); assumption. }
  split; [assumption|]. split; [assumption|]. split; [assumption|lia].
Qed.

Lemma completion_in_candidates (b s : Board) (m : Masks) (r c : nat) :
  consistent b m -> r < N -> c < N -> cell b r c = 0%Z -> completion b s ->
  In (cell s r c) (digits_of (candidates_mask m r c)).
Proof.
  intros Hcons Hr Hc Hz Hcpl.
  apply (candidate_iff b); try assumption.
  - apply (completion_digit b); assumption.
  - apply completion_candidate; assumption.
Qed.

(** The completions through digit [v] followed by those through [vs]. *)
Lemma solutions_app (b : Board) (r c : nat) (v : Z) (vs : list Z)
    (sols1 sols2 : list Board) :
  shape b -> r < N -> c < N -> cell b r c = 0%Z -> v <> 0%Z -> ~ In v vs ->
  solutions (store b r c v) sols1 ->
  List.NoDup sols2 ->
  (forall s, In s sols2 <-> completion b s /\ In (cell s r c) vs) ->
  List.NoDup (sols1 ++ sols2) /\
  forall s, In s (sols1 ++ sols2) <-> completion b s /\ In (cell s r c) (v :: vs).
Proof.
  intros Hs Hr Hc Hz Hv Hnotin [Hn1 Hi1] Hn2 Hi2. split.
  - apply List.NoDup_app; try assumption.
    intros s H1 H2. apply Hi1 in H1. apply Hi2 in H2 as [_ H2].
    apply completion_of_store in H1 as [_ E]; try assumption.
    rewrite E in H2. contradiction.
  - intros s. rewrite in_app_iff, Hi1, Hi2. split.
    + intros [H|[H1 H2]].
      * apply completion_of_store in H as [H E]; try assumption.
        split; [assumption|left; auto].
      * split; [assumption|right; assumption].
    + intros [Hcpl [E|Hin]].
      * left. rewrite E. apply completion_to_store; assumption.
      * right. auto.
Qed.

Lemma count_digits_correct (fuel : nat) rec :
  (forall b1 m1 l, wf b1 -> legal b1 -> consistent b1 m1 -> empties b1 < fuel ->
     (1 <= l)%Z ->
     exists sols, solutions b1 sols /\
       rec b1 m1 l = Some (b1, m1, Z.min l (Z.of_nat (length sols)))) ->
  forall b m r c lim,
    wf b -> legal b -> consistent b m -> r < N -> c < N -> cell b r c = 0%Z ->
    empties b <= fuel ->
    forall vs total,
      List.NoDup vs ->
      (forall v, In v vs -> In v (digits_of (candidates_mask m r c))) ->
      (0 <= total < lim)%Z ->
      exists sols,
        List.NoDup sols /\
        (forall s, In s sols <-> completion b s /\ In (cell s r c) vs) /\
        count_digits rec r c vs b m lim total
        = Some (b, m, Z.min lim (total + Z.of_nat (length sols))).
Proof.
  intros Hrec b m r c lim Hwf Hleg Hcons Hr Hc Hz Hfuel vs.
  induction vs as [|v vs IH]; intros total Hnd Hvs Htot; cbn [count_digits].
  - exists []. split; [constructor|]. split.
    + intros s. simpl. tauto.
    + simpl. f_equal. f_equal. lia.
  - inversion Hnd as [|? ? Hnotin Hnd']; subst.
    assert (Hvs' : forall w, In w vs -> In w (digits_of (candidates_mask m r c)))
      by (intros w Hw; apply Hvs; right; exact Hw).
    destruct (apply_set b m r c v) as [b1 m1] eqn:Eset.
    destruct (set_step_legal b m r c v b1 m1 Hwf Hleg Hcons Hr Hc Hz
                (Hvs v (or_introl eq_refl)) Eset)
      as [Hb1 [Hwf1 [Hleg1 [Hcons1 [He [Hclr Hv0]]]]]].
    destruct (Hrec b1 m1 (lim - total)%Z Hwf1 Hleg1 Hcons1 ltac:(lia) ltac:(lia))
      as [sols1 [Hsol1 Hk]].
    rewrite Hk, Hclr. subst b1.
    destruct (Z.geb_spec (total + Z.min (lim - total) (Z.of_nat (length sols1))) lim)
      as [Hge|Hlt].
    + destruct (IH 0%Z Hnd' Hvs' ltac:(lia)) as [sols2 [Hn2 [Hi2 _]]].
      exists (sols1 ++ sols2).
      destruct (solutions_app b r c v vs sols1 sols2 (proj1 Hwf) Hr Hc Hz Hv0
                  Hnotin Hsol1 Hn2 Hi2) as [Hn Hi].
      split; [assumption|]. split; [assumption|].
      rewrite List.length_app, Nat2Z.inj_add. f_equal. f_equal.
      clear - Hge Htot. lia.
    + assert (Htot' : (0 <= total + Z.min (lim - total) (Z.of_nat (length sols1)) < lim)%Z)
        by (clear - Hlt Htot; lia).
      destruct (IH _ Hnd' Hvs' Htot') as [sols2 [Hn2 [Hi2 Hrun]]].
      exists (sols1 ++ sols2).
      destruct (solutions_app b r c v vs sols1 sols2 (proj1 Hwf) Hr Hc Hz Hv0
                  Hnotin Hsol1 Hn2 Hi2) as [Hn Hi].
      split; [assumption|]. split; [assumption|].
      rewrite Hrun, List.length_app, Nat2Z.inj_add. f_equal. f_equal.
      clear - Hlt Htot. lia.
Qed.

(** [count_rec] returns the number of completions, capped at [lim]. *)
Lemma count_rec_correct (fuel : nat) :
  forall b m lim,
    wf b -> legal b -> consistent b m -> empties b < fuel -> (1 <= lim)%Z ->
    exists sols, solutions b sols /\
      count_rec fuel b m lim = Some (b, m, Z.min lim (Z.of_nat (length sols))).
Proof.
  induction fuel as [|fuel IH]; intros b m lim Hwf Hleg Hcons He Hlim; [lia|].
  rewrite count_rec_eq.
  destruct (any_empty b) eqn:Hany; simpl.
  - destruct (find_best_cell b m) as [ch|] eqn:Hf.
    + apply find_best_cell_some in Hf as [Hr [Hc [Hz [E _]]]].
      destruct (count_digits_correct fuel (count_rec fuel) IH b m (ch_r ch) (ch_c ch)
                  lim Hwf Hleg Hcons Hr Hc Hz ltac:(lia)
                  (digits_of (ch_cand ch)) 0%Z (digits_of_NoDup _)
                  ltac:(intros v Hv; rewrite <- E; exact Hv) ltac:(lia))
        as [sols [Hn [Hi Hrun]]].
      exists sols. split; [|rewrite Hrun; reflexivity].
      split; [assumption|]. intros s. rewrite Hi. split; [tauto|].
      intros Hcpl. split; [assumption|]. rewrite E.
      apply (completion_in_candidates b); assumption.
    + exists []. split; [|f_equal; f_equal; simpl; lia].
      split; [constructor|]. intros s. split; [intros []|].
      intros Hcpl. apply find_best_cell_none in Hf as [Hfull|[r [c [Hr [Hc [Hz Hd]]]]]].
      * apply complete_any_empty in Hfull. congruence.
      * exact (dead_cell_no_completion b m r c Hcons Hr Hc Hz Hd s Hcpl).
  - apply any_empty_false in Hany.
    exists [b]. split.
    + split; [repeat constructor; simpl; tauto|].
      intros s. rewrite (completion_full b s Hwf Hany Hleg). simpl.
      split; [intros [->|[]]; reflexivity|intros ->; left; reflexivity].
    + f_equal. f_equal. simpl. lia.
Qed.

Lemma solve_digits_correct (fuel : nat) rec :
  (forall b1 m1, wf b1 -> legal b1 -> consistent b1 m1 -> empties b1 < fuel ->
     (exists s m', rec b1 m1 = Some (true, s, m') /\ completion b1 s) \/
     (rec b1 m1 = Some (false, b1, m1) /\ forall s, ~ completion b1 s)) ->
  forall b m r c,
    wf b -> legal b -> consistent b m -> r < N -> c < N -> cell b r c = 0%Z ->
    empties b <= fuel ->
    forall vs,
      (forall v, In v vs -> In v (digits_of (candidates_mask m r c))) ->
      (exists s m', solve_digits rec r c vs b m = Some (true, s, m') /\ completion b s) \/
      (solve_digits rec r c vs b m = Some (false, b, m) /\
       forall s, completion b s -> ~ In (cell s r c) vs).
Proof.
  intros Hrec b m r c Hwf Hleg Hcons Hr Hc Hz Hfuel vs.
  induction vs as [|v vs IH]; intros Hvs; cbn [solve_digits].
  - right. split; [reflexivity|]. intros s _ [].
  - assert (Hvs' : forall w, In w vs -> In w (digits_of (candidates_mask m r c)))
      by (intros w Hw; apply Hvs; right; exact Hw).
    destruct (apply_set b m r c v) as [b1 m1] eqn:Eset.
    destruct (set_step_legal b m r c v b1 m1 Hwf Hleg Hcons Hr Hc Hz
                (Hvs v (or_introl eq_refl)) Eset)
      as [Hb1 [Hwf1 [Hleg1 [Hcons1 [He [Hclr Hv0]]]]]].
    destruct (Hrec b1 m1 Hwf1 Hleg1 Hcons1 ltac:(lia))
      as [[s [m' [Hk Hcpl]]]|[Hk Hnone]]; rewrite Hk.
    + left. exists s, m'. split; [reflexivity|]. subst b1.
      apply completion_of_store in Hcpl as [Hcpl _]; try assumption. apply Hwf.
    + rewrite Hclr. destruct (IH Hvs') as [Hfound|[Hrun Hrest]]; [left; exact Hfound|].
      right. split; [exact Hrun|].
      intros s Hcpl [E|Hin]; [|exact (Hrest s Hcpl Hin)].
      apply (Hnone s). subst b1. rewrite E.
      apply completion_to_store; try assumption. apply Hwf.
Qed.

(** [solve_rec] finds a completion whenever one exists, and otherwise
    returns [false] with the state it was given. *)
Lemma solve_rec_correct (fuel : nat) :
  forall b m,
    wf b -> legal b -> consistent b m -> empties b < fuel ->
    (exists s m', solve_rec fuel b m = Some (true, s, m') /\ completion b s) \/
    (solve_rec fuel b m = Some (false, b, m) /\ forall s, ~ completion b s).
Proof.
  induction fuel as [|fuel IH]; intros b m Hwf Hleg Hcons He; [lia|].
  rewrite solve_rec_eq.
  destruct (any_empty b) eqn:Hany; simpl.
  - destruct (find_best_cell b m) as [ch|] eqn:Hf.
    + apply find_best_cell_some in Hf as [Hr [Hc [Hz [E _]]]].
      destruct (solve_digits_correct fuel (solve_rec fuel) IH b m (ch_r ch) (ch_c ch)
                  Hwf Hleg Hcons Hr Hc Hz ltac:(lia) (digits_of (ch_cand ch))
                  ltac:(intros v Hv; rewrite <- E; exact Hv))
        as [Hfound|[Hrun Hnone]]; [left; exact Hfound|].
      right. split; [exact Hrun|]. intros s Hcpl.
      apply (Hnone s Hcpl). rewrite E.
      apply (completion_in_candidates b); assumption.
    + right. split; [reflexivity|]. intros s Hcpl.
      apply find_best_cell_none in Hf as [Hfull|[r [c [Hr [Hc [Hz Hd]]]]]].
      * apply complete_any_empty in Hfull. congruence.
      * exact (dead_cell_no_completion b m r c Hcons Hr Hc Hz Hd s Hcpl).
  - apply any_empty_false in Hany.
    left. exists b, m. split; [reflexivity|].
    apply completion_full; auto.
Qed.

End SearchCorrectness.

(** ** [is_legal] decides [legal] on well-formed boards *)

Section Legality.

Lemma land_bit_zero (used k : Z) :
  (0 <= k)%Z ->
  (Z.land used (Z.shiftl 1 k) =? 0)%Z = negb (Z.testbit used k).
Proof.
  intros Hk. rewrite Z.shiftl_1_l.
  destruct (Z.testbit used k) eqn:Ht; simpl.
  - apply Z.eqb_neq. intros E.
    assert (H : Z.testbit (Z.land used (2 ^ k)) k = true).
    { rewrite Z.land_spec, Ht, Z.pow2_bits_eqb, Z.eqb_refl by assumption. reflexivity. }
    rewrite E, Z.bits_0 in H. discriminate.
  - apply Z.eqb_eq. apply Z.bits_inj'. intros n Hn.
    rewrite Z.land_spec, Z.bits_0, Z.pow2_bits_eqb by assumption.
    destruct (Z.eqb_spec k n) as [->|]; [rewrite Ht; reflexivity|apply andb_false_r].
Qed.

Lemma unit_scan_spec (vals : list Z) :
  forall used,
    (forall v, In v vals -> (0 <= v <= 9)%Z) ->
    unit_scan vals used = true <->
    List.NoDup (List.filter (fun v => negb (v =? 0)%Z) vals) /\
    (forall v, In v vals -> v <> 0%Z -> Z.testbit used (v - 1) = false).
Proof.
  induction vals as [|v rest IH]; intros used Hrange; simpl.
  - split; [intros _; split; [constructor|intros v []]|reflexivity].
  - assert (Hrest : forall w, In w rest -> (0 <= w <= 9)%Z)
      by (intros w Hw; apply Hrange; right; exact Hw).
    pose proof (Hrange v (or_introl eq_refl)) as Hv.
    destruct (Z.eqb_spec v 0) as [->|Hnz]; simpl.
    + rewrite (IH used Hrest). split; intros [H1 H2]; (split; [exact H1|]).
      * intros w [<-|Hw] Hw0; [contradiction|auto].
      * intros w Hw. apply H2. right. exact Hw.
    + rewrite land_bit_zero by lia. rewrite negb_involutive.
      destruct (Z.testbit used (v - 1)) eqn:Ht.
      * split; [discriminate|]. intros [_ H]. rewrite H in Ht; auto.
      * rewrite (IH _ Hrest). split.
        -- intros [H1 H2]. split.
           ++ constructor; [|exact H1]. intros Hin.
              apply List.filter_In in Hin as [Hin _].
              specialize (H2 v Hin Hnz).
              rewrite Z.lor_spec, Z.shiftl_1_l, Z.pow2_bits_eqb, Z.eqb_refl in H2 by lia.
              rewrite orb_true_r in H2. discriminate.
           ++ intros w [<-|Hw] Hw0; [exact Ht|].
              specialize (H2 w Hw Hw0). rewrite Z.lor_spec in H2.
              apply orb_false_iff in H2. tauto.
        -- intros [H1 H2]. inversion H1 as [|? ? Hnotin H1']; subst. split; [exact H1'|].
           intros w Hw Hw0. rewrite Z.lor_spec, Z.shiftl_1_l, Z.pow2_bits_eqb by lia.
           apply orb_false_iff. split; [apply H2; auto|].
           apply Z.eqb_neq. intros E. apply Hnotin.
           apply List.filter_In. assert (w = v) by lia. subst w.
           split; [exact Hw|]. apply negb_true_iff, Z.eqb_neq. exact Hnz.
Qed.

(** The values read along a list of distinct positions have no repeated
    nonzero digit iff they differ pairwise. *)
Lemma NoDup_filter_map {A} (f : A -> Z) (idxs : list A) :
  List.NoDup idxs ->
  List.NoDup (List.filter (fun v => negb (v =? 0)%Z) (List.map f idxs)) <->
  (forall i j, In i idxs -> In j idxs -> i <> j -> f i <> 0%Z -> f i <> f j).
Proof.
  induction idxs as [|a idxs IH]; intros Hnd; simpl.
  - split; [intros _ i j []|constructor].
  - inversion Hnd as [|? ? Hnotin Hnd']; subst. specialize (IH Hnd').
    destruct (Z.eqb_spec (f a) 0) as [E0|E0]; simpl.
    + rewrite IH. split.
      * intros H i j [<-|Hi] [<-|Hj] Hne Hfi; try congruence; auto.
      * intros H i j Hi Hj. apply H; auto.
    + split.
      * intros H. inversion H as [|? ? Hfa Hrest]; subst.
        rewrite IH in Hrest.
        assert (Hfa' : forall j, In j idxs -> f a <> f j).
        { intros j Hj E. apply Hfa. apply List.filter_In. split.
          - apply in_map_iff. exists j. auto.
          - apply negb_true_iff, Z.eqb_neq. congruence. }
        intros i j [<-|Hi] [<-|Hj] Hne Hfi; try congruence; auto.
        intros E. apply (Hfa' i Hi). congruence.
      * intros H. constructor.
        -- intros Hin. apply List.filter_In in Hin as [Hin _].
           apply in_map_iff in Hin as [j [E Hj]].
           apply (H a j); auto. intros ->. contradiction.
        -- apply IH. intros i j Hi Hj. apply H; auto.
Qed.

Lemma unit_scan_positions {A} (f : A -> Z) (idxs : list A) :
  List.NoDup idxs -> (forall i, In i idxs -> (0 <= f i <= 9)%Z) ->
  unit_scan (List.map f idxs) 0 = true <->
  (forall i j, In i idxs -> In j idxs -> i <> j -> f i <> 0%Z -> f i <> f j).
Proof.
  intros Hnd Hrange. rewrite unit_scan_spec.
  - rewrite NoDup_filter_map by assumption. split; [tauto|].
    intros H. split; [exact H|]. intros v _ _. apply Z.bits_0.
  - intros v Hv. apply in_map_iff in Hv as [i [<- Hi]]. auto.
Qed.

Lemma pairs33_NoDup : List.NoDup (pairs 3 3).
Proof. apply NoDup_ListNoDup. apply (bool_decide_unpack _). vm_compute. exact I. Qed.

Lemma is_legal_spec (b : Board) : wf b -> is_legal b = true <-> legal b.
Proof.
  intros [Hs Hrange]. unfold is_legal.
  rewrite !andb_true_iff, !forallb_forall.
  assert (Hrows : forall r, In r (seq 0 N) ->
            unit_scan (List.map (fun c => cell b r c) (seq 0 N)) 0 = true <->
            (forall i j, In i (seq 0 N) -> In j (seq 0 N) -> i <> j ->
               cell b r i <> 0%Z -> cell b r i <> cell b r j)).
  { intros r Hr. apply in_seq in Hr. apply unit_scan_positions; [apply List.seq_NoDup|].
    intros i Hi. apply in_seq in Hi. apply Hrange; lia. }
  assert (Hcols : forall c, In c (seq 0 N) ->
            unit_scan (List.map (fun r => cell b r c) (seq 0 N)) 0 = true <->
            (forall i j, In i (seq 0 N) -> In j (seq 0 N) -> i <> j ->
               cell b i c <> 0%Z -> cell b i c <> cell b j c)).
  { intros c Hc. apply in_seq in Hc. apply unit_scan_positions; [apply List.seq_NoDup|].
    intros i Hi. apply in_seq in Hi. apply Hrange; lia. }
  assert (Hboxes : forall br bc, In br [0; 3; 6] -> In bc [0; 3; 6] ->
            unit_scan (List.map (fun '(dr, dc) => cell b (br + dr) (bc + dc)) (pairs 3 3)) 0
            = true <->
            (forall p q, In p (pairs 3 3) -> In q (pairs 3 3) -> p <> q ->
               cell b (br + fst p) (bc + snd p) <> 0%Z ->
               cell b (br + fst p) (bc + snd p) <> cell b (br + fst q) (bc + snd q))).
  { intros br bc Hbr Hbc.
    rewrite (List.map_ext (fun '(dr, dc) => cell b (br + dr) (bc + dc))
               (fun p => cell b (br + fst p) (bc + snd p))) by (intros [? ?]; reflexivity).
    apply unit_scan_positions; [apply pairs33_NoDup|].
    intros [dr dc] Hin. apply in_pairs in Hin. cbn [fst snd].
    assert (br <= 6 /\ bc <= 6) as [? ?] by (simpl in Hbr, Hbc; clear - Hbr Hbc; lia).
    apply Hrange; unfold N; lia. }
  split.
  - intros [[HR HC] HB] r c r' c' Hr Hc Hr' Hc' [Hne Hp] Hnz.
    destruct (decide (r = r')) as [->|Hrr].
    { apply (proj1 (Hrows r' ltac:(apply in_seq; lia)) (HR r' ltac:(apply in_seq; lia)));
        try (apply in_seq; lia); [congruence|assumption]. }
    destruct (decide (c = c')) as [->|Hcc].
    { apply (proj1 (Hcols c' ltac:(apply in_seq; lia)) (HC c' ltac:(apply in_seq; lia)));
        try (apply in_seq; lia); assumption. }
    assert (Hbx : box_index r c = box_index r' c') by tauto.
    unfold box_index in Hbx.
    assert (Hbr : In (r / 3 * 3) [0; 3; 6]).
    { assert (r / 3 = 0 \/ r / 3 = 1 \/ r / 3 = 2) as [E|[E|E]] by divlia;
        rewrite E; simpl; auto. }
    assert (Hbc : In (c / 3 * 3) [0; 3; 6]).
    { assert (c / 3 = 0 \/ c / 3 = 1 \/ c / 3 = 2) as [E|[E|E]] by divlia;
        rewrite E; simpl; auto. }
    specialize (HB _ Hbr). rewrite forallb_forall in HB. specialize (HB _ Hbc).
    pose proof (proj1 (Hboxes _ _ Hbr Hbc) HB) as HB'. clear HB.
    specialize (HB' (r mod 3, c mod 3) (r' mod 3, c' mod 3)). cbn [fst snd] in HB'.
    rename HB' into HB.
    replace (r / 3 * 3 + r mod 3) with r in HB by divlia.
    replace (c / 3 * 3 + c mod 3) with c in HB by divlia.
    replace (r / 3 * 3 + r' mod 3) with r' in HB by divlia.
    replace (c / 3 * 3 + c' mod 3) with c' in HB by divlia.
    apply HB; try assumption.
    + apply in_pairs. divlia.
    + apply in_pairs. divlia.
    + intros E.
      pose proof (f_equal fst E) as E1. pose proof (f_equal snd E) as E2.
      cbn [fst snd] in E1, E2.
      clear - E1 E2 Hbx Hr Hc Hr' Hc' Hrr. divlia.
  - intros Hleg. split; [split|].
    + intros r Hr. apply Hrows; [assumption|]. apply in_seq in Hr.
      intros i j Hi Hj Hne. apply in_seq in Hi, Hj.
      apply Hleg; try lia. split; [congruence|auto].
    + intros c Hc. apply Hcols; [assumption|]. apply in_seq in Hc.
      intros i j Hi Hj Hne. apply in_seq in Hi, Hj.
      apply Hleg; try lia. split; [congruence|auto].
    + intros br Hbr. apply forallb_forall. intros bc Hbc.
      apply Hboxes; try assumption.
      intros [dr dc] [dr' dc'] Hp Hq Hne. cbn [fst snd].
      apply in_pairs in Hp, Hq.
      assert (Hbr' : br = 0 \/ br = 3 \/ br = 6) by (simpl in Hbr; clear - Hbr; lia).
      assert (Hbc' : bc = 0 \/ bc = 3 \/ bc = 6) by (simpl in Hbc; clear - Hbc; lia).
      apply Hleg; try (unfold N; lia).
      split.
      * intros E. inversion E. apply Hne. f_equal; lia.
      * right. right. unfold box_index. divlia.
Qed.

End Legality.

(** ** Executable checks *)

Section Reflection.

Lemma shapeb_spec (b : Board) : shapeb b = true -> shape b.
Proof.
  unfold shapeb, shape. rewrite andb_true_iff, forallb_forall.
  intros [H1 H2]. split; [apply Nat.eqb_eq; exact H1|].
  apply Forall_forall. intros rw Hin. apply Nat.eqb_eq, H2, list_elem_of_In. exact Hin.
Qed.

Lemma wfb_spec (b : Board) : wfb b = true -> wf b.
Proof.
  unfold wfb, wf. rewrite andb_true_iff, forallb_forall.
  intros [H1 H2]. split; [apply shapeb_spec; exact H1|].
  intros r c Hr Hc. specialize (H2 (r, c) (proj2 (in_all_cells r c) (conj Hr Hc))).
  simpl in H2. apply andb_true_iff in H2 as [Ha Hb]. lia.
Qed.

Lemma completeb_spec (b : Board) : completeb b = true -> complete b.
Proof.
  unfold completeb. intros H. apply any_empty_false.
  apply negb_true_iff. exact H.
Qed.

Lemma masks_okb_spec (m : Masks) : masks_okb m = true -> masks_ok m.
Proof.
  unfold masks_okb, masks_ok. rewrite !andb_true_iff, !forallb_forall.
  assert (Hok : forall l : list Z, (forall x, In x l -> mask_okb x = true) -> Forall mask_ok l).
  { intros l H. apply Forall_forall. intros x Hx. apply list_elem_of_In in Hx.
    specialize (H x Hx). unfold mask_okb in H. apply andb_true_iff in H as [Ha Hb].
    unfold mask_ok. lia. }
  intros [[[[[H1 H2] H3] H4] H5] H6].
  repeat split; try (apply Nat.eqb_eq; assumption); apply Hok; assumption.
Qed.

Lemma completionb_spec (b s : Board) : completionb b s = true -> completion b s.
Proof.
  unfold completionb. rewrite !andb_true_iff. intros [[[H1 H2] H3] H4].
  pose proof (wfb_spec s H1) as Hwf.
  split; [exact Hwf|]. split; [apply completeb_spec; exact H2|].
  split; [apply is_legal_spec; assumption|].
  intros r c Hr Hc Hnz. unfold agreeb in H4. rewrite forallb_forall in H4.
  specialize (H4 (r, c) (proj2 (in_all_cells r c) (conj Hr Hc))). simpl in H4.
  apply orb_true_iff in H4 as [H|H]; [apply Z.eqb_eq in H; contradiction|].
  apply Z.eqb_eq. exact H.
Qed.

End Reflection.

(** ** The entry points [count_solutions] and [solve_board] *)

Section EntryPoints.

Lemma some_pair_snd {A B} (a a' : A) (x y : B) : Some (a, x) = Some (a', y) -> x = y.
Proof. congruence. Qed.

Lemma depth_bound_enough (b : Board) : empties b < depth_bound.
Proof. pose proof (empties_le b). unfold depth_bound. lia. Qed.

Lemma count_solutions_total (b : Board) (k : Z) :
  wf b -> exists n, count_solutions_run b k = Some (b, b, masks_init b, n).
Proof.
  intros Hwf. unfold count_solutions_run.
  destruct (count_rec_total depth_bound b (masks_init b) k) as [n Hn].
  - apply Hwf.
  - apply (masks_init_consistent b Hwf).
  - apply depth_bound_enough.
  - rewrite Hn. eauto.
Qed.

Lemma count_solutions_returns (b : Board) (k : Z) :
  wf b ->
  exists n, count_solutions_run b k = Some (b, b, masks_init b, n) /\
            count_solutions b k = Some (b, n).
Proof.
  intros Hwf. destruct (count_solutions_total b k Hwf) as [n Hn].
  exists n. split; [exact Hn|]. unfold count_solutions. rewrite Hn. reflexivity.
Qed.

(** For a limit of at least 1 the result is the number of completions
    capped at the limit. *)
Lemma count_solutions_spec (b : Board) (k : Z) (l : list Board) :
  wf b -> is_legal b = true -> (1 <= k)%Z -> solutions b l ->
  count_solutions b k = Some (b, Z.min k (Z.of_nat (length l))).
Proof.
  intros Hwf Hleg Hk Hl. unfold count_solutions, count_solutions_run.
  destruct (count_rec_correct depth_bound b (masks_init b) k Hwf
              (proj1 (is_legal_spec b Hwf) Hleg) (masks_init_consistent b Hwf)
              (depth_bound_enough b) Hk) as [sols [Hsols Hrun]].
  rewrite Hrun. rewrite (solutions_length b l sols Hl Hsols). reflexivity.
Qed.

Lemma solutions_exist (b : Board) :
  wf b -> is_legal b = true -> exists l, solutions b l.
Proof.
  intros Hwf Hleg.
  destruct (count_rec_correct depth_bound b (masks_init b) 1 Hwf
              (proj1 (is_legal_spec b Hwf) Hleg) (masks_init_consistent b Hwf)
              (depth_bound_enough b) ltac:(lia)) as [sols [Hsols _]].
  eauto.
Qed.

(** A bounded count of 1 at limit 2 means exactly one completion. *)
Lemma count_one_unique (b : Board) :
  wf b -> is_legal b = true -> count_solutions b 2 = Some (b, 1%Z) ->
  exists s, completion b s /\ forall s', completion b s' -> s' = s.
Proof.
  intros Hwf Hleg Hrun.
  destruct (solutions_exist b Hwf Hleg) as [l Hl].
  rewrite (count_solutions_spec b 2 l Hwf Hleg ltac:(lia) Hl) in Hrun.
  assert (Hlen : length l = 1) by (inversion Hrun; lia).
  destruct l as [|s [|s2 l]]; simpl in Hlen; try lia.
  destruct Hl as [_ Hin]. exists s. split.
  - apply Hin. left. reflexivity.
  - intros s' Hs'. apply Hin in Hs' as [E|[]]. congruence.
Qed.

Lemma solve_board_spec (b : Board) :
  wf b -> is_legal b = true ->
  (exists s, solve_board b = Some (true, s) /\ completion b s) \/
  (solve_board b = Some (false, b) /\ forall s, ~ completion b s).
Proof.
  intros Hwf Hleg. unfold solve_board.
  destruct (solve_rec_correct depth_bound b (masks_init b) Hwf
              (proj1 (is_legal_spec b Hwf) Hleg) (masks_init_consistent b Hwf)
              (depth_bound_enough b)) as [[s [m' [Hrun Hcpl]]]|[Hrun Hnone]];
    rewrite Hrun; [left; eauto|right; auto].
Qed.

End EntryPoints.

(** ** Facts about the example boards *)

Section Examples.

Lemma ex_puzzle_wf : wf ex_puzzle.
Proof. apply wfb_spec. vm_compute. reflexivity. Qed.

Lemma ex_puzzle_legal : is_legal ex_puzzle = true.
Proof. vm_compute. reflexivity. Qed.

Lemma ex_puzzle_completion : completion ex_puzzle ex_solution.
Proof. apply completionb_spec. vm_compute. reflexivity. Qed.

Lemma ex_puzzle_count : count_solutions ex_puzzle 2 = Some (ex_puzzle, 1%Z).
Proof. vm_compute. reflexivity. Qed.

Lemma dead_board_wf : wf dead_board.
Proof. apply wfb_spec. vm_compute. reflexivity. Qed.

Lemma dead_board_legal : is_legal dead_board = true.
Proof. vm_compute. reflexivity. Qed.

Lemma dead_board_no_completion : forall s, ~ completion dead_board s.
Proof.
  apply (dead_cell_no_completion dead_board (masks_init dead_board) 4 0).
  - apply masks_init_consistent, dead_board_wf.
  - unfold N. lia.
  - unfold N. lia.
  - reflexivity.
  - vm_compute. reflexivity.
Qed.

Lemma base_board_wf : wf base_board.
Proof. apply wfb_spec. vm_compute. reflexivity. Qed.

Lemma base_board_legal : is_legal base_board = true.
Proof. vm_compute. reflexivity. Qed.

Lemma base_board_complete : complete base_board.
Proof. apply completeb_spec. vm_compute. reflexivity. Qed.

Lemma ex_rand_ok : rand_ok ex_rand.
Proof. intros n. simpl. lia. Qed.

Lemma empty_board_shape : shape empty_board.
Proof. apply shapeb_spec. vm_compute. reflexivity. Qed.

End Examples.

(** ** The scan order of [find_best_cell] *)

Section ScanOrder.

Variable b : Board.
Variable m : Masks.

(** Filled cells do not influence the scan. *)
Lemma scan_cells_filter (cells : list (nat * nat)) :
  forall st,
    scan_cells cells b m st
    = scan_cells (List.filter (fun '(r, c) => (cell b r c =? 0)%Z) cells) b m st.
Proof.
  induction cells as [|[r c] rest IH]; intros st; [reflexivity|].
  cbn [scan_cells List.filter].
  destruct (Z.eqb_spec (cell b r c) 0) as [Hz|Hz]; cbn [negb].
  - cbn [scan_cells]. rewrite Hz. cbn [Z.eqb negb].
    destruct (_ =? 0)%Z; [reflexivity|].
    destruct (_ <? _)%Z; [|apply IH].
    destruct (_ =? 1)%Z; [reflexivity|apply IH].
  - apply IH.
Qed.

Lemma scan_cells_empty_cons (r c : nat) (rest : list (nat * nat)) (st : Best) :
  cell b r c = 0%Z ->
  scan_cells ((r, c) :: rest) b m st =
  if (cand_count m (r, c) =? 0)%Z then None
  else if (cand_count m (r, c) <? bestCount st)%Z then
    if (cand_count m (r, c) =? 1)%Z
    then Some (mkBest (candidates_mask m r c) (Z.of_nat r) (Z.of_nat c)
                      (cand_count m (r, c)))
    else scan_cells rest b m
           (mkBest (candidates_mask m r c) (Z.of_nat r) (Z.of_nat c)
                   (cand_count m (r, c)))
  else scan_cells rest b m st.
Proof. intros Hz. cbn [scan_cells]. rewrite Hz. reflexivity. Qed.

Lemma scan_dead (pre post : list (nat * nat)) (r c : nat) :
  forall st,
    (forall p, In p pre -> cell b (fst p) (snd p) = 0%Z) -> cell b r c = 0%Z ->
    cand_count m (r, c) = 0%Z ->
    (forall p, In p pre -> cand_count m p <> 1%Z) ->
    scan_cells (pre ++ (r, c) :: post) b m st = None.
Proof.
  induction pre as [|[r0 c0] pre IH]; intros st Hempty Hz Hdead Hpre.
  - simpl app. rewrite scan_cells_empty_cons by assumption.
    rewrite Hdead. reflexivity.
  - simpl app.
    rewrite scan_cells_empty_cons by (apply (Hempty (r0, c0)); left; reflexivity).
    assert (IH' : forall st0, scan_cells (pre ++ (r, c) :: post) b m st0 = None).
    { intros st0. apply IH; try assumption.
      - intros p Hp. apply Hempty. right. exact Hp.
      - intros p Hp. apply Hpre. right. exact Hp. }
    destruct (_ =? 0)%Z; [reflexivity|].
    destruct (_ <? _)%Z; [|apply IH'].
    destruct (Z.eqb_spec (cand_count m (r0, c0)) 1) as [E|_]; [|apply IH'].
    exfalso. apply (Hpre (r0, c0)); [left; reflexivity|exact E].
Qed.

(** Cells with more candidates than [K] are passed without leaving the loops. *)
Lemma scan_through (K : Z) (pre rest : list (nat * nat)) :
  forall st,
    (1 <= K)%Z -> (K < bestCount st)%Z ->
    (forall p, In p pre -> cell b (fst p) (snd p) = 0%Z /\ (K < cand_count m p)%Z) ->
    exists st', scan_cells (pre ++ rest) b m st = scan_cells rest b m st' /\
                (K < bestCount st')%Z.
Proof.
  induction pre as [|[r0 c0] pre IH]; intros st HK Hst Hpre.
  - exists st. split; [reflexivity|assumption].
  - destruct (Hpre (r0, c0) (or_introl eq_refl)) as [Hz Hc0]. simpl in Hz.
    assert (Hpre' : forall p, In p pre ->
              cell b (fst p) (snd p) = 0%Z /\ (K < cand_count m p)%Z)
      by (intros p Hp; apply Hpre; right; exact Hp).
    simpl app. rewrite scan_cells_empty_cons by assumption.
    destruct (Z.eqb_spec (cand_count m (r0, c0)) 0); [lia|].
    destruct (Z.ltb_spec (cand_count m (r0, c0)) (bestCount st)).
    + destruct (Z.eqb_spec (cand_count m (r0, c0)) 1); [lia|].
      apply IH; try assumption.
    + apply IH; try assumption.
Qed.

(** Cells that do not beat the recorded count leave the state unchanged. *)
Lemma scan_keep (post : list (nat * nat)) (st : Best) :
  (1 <= bestCount st)%Z ->
  (forall p, In p post ->
     cell b (fst p) (snd p) = 0%Z /\ (bestCount st <= cand_count m p)%Z) ->
  scan_cells post b m st = Some st.
Proof.
  induction post as [|[r0 c0] post IH]; intros Hst Hpost; [reflexivity|].
  destruct (Hpost (r0, c0) (or_introl eq_refl)) as [Hz Hc0]. simpl in Hz.
  rewrite scan_cells_empty_cons by assumption.
  destruct (Z.eqb_spec (cand_count m (r0, c0)) 0); [lia|].
  destruct (Z.ltb_spec (cand_count m (r0, c0)) (bestCount st)); [lia|].
  apply IH; [assumption|]. intros p Hp. apply Hpost. right. exact Hp.
Qed.

Lemma empty_cells_empty (p : nat * nat) :
  In p (empty_cells b) -> cell b (fst p) (snd p) = 0%Z.
Proof.
  unfold empty_cells. intros H. apply List.filter_In in H as [_ H].
  destruct p as [r c]. apply Z.eqb_eq. exact H.
Qed.

Lemma find_best_cell_scan_empty :
  find_best_cell b m =
  match scan_cells (empty_cells b) b m (mkBest 0 (-1) (-1) 10) with
  | None => None
  | Some st =>
      if (bestR st =? -1)%Z then None
      else Some (mkChoice (Z.to_nat (bestR st)) (Z.to_nat (bestC st)) (bestMask st))
  end.
Proof. unfold find_best_cell, empty_cells. rewrite scan_cells_filter. reflexivity. Qed.

Lemma choice_of_best (r c : nat) (cand cnt : Z) :
  (if (bestR (mkBest cand (Z.of_nat r) (Z.of_nat c) cnt) =? -1)%Z then None
   else Some (mkChoice (Z.to_nat (bestR (mkBest cand (Z.of_nat r) (Z.of_nat c) cnt)))
                       (Z.to_nat (bestC (mkBest cand (Z.of_nat r) (Z.of_nat c) cnt)))
                       (bestMask (mkBest cand (Z.of_nat r) (Z.of_nat c) cnt))))
  = Some (mkChoice r c cand).
Proof.
  cbn [bestR bestC bestMask].
  destruct (Z.eqb_spec (Z.of_nat r) (-1)); [lia|].
  rewrite !Nat2Z.id. reflexivity.
Qed.

End ScanOrder.

(** ** Shuffling *)

Section Shuffle.

Lemma shuffle_from_perm (i : nat) :
  forall a g, rand_ok g -> i < length a ->
    fst (shuffle_from i a g) ≡ₚ a /\ rand_ok (snd (shuffle_from i a g)).
Proof.
  induction i as [|i IH]; intros a g Hg Hi; cbn [shuffle_from].
  - split; [reflexivity|exact Hg].
  - unfold rand. cbn [fst snd].
    set (j := Z.to_nat (Z.rem (draws g (pos g)) (Z.of_nat (S i) + 1))).
    assert (Hj : j < length a).
    { pose proof (Hg (pos g)) as Hx. unfold j.
      pose proof (Z.rem_bound_pos (draws g (pos g)) (Z.of_nat (S i) + 1) Hx ltac:(lia)).
      lia. }
    set (a2 := <[j := a !!! S i]> (<[S i := a !!! j]> a)).
    assert (Hperm : a2 ≡ₚ a).
    { apply Permutation_insert_swap; apply list_lookup_lookup_total_lt; assumption. }
    destruct (IH a2 (mkRand (draws g) (S (pos g))) Hg) as [H1 H2].
    { unfold a2. rewrite !length_insert. lia. }
    split; [etransitivity; eassumption|exact H2].
Qed.

Lemma shuffle_array_perm (a : list Z) (g : Rand) :
  rand_ok g -> a <> [] ->
  fst (shuffle_array a (length a) g) ≡ₚ a /\
  rand_ok (snd (shuffle_array a (length a) g)).
Proof.
  intros Hg Hne. unfold shuffle_array. apply shuffle_from_perm; [assumption|].
  destruct a; [contradiction|simpl; lia].
Qed.

End Shuffle.

(** ** Carving *)

Section Carving.

Lemma cell_index_range (i : Z) :
  (0 <= i < 81)%Z -> Z.to_nat (Z.quot i 9) < N /\ Z.to_nat (Z.rem i 9) < N.
Proof. intros Hi. split; divlia. Qed.

Lemma tentative_wf (p : Board) (r c : nat) :
  wf p -> r < N -> c < N -> wf (fst (tentative p r c)).
Proof.
  intros Hwf Hr Hc. unfold tentative.
  assert (Hw1 : wf (store p r c 0)) by (apply wf_store; (assumption || lia)).
  destruct (_ && _); cbn [fst]; [|exact Hw1].
  apply wf_store; try assumption; unfold N in *; lia.
Qed.

(** The two stores of the commit branch produce the tentative grid. *)
Lemma commit_tentative (p : Board) (r c : nat) :
  shape p -> r < N -> c < N -> commit p r c = fst (tentative p r c).
Proof.
  intros Hs Hr Hc. unfold commit, tentative.
  destruct (negb ((8 - r =? r) && (8 - c =? c))); cbn [andb]; [|reflexivity].
  destruct (Z.eqb_spec (cell (store p r c 0) (8 - r) (8 - c)) 0) as [E|E];
    cbn [negb fst]; [|reflexivity].
  transitivity (store (store p r c 0) (8 - r) (8 - c)
                  (cell (store p r c 0) (8 - r) (8 - c))); [rewrite E; reflexivity|].
  apply store_same.
  - apply shape_store. exact Hs.
  - unfold N in *. lia.
  - unfold N in *. lia.
Qed.

Lemma complete_count_one (b : Board) (k : Z) :
  complete b -> count_solutions b k = Some (b, 1%Z).
Proof.
  intros Hc. unfold count_solutions, count_solutions_run, depth_bound.
  cbn [count_rec]. rewrite (complete_any_empty b Hc). reflexivity.
Qed.

(** One pass of the loop body: it returns, keeps the puzzle well-formed,
    and keeps any property [P] that holds of every grid with bounded
    count 1. *)
Lemma carve_step_inv (P : Board -> Prop) (i : Z) (st : Carve) :
  (forall t, count_solutions t 2 = Some (t, 1%Z) -> P t) ->
  (0 <= i < 81)%Z -> wf (cv_puzzle st) -> P (cv_puzzle st) ->
  exists st' brk, carve_step i st = Some (st', brk) /\
    wf (cv_puzzle st') /\ P (cv_puzzle st').
Proof.
  intros HP Hi Hwf Hone. destruct (cell_index_range i Hi) as [Hr Hc].
  unfold carve_step.
  set (r := Z.to_nat (Z.quot i 9)) in *. set (c := Z.to_nat (Z.rem i 9)) in *.
  destruct (cell (cv_puzzle st) r c =? 0)%Z.
  { exists st, false. auto. }
  pose proof (tentative_wf _ r c Hwf Hr Hc) as Hwt.
  pose proof (commit_tentative _ r c (proj1 Hwf) Hr Hc) as Hcommit.
  destruct (tentative (cv_puzzle st) r c) as [test removed] eqn:Et. cbn [fst] in *.
  destruct (count_solutions_returns test 2%Z Hwt) as [n [_ Hn]].
  rewrite Hn.
  destruct (Z.eqb_spec n 1) as [->|Hne]; cbn [cv_puzzle cv_clues cv_attempts].
  - eexists _, _. split; [reflexivity|]. cbn [cv_puzzle].
    rewrite Hcommit. split; [exact Hwt|]. apply HP. exact Hn.
  - eexists _, _. split; [reflexivity|]. cbn [cv_puzzle]. auto.
Qed.

Lemma carve_loop_inv (P : Board -> Prop) (k : nat) :
  (forall t, count_solutions t 2 = Some (t, 1%Z) -> P t) ->
  forall idx cells target st,
    (forall j, idx <= j < idx + k -> (0 <= cells !!! j < 81)%Z) ->
    wf (cv_puzzle st) -> P (cv_puzzle st) ->
    exists st', carve_loop k idx cells target st = Some st' /\
      wf (cv_puzzle st') /\ P (cv_puzzle st').
Proof.
  intros HP.
  induction k as [|k IH]; intros idx cells target st Hcells Hwf Hone; cbn [carve_loop].
  - eauto.
  - destruct (negb (cv_clues st >? target)%Z); [eauto|].
    destruct (carve_step_inv P (cells !!! idx) st HP (Hcells idx ltac:(lia)) Hwf Hone)
      as [st' [brk [Hstep [Hwf' Hone']]]].
    rewrite Hstep. destruct brk; [eauto|].
    apply IH; try assumption. intros j Hj. apply Hcells. lia.
Qed.

Lemma cells_in_range (g : Rand) :
  rand_ok g ->
  forall j, j < N * N ->
    (0 <= fst (shuffle_array (List.map Z.of_nat (seq 0 (N * N))) (N * N) g) !!! j < 81)%Z.
Proof.
  intros Hg j Hj.
  set (a := List.map Z.of_nat (seq 0 (N * N))).
  assert (La : length a = N * N) by (unfold a; rewrite length_map, length_seq; reflexivity).
  destruct (shuffle_array_perm a g Hg) as [Hperm _].
  { intros E. rewrite E in La. discriminate. }
  rewrite La in Hperm.
  assert (Hin : In (fst (shuffle_array a (N * N) g) !!! j) a).
  { eapply Permutation_in; [exact Hperm|].
    apply list_elem_of_In, list_elem_of_lookup. exists j.
    apply list_lookup_lookup_total_lt.
    rewrite (Permutation_length Hperm), La. exact Hj. }
  unfold a in Hin. apply in_map_iff in Hin as [x [Ex Hx]].
  fold a in Ex. rewrite <- Ex.
  apply in_seq in Hx. unfold N in Hx. lia.
Qed.

Lemma make_puzzle_inv (P : Board -> Prop) (solution : Board) (d : Difficulty) (g : Rand) :
  (forall t, count_solutions t 2 = Some (t, 1%Z) -> P t) ->
  wf solution -> P solution -> rand_ok g ->
  exists puzzle g', make_puzzle solution d g = Some (puzzle, g') /\
    wf puzzle /\ P puzzle.
Proof.
  intros HP Hwf Hinit Hg. unfold make_puzzle.
  pose proof (cells_in_range g Hg) as Hcells.
  destruct (shuffle_array _ (N * N) g) as [cells g1]. cbn [fst] in Hcells.
  destruct (carve_loop_inv P (N * N) HP 0 cells (target_clues d)
              (mkCarve solution (Z.of_nat (N * N)) 0))
    as [st' [Hrun [Hwf' Hone']]].
  - intros j Hj. apply Hcells. lia.
  - exact Hwf.
  - exact Hinit.
  - rewrite Hrun. eauto.
Qed.

Lemma make_puzzle_total (solution : Board) (d : Difficulty) (g : Rand) :
  wf solution -> complete solution -> rand_ok g ->
  exists puzzle g', make_puzzle solution d g = Some (puzzle, g') /\
    wf puzzle /\ count_solutions puzzle 2 = Some (puzzle, 1%Z).
Proof.
  intros Hwf Hcomp Hg.
  apply (make_puzzle_inv (fun p => count_solutions p 2 = Some (p, 1%Z)));
    auto using complete_count_one.
Qed.

End Carving.

(** ** Loops that store into the grid *)

Section StoreLoops.

(** A loop whose pass [x] stores into its own cell [(R x, C x)] a value
    computed from the current content of that cell, with all target cells
    distinct: every target receives [h x] of its initial content and every
    other cell is untouched. *)
Lemma fold_store_spec {X} (R C : X -> nat) (h : X -> Z -> Z)
    (f : Board -> X -> Board) (xs : list X) :
  (forall b x, f b x = store b (R x) (C x) (h x (cell b (R x) (C x)))) ->
  (forall x, In x xs -> R x < N /\ C x < N) ->
  List.NoDup (List.map (fun x => (R x, C x)) xs) ->
  forall b, shape b ->
    shape (fold_left f xs b) /\
    (forall x, In x xs ->
       cell (fold_left f xs b) (R x) (C x) = h x (cell b (R x) (C x))) /\
    (forall r c, ~ In (r, c) (List.map (fun x => (R x, C x)) xs) ->
       cell (fold_left f xs b) r c = cell b r c).
Proof.
  intros Hf. induction xs as [|a xs IH]; intros Hin Hnd b Hs.
  - simpl. split; [assumption|]. split; [intros x []|reflexivity].
  - cbn [fold_left]. rewrite Hf.
    inversion Hnd as [|? ? Hnotin Hnd']; subst.
    destruct (Hin a (or_introl eq_refl)) as [Hr Hc].
    assert (Hin' : forall x, In x xs -> R x < N /\ C x < N)
      by (intros x Hx; apply Hin; right; exact Hx).
    set (b1 := store b (R a) (C a) (h a (cell b (R a) (C a)))).
    assert (Hs1 : shape b1) by (apply shape_store; assumption).
    destruct (IH Hin' Hnd' b1 Hs1) as [H1 [H2 H3]].
    split; [exact H1|]. split.
    + intros x [->|Hx].
      * rewrite H3 by exact Hnotin. unfold b1. apply cell_store_eq; assumption.
      * rewrite (H2 x Hx). f_equal. unfold b1. apply cell_store_ne.
        intros E. apply Hnotin. rewrite E.
        apply in_map_iff. exists x. auto.
    + intros r c Hnot. rewrite H3.
      * unfold b1. apply cell_store_ne. intros E. apply Hnot. left. exact E.
      * intros Hrc. apply Hnot. right. exact Hrc.
Qed.

Lemma map_pair_id (xs : list (nat * nat)) :
  List.map (fun x => (fst x, snd x)) xs = xs.
Proof.
  rewrite <- (List.map_id xs) at 2. apply List.map_ext. intros [? ?]. reflexivity.
Qed.

(** A loop over all 81 cells. *)
Lemma fold_all_cells (h : nat -> nat -> Z -> Z) (f : Board -> nat * nat -> Board) :
  (forall b r c, f b (r, c) = store b r c (h r c (cell b r c))) ->
  forall b, shape b ->
    shape (fold_left f all_cells b) /\
    forall r c, r < N -> c < N ->
      cell (fold_left f all_cells b) r c = h r c (cell b r c).
Proof.
  intros Hf b Hs.
  destruct (fold_store_spec fst snd (fun x => h (fst x) (snd x)) f all_cells) with (b := b)
    as [H1 [H2 _]].
  - intros b0 [r c]. apply Hf.
  - intros [r c] Hin. apply in_all_cells in Hin. exact Hin.
  - rewrite map_pair_id. apply all_cells_NoDup.
  - exact Hs.
  - split; [exact H1|]. intros r c Hr Hc.
    apply (H2 (r, c)). apply in_all_cells. auto.
Qed.

Lemma map_seq_lookup {A} `{Inhabited A} (f : nat -> A) (n : nat) :
  forall s i, i < n -> List.map f (seq s n) !!! i = f (s + i).
Proof.
  induction n as [|n IH]; intros s i Hi; [lia|].
  destruct i as [|i]; cbn [seq List.map].
  - rewrite Nat.add_0_r. reflexivity.
  - change ((f s :: List.map f (seq (S s) n)) !!! S i)
      with (List.map f (seq (S s) n) !!! i).
    rewrite IH by lia. f_equal. lia.
Qed.

Lemma tabulate_lookup {A} `{Inhabited A} (f : nat -> A) (n i : nat) :
  i < n -> List.map f (seq 0 n) !!! i = f i.
Proof. intros Hi. rewrite map_seq_lookup by exact Hi. reflexivity. Qed.

(** Reading a permutation of a duplicate-free list by index. *)
Lemma perm_lookup (l base : list Z) :
  l ≡ₚ base -> List.NoDup base ->
  forall i, i < length base ->
    In (l !!! i) base /\
    forall j, j < length base -> l !!! i = l !!! j -> i = j.
Proof.
  intros Hperm Hnd i Hi.
  pose proof (Permutation_length Hperm) as Hlen.
  assert (Hl : forall k, k < length base -> l !! k = Some (l !!! k))
    by (intros k Hk; apply list_lookup_lookup_total_lt; lia).
  split.
  - apply (Permutation_in _ Hperm). apply list_elem_of_In, list_elem_of_lookup.
    exists i. auto.
  - intros j Hj E. apply (NoDup_lookup l i j (l !!! i)).
    + apply NoDup_ListNoDup. apply (Permutation_NoDup (Permutation_sym Hperm) Hnd).
    + auto.
    + rewrite E. auto.
Qed.

End StoreLoops.

(** ** The complete-grid generator *)

Section Generator.

Lemma base_complete_eq (sol : Board) : shape sol -> base_complete sol = base_board.
Proof.
  intros Hs. unfold base_board, base_complete.
  set (f := fun (b : Board) '(r, c) =>
              store b r c (Z.of_nat ((r * 3 + r / 3 + c) mod 9) + 1)%Z).
  assert (Hf : forall b r c,
             f b (r, c)
             = store b r c ((fun r c (_ : Z) =>
                               (Z.of_nat ((r * 3 + r / 3 + c) mod 9) + 1)%Z) r c (cell b r c)))
    by reflexivity.
  assert (Hse : shape empty_board) by (apply shapeb_spec; vm_compute; reflexivity).
  destruct (fold_all_cells _ f Hf sol Hs) as [S1 C1].
  destruct (fold_all_cells _ f Hf empty_board Hse) as [S2 C2].
  apply board_ext; try assumption.
  intros r c Hr Hc. rewrite C1, C2 by assumption. reflexivity.
Qed.

Lemma base_board_valid : valid base_board.
Proof.
  split; [exact base_board_wf|]. split.
  - apply completeb_spec. vm_compute. reflexivity.
  - apply is_legal_spec; [exact base_board_wf|exact base_board_legal].
Qed.

Lemma valid_digit (b : Board) (r c : nat) :
  valid b -> r < N -> c < N -> (1 <= cell b r c <= 9)%Z.
Proof.
  intros [[_ Hrange] [Hcomp _]] Hr Hc.
  specialize (Hrange r c Hr Hc). specialize (Hcomp r c Hr Hc). lia.
Qed.

(** A grid read through an injective relabelling of the digits 1..9 is valid. *)
Lemma valid_relabel (b b' : Board) (pi : Z -> Z) :
  valid b -> shape b' ->
  (forall r c, r < N -> c < N -> cell b' r c = pi (cell b r c)) ->
  (forall v, (1 <= v <= 9)%Z -> (1 <= pi v <= 9)%Z) ->
  (forall v w, (1 <= v <= 9)%Z -> (1 <= w <= 9)%Z -> pi v = pi w -> v = w) ->
  valid b'.
Proof.
  intros Hv Hs Hcell Hrange Hinj.
  assert (Hd : forall r c, r < N -> c < N -> (1 <= cell b r c <= 9)%Z)
    by (intros; apply valid_digit; assumption).
  destruct Hv as [_ [_ Hleg]].
  split; [|split].
  - split; [exact Hs|]. intros r c Hr Hc. rewrite Hcell by assumption.
    specialize (Hrange _ (Hd r c Hr Hc)). lia.
  - intros r c Hr Hc. rewrite Hcell by assumption.
    specialize (Hrange _ (Hd r c Hr Hc)). lia.
  - intros r c r' c' Hr Hc Hr' Hc' Hp _. rewrite !Hcell by assumption.
    intros E. apply Hinj in E; auto.
    apply (Hleg r c r' c'); try assumption.
    specialize (Hd r c Hr Hc). lia.
Qed.

Lemma digits19_NoDup : List.NoDup [1; 2; 3; 4; 5; 6; 7; 8; 9]%Z.
Proof. apply NoDup_ListNoDup. apply (bool_decide_unpack _). vm_compute. exact I. Qed.

Lemma permute_digits_valid (b : Board) (g : Rand) :
  valid b -> rand_ok g ->
  valid (fst (permute_digits b g)) /\ rand_ok (snd (permute_digits b g)).
Proof.
  intros Hv Hg. unfold permute_digits.
  destruct (shuffle_array_perm [1; 2; 3; 4; 5; 6; 7; 8; 9]%Z g Hg ltac:(discriminate))
    as [Hperm Hg1].
  change (length [1; 2; 3; 4; 5; 6; 7; 8; 9]%Z) with 9 in Hperm, Hg1.
  destruct (shuffle_array [1; 2; 3; 4; 5; 6; 7; 8; 9]%Z 9 g) as [tl g1].
  cbn [fst snd] in *. split; [|exact Hg1].
  set (dmap := 0%Z :: tl).
  set (f := fun (b : Board) '(r, c) =>
              let v := cell b r c in store b r c (dmap !!! Z.to_nat v)).
  destruct (fold_all_cells (fun _ _ v => dmap !!! Z.to_nat v) f ltac:(reflexivity) b
              (proj1 (proj1 Hv))) as [Hs Hcell].
  assert (Hlook : forall v, (1 <= v <= 9)%Z -> dmap !!! Z.to_nat v = tl !!! (Z.to_nat v - 1)).
  { intros v Hv9. unfold dmap. destruct (Z.to_nat v) as [|k] eqn:E; [lia|].
    replace (S k - 1) with k by lia. reflexivity. }
  apply (valid_relabel b _ (fun v => dmap !!! Z.to_nat v)); try assumption.
  - intros v Hv9. rewrite Hlook by assumption.
    destruct (perm_lookup tl _ Hperm digits19_NoDup (Z.to_nat v - 1)) as [Hin _].
    { simpl. lia. }
    simpl in Hin. lia.
  - intros v w Hv9 Hw9. rewrite !Hlook by assumption. intros E.
    destruct (perm_lookup tl _ Hperm digits19_NoDup (Z.to_nat v - 1)) as [_ Hinj].
    { simpl. lia. }
    specialize (Hinj (Z.to_nat w - 1)). simpl in Hinj.
    specialize (Hinj ltac:(lia) E). lia.
Qed.

(** A grid read through a permutation of the rows that keeps rows of one
    band in one band is valid. *)
Lemma valid_rows (b b' : Board) (rho : nat -> nat) :
  valid b -> shape b' ->
  (forall r c, r < N -> c < N -> cell b' r c = cell b (rho r) c) ->
  (forall r, r < N -> rho r < N) ->
  (forall r r', r < N -> r' < N -> rho r = rho r' -> r = r') ->
  (forall r r', r < N -> r' < N -> r / 3 = r' / 3 -> rho r / 3 = rho r' / 3) ->
  valid b'.
Proof.
  intros Hv Hs Hcell Hrho Hinj Hband.
  assert (Hd : forall r c, r < N -> c < N -> (1 <= cell b r c <= 9)%Z)
    by (intros; apply valid_digit; assumption).
  destruct Hv as [_ [_ Hleg]].
  split; [|split].
  - split; [exact Hs|]. intros r c Hr Hc. rewrite Hcell by assumption.
    specialize (Hd (rho r) c (Hrho r Hr) Hc). lia.
  - intros r c Hr Hc. rewrite Hcell by assumption.
    specialize (Hd (rho r) c (Hrho r Hr) Hc). lia.
  - intros r c r' c' Hr Hc Hr' Hc' [Hne Hp]. rewrite !Hcell by assumption.
    apply Hleg; auto. split.
    + intros P. apply Hne.
      pose proof (f_equal fst P) as P1. pose proof (f_equal snd P) as P2.
      cbn [fst snd] in P1, P2. rewrite (Hinj r r' Hr Hr' P1), P2. reflexivity.
    + destruct Hp as [E|[E|E]]; [left; congruence|right; left; exact E|].
      right. right. unfold box_index in *.
      assert (E1 : r / 3 = r' / 3) by (clear - E Hr Hc Hr' Hc'; divlia).
      assert (E2 : c / 3 = c' / 3) by (clear - E Hr Hc Hr' Hc'; divlia).
      pose proof (Hband r r' Hr Hr' E1) as E3.
      unfold BOX. rewrite E3, E2. reflexivity.
Qed.

(** The same for a permutation of the columns that respects the stacks. *)
Lemma valid_cols (b b' : Board) (kappa : nat -> nat) :
  valid b -> shape b' ->
  (forall r c, r < N -> c < N -> cell b' r c = cell b r (kappa c)) ->
  (forall c, c < N -> kappa c < N) ->
  (forall c c', c < N -> c' < N -> kappa c = kappa c' -> c = c') ->
  (forall c c', c < N -> c' < N -> c / 3 = c' / 3 -> kappa c / 3 = kappa c' / 3) ->
  valid b'.
Proof.
  intros Hv Hs Hcell Hk Hinj Hstack.
  assert (Hd : forall r c, r < N -> c < N -> (1 <= cell b r c <= 9)%Z)
    by (intros; apply valid_digit; assumption).
  destruct Hv as [_ [_ Hleg]].
  split; [|split].
  - split; [exact Hs|]. intros r c Hr Hc. rewrite Hcell by assumption.
    specialize (Hd r (kappa c) Hr (Hk c Hc)). lia.
  - intros r c Hr Hc. rewrite Hcell by assumption.
    specialize (Hd r (kappa c) Hr (Hk c Hc)). lia.
  - intros r c r' c' Hr Hc Hr' Hc' [Hne Hp]. rewrite !Hcell by assumption.
    apply Hleg; auto. split.
    + intros P. apply Hne.
      pose proof (f_equal fst P) as P1. pose proof (f_equal snd P) as P2.
      cbn [fst snd] in P1, P2. rewrite (Hinj c c' Hc Hc' P2), P1. reflexivity.
    + destruct Hp as [E|[E|E]]; [left; exact E|right; left; congruence|].
      right. right. unfold box_index in *.
      assert (E1 : r / 3 = r' / 3) by (clear - E Hr Hc Hr' Hc'; divlia).
      assert (E2 : c / 3 = c' / 3) by (clear - E Hr Hc Hr' Hc'; divlia).
      pose proof (Hstack c c' Hc Hc' E2) as E3.
      unfold BOX. rewrite E3, E1. reflexivity.
Qed.

(** Shuffling three consecutive indices [k, k+1, k+2]. *)
Lemma shuffle3 (k : nat) (g : Rand) (l : list Z) (g1 : Rand) :
  rand_ok g ->
  shuffle_array [Z.of_nat k; Z.of_nat (k + 1); Z.of_nat (k + 2)] 3 g = (l, g1) ->
  rand_ok g1 /\
  (forall i, i < 3 -> k <= Z.to_nat (l !!! i) < k + 3) /\
  (forall i j, i < 3 -> j < 3 -> Z.to_nat (l !!! i) = Z.to_nat (l !!! j) -> i = j).
Proof.
  intros Hg Hsh.
  set (base := [Z.of_nat k; Z.of_nat (k + 1); Z.of_nat (k + 2)]) in *.
  destruct (shuffle_array_perm base g Hg ltac:(discriminate)) as [Hperm Hg1].
  change (length base) with 3 in Hperm, Hg1. rewrite Hsh in Hperm, Hg1.
  cbn [fst snd] in Hperm, Hg1.
  assert (Hnd : List.NoDup base).
  { unfold base. repeat constructor; simpl; lia. }
  assert (Hin : forall i, i < 3 -> In (l !!! i) base).
  { intros i Hi. apply (perm_lookup l base Hperm Hnd i). exact Hi. }
  split; [exact Hg1|]. split.
  - intros i Hi. specialize (Hin i Hi). unfold base in Hin. simpl in Hin. lia.
  - intros i j Hi Hj E.
    apply (perm_lookup l base Hperm Hnd i Hi); [exact Hj|].
    pose proof (Hin i Hi) as H1. pose proof (Hin j Hj) as H2.
    unfold base in H1, H2. simpl in H1, H2. lia.
Qed.

Lemma in_triples (n m k i j l : nat) :
  In (i, j, l) (triples n m k) <-> i < n /\ j < m /\ l < k.
Proof.
  unfold triples. rewrite in_flat_map. split.
  - intros [[i0 j0] [Hp Hin]]. apply in_pairs in Hp.
    apply in_map_iff in Hin as [l0 [E Hl]]. inversion E; subst.
    apply in_seq in Hl. lia.
  - intros [Hi [Hj Hl]]. exists (i, j). split; [apply in_pairs; auto|].
    apply in_map_iff. exists l. split; [reflexivity|apply in_seq; lia].
Qed.

Lemma pairs3N_NoDup : List.NoDup (pairs 3 N).
Proof. apply NoDup_ListNoDup. apply (bool_decide_unpack _). vm_compute. exact I. Qed.

Lemma shuffle_rows_band_valid (band : nat) (b : Board) (g : Rand) :
  band < 3 -> valid b -> rand_ok g ->
  valid (fst (shuffle_rows_band band b g)) /\ rand_ok (snd (shuffle_rows_band band b g)).
Proof.
  intros Hband Hv Hg. unfold shuffle_rows_band.
  destruct (shuffle_array _ 3 g) as [rows g1] eqn:Hsh.
  destruct (shuffle3 (band * 3) g rows g1 Hg Hsh) as [Hg1 [Hrange Hinj]].
  cbn [fst snd]. split; [|exact Hg1].
  set (tmp := List.map (fun i => List.map (fun c => cell b (Z.to_nat (rows !!! i)) c)
                                          (seq 0 N)) (seq 0 3)).
  set (f := fun (b0 : Board) '(i, c) => store b0 (band * 3 + i) c ((tmp !!! i) !!! c)).
  destruct (fold_store_spec (fun x => band * 3 + fst x) snd
              (fun x _ => (tmp !!! fst x) !!! snd x) f (pairs 3 N)) with (b := b)
    as [Hs [Hset Hkeep]].
  { intros b0 [i c]. reflexivity. }
  { intros [i c] Hin. apply in_pairs in Hin. cbn [fst snd]. unfold N in *. lia. }
  { apply List.NoDup_map_NoDup_ForallPairs; [|apply pairs3N_NoDup].
    intros [i c] [i' c'] _ _ E.
    pose proof (f_equal fst E) as E1. pose proof (f_equal snd E) as E2.
    cbn [fst snd] in E1, E2. f_equal; lia. }
  { apply Hv. }
  set (rho := fun r => if r / 3 =? band then Z.to_nat (rows !!! (r mod 3)) else r).
  apply (valid_rows b _ rho); try assumption.
  - intros r c Hr Hc. unfold rho.
    destruct (Nat.eqb_spec (r / 3) band) as [E|E].
    + specialize (Hset (r mod 3, c)). cbn [fst snd] in Hset.
      replace (band * 3 + r mod 3) with r in Hset by (clear - E; divlia).
      rewrite Hset by (apply in_pairs; clear - Hc; divlia).
      unfold tmp. rewrite tabulate_lookup by (clear; divlia).
      rewrite tabulate_lookup by exact Hc. reflexivity.
    + apply Hkeep. intros Hin. apply in_map_iff in Hin as [[i c0] [P Hp]].
      apply in_pairs in Hp. cbn [fst snd] in P.
      pose proof (f_equal fst P) as P1. cbn [fst] in P1.
      clear - E P1 Hp. divlia.
  - intros r Hr. unfold rho. destruct (r / 3 =? band); [|exact Hr].
    specialize (Hrange (r mod 3) ltac:(clear; divlia)). unfold N. lia.
  - intros r r' Hr Hr'. unfold rho.
    destruct (Nat.eqb_spec (r / 3) band) as [E|E];
      destruct (Nat.eqb_spec (r' / 3) band) as [E'|E']; intros P.
    + apply Hinj in P; try (clear; divlia). clear - P E E'. divlia.
    + specialize (Hrange (r mod 3) ltac:(clear; divlia)). clear - Hrange P E'. divlia.
    + specialize (Hrange (r' mod 3) ltac:(clear; divlia)). clear - Hrange P E. divlia.
    + exact P.
  - intros r r' Hr Hr' E. unfold rho.
    destruct (Nat.eqb_spec (r / 3) band) as [E1|E1];
      destruct (Nat.eqb_spec (r' / 3) band) as [E2|E2]; try congruence.
    pose proof (Hrange (r mod 3) ltac:(clear; divlia)) as H1.
    pose proof (Hrange (r' mod 3) ltac:(clear; divlia)) as H2.
    clear - H1 H2. divlia.
Qed.

Lemma shuffle_cols_stack_valid (stack : nat) (b : Board) (g : Rand) :
  stack < 3 -> valid b -> rand_ok g ->
  valid (fst (shuffle_cols_stack stack b g)) /\ rand_ok (snd (shuffle_cols_stack stack b g)).
Proof.
  intros Hstack Hv Hg. unfold shuffle_cols_stack.
  destruct (shuffle_array _ 3 g) as [cols g1] eqn:Hsh.
  destruct (shuffle3 (stack * 3) g cols g1 Hg Hsh) as [Hg1 [Hrange Hinj]].
  cbn [fst snd]. split; [|exact Hg1].
  set (tmp := List.map (fun i => List.map (fun r => cell b r (Z.to_nat (cols !!! i)))
                                          (seq 0 N)) (seq 0 3)).
  set (f := fun (b0 : Board) '(i, r) => store b0 r (stack * 3 + i) ((tmp !!! i) !!! r)).
  destruct (fold_store_spec snd (fun x => stack * 3 + fst x)
              (fun x _ => (tmp !!! fst x) !!! snd x) f (pairs 3 N)) with (b := b)
    as [Hs [Hset Hkeep]].
  { intros b0 [i r]. reflexivity. }
  { intros [i r] Hin. apply in_pairs in Hin. cbn [fst snd]. unfold N in *. lia. }
  { apply List.NoDup_map_NoDup_ForallPairs; [|apply pairs3N_NoDup].
    intros [i r] [i' r'] _ _ E.
    pose proof (f_equal fst E) as E1. pose proof (f_equal snd E) as E2.
    cbn [fst snd] in E1, E2. f_equal; lia. }
  { apply Hv. }
  set (kappa := fun c => if c / 3 =? stack then Z.to_nat (cols !!! (c mod 3)) else c).
  apply (valid_cols b _ kappa); try assumption.
  - intros r c Hr Hc. unfold kappa.
    destruct (Nat.eqb_spec (c / 3) stack) as [E|E].
    + specialize (Hset (c mod 3, r)). cbn [fst snd] in Hset.
      replace (stack * 3 + c mod 3) with c in Hset by (clear - E; divlia).
      rewrite Hset by (apply in_pairs; clear - Hr; divlia).
      unfold tmp. rewrite tabulate_lookup by (clear; divlia).
      rewrite tabulate_lookup by exact Hr. reflexivity.
    + apply Hkeep. intros Hin. apply in_map_iff in Hin as [[i r0] [P Hp]].
      apply in_pairs in Hp. cbn [fst snd] in P.
      pose proof (f_equal snd P) as P1. cbn [snd] in P1.
      clear - E P1 Hp. divlia.
  - intros c Hc. unfold kappa. destruct (c / 3 =? stack); [|exact Hc].
    specialize (Hrange (c mod 3) ltac:(clear; divlia)). unfold N. lia.
  - intros c c' Hc Hc'. unfold kappa.
    destruct (Nat.eqb_spec (c / 3) stack) as [E|E];
      destruct (Nat.eqb_spec (c' / 3) stack) as [E'|E']; intros P.
    + apply Hinj in P; try (clear; divlia). clear - P E E'. divlia.
    + specialize (Hrange (c mod 3) ltac:(clear; divlia)). clear - Hrange P E'. divlia.
    + specialize (Hrange (c' mod 3) ltac:(clear; divlia)). clear - Hrange P E. divlia.
    + exact P.
  - intros c c' Hc Hc' E. unfold kappa.
    destruct (Nat.eqb_spec (c / 3) stack) as [E1|E1];
      destruct (Nat.eqb_spec (c' / 3) stack) as [E2|E2]; try congruence.
    pose proof (Hrange (c mod 3) ltac:(clear; divlia)) as H1.
    pose proof (Hrange (c' mod 3) ltac:(clear; divlia)) as H2.
    clear - H1 H2. divlia.
Qed.

Lemma shuffle_rows_within_bands_valid (b : Board) (g : Rand) :
  valid b -> rand_ok g ->
  valid (fst (shuffle_rows_within_bands b g)) /\
  rand_ok (snd (shuffle_rows_within_bands b g)).
Proof.
  intros Hv Hg. unfold shuffle_rows_within_bands. cbn [seq fold_left].
  destruct (shuffle_rows_band_valid 0 b g ltac:(lia) Hv Hg) as [V0 G0].
  destruct (shuffle_rows_band 0 b g) as [b0 g0]. cbn [fst snd] in V0, G0.
  destruct (shuffle_rows_band_valid 1 b0 g0 ltac:(lia) V0 G0) as [V1 G1].
  destruct (shuffle_rows_band 1 b0 g0) as [b1 g1]. cbn [fst snd] in V1, G1.
  apply (shuffle_rows_band_valid 2 b1 g1); [lia|assumption|assumption].
Qed.

Lemma shuffle_cols_within_stacks_valid (b : Board) (g : Rand) :
  valid b -> rand_ok g ->
  valid (fst (shuffle_cols_within_stacks b g)) /\
  rand_ok (snd (shuffle_cols_within_stacks b g)).
Proof.
  intros Hv Hg. unfold shuffle_cols_within_stacks. cbn [seq fold_left].
  destruct (shuffle_cols_stack_valid 0 b g ltac:(lia) Hv Hg) as [V0 G0].
  destruct (shuffle_cols_stack 0 b g) as [b0 g0]. cbn [fst snd] in V0, G0.
  destruct (shuffle_cols_stack_valid 1 b0 g0 ltac:(lia) V0 G0) as [V1 G1].
  destruct (shuffle_cols_stack 1 b0 g0) as [b1 g1]. cbn [fst snd] in V1, G1.
  apply (shuffle_cols_stack_valid 2 b1 g1); [lia|assumption|assumption].
Qed.

Lemma band_targets :
  List.map (fun x : nat * nat * nat => (fst (fst x) * 3 + snd (fst x), snd x))
           (triples 3 3 N) = all_cells.
Proof. vm_compute. reflexivity. Qed.

Lemma stack_targets_NoDup :
  List.NoDup (List.map (fun x : nat * nat * nat => (snd x, fst (fst x) * 3 + snd (fst x)))
                       (triples 3 3 N)).
Proof. apply NoDup_ListNoDup. apply (bool_decide_unpack _). vm_compute. exact I. Qed.

Lemma shuffle_bands_valid (b : Board) (g : Rand) :
  valid b -> rand_ok g ->
  valid (fst (shuffle_bands b g)) /\ rand_ok (snd (shuffle_bands b g)).
Proof.
  intros Hv Hg. unfold shuffle_bands.
  destruct (shuffle_array [0; 1; 2]%Z 3 g) as [bands g1] eqn:Hsh.
  destruct (shuffle3 0 g bands g1 Hg Hsh) as [Hg1 [Hrange Hinj]].
  cbn [fst snd]. split; [|exact Hg1].
  set (f := fun (b0 : Board) '(i, r, c) =>
              store b0 (i * 3 + r) c (cell b (Z.to_nat (bands !!! i) * 3 + r) c)).
  destruct (fold_store_spec (fun x : nat * nat * nat => fst (fst x) * 3 + snd (fst x))
              (fun x => snd x)
              (fun x _ => cell b (Z.to_nat (bands !!! fst (fst x)) * 3 + snd (fst x)) (snd x))
              f (triples 3 3 N)) with (b := b) as [Hs [Hset _]].
  { intros b0 [[i r] c]. reflexivity. }
  { intros [[i r] c] Hin. apply in_triples in Hin. cbn [fst snd]. unfold N in *. lia. }
  { rewrite band_targets. apply all_cells_NoDup. }
  { apply Hv. }
  set (rho := fun r => Z.to_nat (bands !!! (r / 3)) * 3 + r mod 3).
  apply (valid_rows b _ rho); try assumption.
  - intros r c Hr Hc. unfold rho.
    specialize (Hset (r / 3, r mod 3, c)). cbn [fst snd] in Hset.
    replace (r / 3 * 3 + r mod 3) with r in Hset by (clear; divlia).
    apply Hset. apply in_triples. clear - Hr Hc. divlia.
  - intros r Hr. unfold rho.
    specialize (Hrange (r / 3) ltac:(clear - Hr; divlia)). clear - Hrange. divlia.
  - intros r r' Hr Hr'. unfold rho. intros P.
    pose proof (Hrange (r / 3) ltac:(clear - Hr; divlia)) as H1.
    pose proof (Hrange (r' / 3) ltac:(clear - Hr'; divlia)) as H2.
    assert (E : Z.to_nat (bands !!! (r / 3)) = Z.to_nat (bands !!! (r' / 3)))
      by (clear - P H1 H2; divlia).
    apply Hinj in E; [|clear - Hr; divlia|clear - Hr'; divlia].
    clear - P E H1 H2. rewrite E in P. divlia.
  - intros r r' Hr Hr' E. unfold rho. rewrite E.
    pose proof (Hrange (r' / 3) ltac:(clear - Hr'; divlia)) as H2.
    clear - H2. divlia.
Qed.

Lemma shuffle_stacks_valid (b : Board) (g : Rand) :
  valid b -> rand_ok g ->
  valid (fst (shuffle_stacks b g)) /\ rand_ok (snd (shuffle_stacks b g)).
Proof.
  intros Hv Hg. unfold shuffle_stacks.
  destruct (shuffle_array [0; 1; 2]%Z 3 g) as [stacks g1] eqn:Hsh.
  destruct (shuffle3 0 g stacks g1 Hg Hsh) as [Hg1 [Hrange Hinj]].
  cbn [fst snd]. split; [|exact Hg1].
  set (f := fun (b0 : Board) '(i, c, r) =>
              store b0 r (i * 3 + c) (cell b r (Z.to_nat (stacks !!! i) * 3 + c))).
  destruct (fold_store_spec (fun x : nat * nat * nat => snd x)
              (fun x => fst (fst x) * 3 + snd (fst x))
              (fun x _ => cell b (snd x) (Z.to_nat (stacks !!! fst (fst x)) * 3 + snd (fst x)))
              f (triples 3 3 N)) with (b := b) as [Hs [Hset _]].
  { intros b0 [[i c] r]. reflexivity. }
  { intros [[i c] r] Hin. apply in_triples in Hin. cbn [fst snd]. unfold N in *. lia. }
  { apply stack_targets_NoDup. }
  { apply Hv. }
  set (kappa := fun c => Z.to_nat (stacks !!! (c / 3)) * 3 + c mod 3).
  apply (valid_cols b _ kappa); try assumption.
  - intros r c Hr Hc. unfold kappa.
    specialize (Hset (c / 3, c mod 3, r)). cbn [fst snd] in Hset.
    replace (c / 3 * 3 + c mod 3) with c in Hset by (clear; divlia).
    apply Hset. apply in_triples. clear - Hr Hc. divlia.
  - intros c Hc. unfold kappa.
    specialize (Hrange (c / 3) ltac:(clear - Hc; divlia)). clear - Hrange. divlia.
  - intros c c' Hc Hc'. unfold kappa. intros P.
    pose proof (Hrange (c / 3) ltac:(clear - Hc; divlia)) as H1.
    pose proof (Hrange (c' / 3) ltac:(clear - Hc'; divlia)) as H2.
    assert (E : Z.to_nat (stacks !!! (c / 3)) = Z.to_nat (stacks !!! (c' / 3)))
      by (clear - P H1 H2; divlia).
    apply Hinj in E; [|clear - Hc; divlia|clear - Hc'; divlia].
    clear - P E H1 H2. rewrite E in P. divlia.
  - intros c c' Hc Hc' E. unfold kappa. rewrite E.
    pose proof (Hrange (c' / 3) ltac:(clear - Hc'; divlia)) as H2.
    clear - H2. divlia.
Qed.

Lemma generate_complete_valid (sol : Board) (g : Rand) :
  shape sol -> rand_ok g ->
  valid (fst (generate_complete sol g)) /\ rand_ok (snd (generate_complete sol g)).
Proof.
  intros Hs Hg. unfold generate_complete.
  rewrite (base_complete_eq sol Hs).
  destruct (permute_digits_valid base_board g base_board_valid Hg) as [V1 G1].
  destruct (permute_digits base_board g) as [b1 g1]. cbn [fst snd] in V1, G1.
  destruct (shuffle_rows_within_bands_valid b1 g1 V1 G1) as [V2 G2].
  destruct (shuffle_rows_within_bands b1 g1) as [b2 g2]. cbn [fst snd] in V2, G2.
  destruct (shuffle_cols_within_stacks_valid b2 g2 V2 G2) as [V3 G3].
  destruct (shuffle_cols_within_stacks b2 g2) as [b3 g3]. cbn [fst snd] in V3, G3.
  destruct (shuffle_bands_valid b3 g3 V3 G3) as [V4 G4].
  destruct (shuffle_bands b3 g3) as [b4 g4]. cbn [fst snd] in V4, G4.
  apply shuffle_stacks_valid; assumption.
Qed.

End Generator.

(** * Main results *)

(** ** Search: solving and counting *)

(** C3.  On a well-formed legal board with exactly one completion
    [solve_board] succeeds and leaves that completion in the board; on a
    well-formed legal board without completion it returns [false] (and the
    board is as it was). *)
Theorem solve_board_unique_completion (b : Board) :
  wf b -> is_legal b = true ->
  (forall s, completion b s -> (forall s', completion b s' -> s' = s) ->
     solve_board b = Some (true, s)) /\
  ((forall s, ~ completion b s) -> solve_board b = Some (false, b)).
Proof.
  intros Hwf Hleg.
  destruct (solve_board_spec b Hwf Hleg) as [[s0 [Hrun Hcpl]]|[Hrun Hnone]].
  - split.
    + intros s _ Huniq. rewrite Hrun, (Huniq s0 Hcpl). reflexivity.
    + intros Hno. exfalso. exact (Hno s0 Hcpl).
  - split.
    + intros s Hcpl _. exfalso. exact (Hnone s Hcpl).
    + intros _. exact Hrun.
Qed.

Lemma solve_board_unique_completion_witness :
  (wf ex_puzzle /\ is_legal ex_puzzle = true /\
   solve_board ex_puzzle = Some (true, ex_solution)) /\
  (wf dead_board /\ is_legal dead_board = true /\
   solve_board dead_board = Some (false, dead_board)).
Proof.
  split.
  - split; [exact ex_puzzle_wf|]. split; [exact ex_puzzle_legal|].
    apply (proj1 (solve_board_unique_completion ex_puzzle ex_puzzle_wf ex_puzzle_legal)).
    + exact ex_puzzle_completion.
    + destruct (count_one_unique ex_puzzle ex_puzzle_wf ex_puzzle_legal ex_puzzle_count)
        as [s [_ Huniq]].
      intros s' Hs'. rewrite (Huniq s' Hs').
      symmetry. apply Huniq. exact ex_puzzle_completion.
  - split; [exact dead_board_wf|]. split; [exact dead_board_legal|].
    apply (proj2 (solve_board_unique_completion dead_board dead_board_wf dead_board_legal)).
    exact dead_board_no_completion.
Defined.

(** C4, as stated, fails at limit 0: on the full base board the call
    [count_solutions b 0] returns 1, which is not in [0, 0]. *)
Lemma count_solutions_limit_zero :
  wf base_board /\ is_legal base_board = true /\
  count_solutions base_board 0 = Some (base_board, 1%Z) /\
  ~ (exists n, count_solutions base_board 0 = Some (base_board, n) /\ (0 <= n <= 0)%Z).
Proof.
  split; [exact base_board_wf|]. split; [exact base_board_legal|].
  assert (E : count_solutions base_board 0 = Some (base_board, 1%Z))
    by (vm_compute; reflexivity).
  split; [exact E|].
  intros [n [Hn Hr]]. rewrite E in Hn.
  apply some_pair_snd in Hn. lia.
Qed.

(** C4, amended.  For a well-formed legal board and a limit [k >= 1],
    [count_solutions] returns a value in [0, k]: the number of completions
    of the board capped at [k].  So it is the exact number of completions
    when that number is below [k], and [k] otherwise.  The completions form
    a finite duplicate-free list [l], and every such list has the same
    length. *)
Theorem count_solutions_bounded (b : Board) (k : Z) :
  wf b -> is_legal b = true -> (1 <= k)%Z ->
  exists n l,
    solutions b l /\ (forall l', solutions b l' -> length l' = length l) /\
    count_solutions b k = Some (b, n) /\ (0 <= n <= k)%Z /\
    n = Z.min k (Z.of_nat (length l)) /\
    ((Z.of_nat (length l) < k)%Z -> n = Z.of_nat (length l)).
Proof.
  intros Hwf Hleg Hk.
  destruct (solutions_exist b Hwf Hleg) as [l Hl].
  exists (Z.min k (Z.of_nat (length l))), l.
  split; [exact Hl|].
  split; [intros l' Hl'; exact (solutions_length b l' l Hl' Hl)|].
  split; [apply count_solutions_spec; assumption|].
  split; [lia|]. split; [reflexivity|lia].
Qed.

Lemma count_solutions_bounded_witness :
  wf ex_puzzle /\ is_legal ex_puzzle = true /\ (1 <= 2)%Z /\
  exists n l,
    solutions ex_puzzle l /\
    (forall l', solutions ex_puzzle l' -> length l' = length l) /\
    count_solutions ex_puzzle 2 = Some (ex_puzzle, n) /\ (0 <= n <= 2)%Z /\
    n = Z.min 2 (Z.of_nat (length l)) /\
    ((Z.of_nat (length l) < 2)%Z -> n = Z.of_nat (length l)).
Proof.
  split; [exact ex_puzzle_wf|]. split; [exact ex_puzzle_legal|]. split; [lia|].
  apply (count_solutions_bounded ex_puzzle 2 ex_puzzle_wf ex_puzzle_legal). lia.
Defined.

(** ** Masks *)

(** C5.  The mask invariant [consistent] (bit [d] of a mask is set iff
    digit [d+1] occurs in that row, column or box; in particular the bit of
    every filled cell is set in its three masks) is established by
    [masks_init] on a well-formed board, kept by [apply_set] on an empty
    cell, kept by [apply_clear] on a cell whose digit occurs nowhere else in
    its row, column and box, and in the search every [apply_set] is such a
    placement and the matching [apply_clear] gives back the state before it. *)
Theorem mask_invariant :
  (forall b m r c, consistent b m -> r < N -> c < N ->
     (1 <= cell b r c <= 9)%Z ->
     Z.testbit (row m !!! r) (cell b r c - 1) = true /\
     Z.testbit (col m !!! c) (cell b r c - 1) = true /\
     Z.testbit (box m !!! box_index r c) (cell b r c - 1) = true) /\
  (forall b, wf b -> consistent b (masks_init b)) /\
  (forall b m r c v, shape b -> consistent b m -> r < N -> c < N ->
     cell b r c = 0%Z -> (1 <= v <= 9)%Z ->
     consistent (fst (apply_set b m r c v)) (snd (apply_set b m r c v))) /\
  (forall b m r c, shape b -> consistent b m -> r < N -> c < N ->
     (0 <= cell b r c <= 9)%Z ->
     (forall r' c', r' < N -> c' < N -> peer r c r' c' -> cell b r' c' <> cell b r c) ->
     consistent (fst (apply_clear b m r c)) (snd (apply_clear b m r c))) /\
  (forall b m ch v, shape b -> consistent b m ->
     find_best_cell b m = Some ch -> In v (digits_of (ch_cand ch)) ->
     let b1 := fst (apply_set b m (ch_r ch) (ch_c ch) v) in
     let m1 := snd (apply_set b m (ch_r ch) (ch_c ch) v) in
     consistent b1 m1 /\ apply_clear b1 m1 (ch_r ch) (ch_c ch) = (b, m)).
Proof.
  split; [|split; [|split; [|split]]].
  - intros b m r c [_ Hbits] Hr Hc Hv.
    pose proof (box_index_lt r c Hr Hc) as Hk.
    destruct (Hbits r (cell b r c - 1)%Z Hr ltac:(lia)) as [HR _].
    destruct (Hbits c (cell b r c - 1)%Z Hc ltac:(lia)) as [_ [HC _]].
    destruct (Hbits (box_index r c) (cell b r c - 1)%Z Hk ltac:(lia)) as [_ [_ HB]].
    replace (cell b r c - 1 + 1)%Z with (cell b r c) in * by lia.
    split; [|split].
    + apply HR. split; [lia|]. exists c. auto.
    + apply HC. split; [lia|]. exists r. auto.
    + apply HB. split; [lia|]. exists r, c. auto.
  - exact masks_init_consistent.
  - intros b m r c v Hs Hcons Hr Hc Hz Hv. apply consistent_set; assumption.
  - intros b m r c Hs Hcons Hr Hc Hv Hu. apply consistent_clear; assumption.
  - intros b m ch v Hs Hcons Hf Hv b1 m1.
    apply find_best_cell_some in Hf as [Hr [Hc [Hz [E _]]]].
    rewrite E in Hv. pose proof (candidate_unused m _ _ v Hv) as [Hrange Hu].
    split.
    + apply consistent_set; assumption.
    + apply set_clear_restores; try assumption. apply Hcons.
Qed.

Lemma mask_invariant_witness :
  consistent ex_puzzle (masks_init ex_puzzle) /\
  consistent (fst (apply_set ex_puzzle (masks_init ex_puzzle) 0 2 9))
             (snd (apply_set ex_puzzle (masks_init ex_puzzle) 0 2 9)) /\
  consistent (fst (apply_clear ex_puzzle (masks_init ex_puzzle) 0 1))
             (snd (apply_clear ex_puzzle (masks_init ex_puzzle) 0 1)).
Proof.
  destruct mask_invariant as [_ [Hinit [Hset [Hclear _]]]].
  pose proof (Hinit ex_puzzle ex_puzzle_wf) as Hc.
  split; [exact Hc|]. split.
  - apply Hset; try (unfold N; lia); [apply ex_puzzle_wf|exact Hc|reflexivity].
  - apply Hclear; try (unfold N; lia); [apply ex_puzzle_wf|exact Hc|vm_compute; split; discriminate|].
    intros r' c' Hr' Hc' Hp.
    change (cell ex_puzzle 0 1) with 3%Z.
    intros E.
    assert (Hleg : legal ex_puzzle) by (apply is_legal_spec; [exact ex_puzzle_wf|exact ex_puzzle_legal]).
    apply (Hleg 0 1 r' c'); try assumption; try (unfold N; lia).
    + change (cell ex_puzzle 0 1) with 3%Z. discriminate.
    + change (cell ex_puzzle 0 1) with 3%Z. congruence.
Defined.

(** C7, as stated, fails when the digit is already in the row: on the
    board whose only clue is a 1 at (0,1), placing 1 at (0,0) and clearing
    it again leaves row mask 0 without the bit of the clue. *)
Lemma set_clear_not_inverse :
  let b := one_clue_board in
  let m := masks_init b in
  let b1 := fst (apply_set b m 0 0 1) in
  let m1 := snd (apply_set b m 0 0 1) in
  row m !!! 0 = 1%Z /\ row (snd (apply_clear b1 m1 0 0)) !!! 0 = 0%Z /\
  apply_clear b1 m1 0 0 <> (b, m).
Proof.
  cbv zeta.
  assert (E1 : row (masks_init one_clue_board) !!! 0 = 1%Z) by (vm_compute; reflexivity).
  assert (E2 : row (snd (apply_clear
                  (fst (apply_set one_clue_board (masks_init one_clue_board) 0 0 1))
                  (snd (apply_set one_clue_board (masks_init one_clue_board) 0 0 1))
                  0 0)) !!! 0 = 0%Z) by (vm_compute; reflexivity).
  split; [exact E1|]. split; [exact E2|].
  intros E. rewrite E in E2. simpl in E2. rewrite E1 in E2. discriminate.
Qed.

(** C7, amended.  On an empty cell and for a digit 1..9 that is a
    candidate of the cell (its bit is clear in the row, column and box
    masks), [apply_set] followed by [apply_clear] gives back the board and
    the three mask arrays exactly. *)
Theorem set_clear_roundtrip (b : Board) (m : Masks) (r c : nat) (v : Z) :
  shape b -> masks_ok m -> r < N -> c < N -> (1 <= v <= 9)%Z ->
  cell b r c = 0%Z -> Z.testbit (candidates_mask m r c) (v - 1) = true ->
  apply_clear (fst (apply_set b m r c v)) (snd (apply_set b m r c v)) r c = (b, m).
Proof.
  intros Hs Hm Hr Hc Hv Hz Hcand.
  apply set_clear_restores; try assumption.
  rewrite testbit_candidates in Hcand by lia.
  apply andb_true_iff in Hcand as [_ H]. apply negb_true_iff in H. exact H.
Qed.

Lemma set_clear_roundtrip_witness :
  apply_clear (fst (apply_set ex_puzzle (masks_init ex_puzzle) 0 2 9))
              (snd (apply_set ex_puzzle (masks_init ex_puzzle) 0 2 9)) 0 2
  = (ex_puzzle, masks_init ex_puzzle).
Proof.
  apply set_clear_roundtrip.
  - apply ex_puzzle_wf.
  - apply masks_okb_spec. vm_compute. reflexivity.
  - unfold N. lia.
  - unfold N. lia.
  - lia.
  - reflexivity.
  - vm_compute. reflexivity.
Defined.

(** ** Failure and frame *)

(** C9.  Whenever [solve_rec] returns [false], the board and the masks it
    returns are the ones it was called with. *)
Theorem solve_rec_failure_restores (fuel : nat) (b b' : Board) (m m' : Masks) :
  shape b -> masks_ok m ->
  solve_rec fuel b m = Some (false, b', m') -> b' = b /\ m' = m.
Proof. intros Hs Hm Hrun. exact (solve_rec_fail fuel b m b' m' Hs Hm Hrun). Qed.

Lemma solve_rec_failure_restores_witness :
  shape dead_board /\ masks_ok (masks_init dead_board) /\
  exists b' m',
    solve_rec depth_bound dead_board (masks_init dead_board) = Some (false, b', m') /\
    b' = dead_board /\ m' = masks_init dead_board.
Proof.
  assert (Hs : shape dead_board) by apply dead_board_wf.
  assert (Hm : masks_ok (masks_init dead_board))
    by (apply masks_okb_spec; vm_compute; reflexivity).
  split; [exact Hs|]. split; [exact Hm|].
  destruct (solve_rec depth_bound dead_board (masks_init dead_board))
    as [[[[|] b'] m']|] eqn:Hrun.
  - exfalso. revert Hrun. vm_compute. discriminate.
  - exists b', m'. split; [reflexivity|].
    exact (solve_rec_failure_restores depth_bound dead_board b' _ m' Hs Hm Hrun).
  - exfalso. revert Hrun. vm_compute. discriminate.
Defined.

(** C10.  [count_solutions] leaves the caller's board as it was: the board
    after the call is the board before it; on a well-formed board the call
    returns, and the private copy and the masks end as they started too. *)
Theorem count_solutions_frame :
  (forall b k b' n, count_solutions b k = Some (b', n) -> b' = b) /\
  (forall b k, wf b ->
     exists n, count_solutions_run b k = Some (b, b, masks_init b, n) /\
               count_solutions b k = Some (b, n)).
Proof.
  split.
  - intros b k b' n. unfold count_solutions, count_solutions_run.
    destruct (count_rec depth_bound b (masks_init b) k) as [[[tmp m'] n']|];
      [|discriminate].
    intros E. inversion E. reflexivity.
  - intros b k Hwf. exact (count_solutions_returns b k Hwf).
Qed.

Lemma count_solutions_frame_witness :
  exists n, count_solutions_run ex_puzzle 2
            = Some (ex_puzzle, ex_puzzle, masks_init ex_puzzle, n) /\
            count_solutions ex_puzzle 2 = Some (ex_puzzle, n).
Proof. exact (proj2 count_solutions_frame ex_puzzle 2%Z ex_puzzle_wf). Defined.

(** ** Cell selection *)

(** C6, as stated, fails: an empty cell without candidates does not make
    the selection fail when the scan meets a cell with a single candidate
    first.  On [dead_board], cell (4,0) is empty and has no candidate, and
    the selection returns cell (0,0) with candidate word 1. *)
Lemma find_best_cell_dead_cell_later :
  let m := masks_init dead_board in
  cell dead_board 4 0 = 0%Z /\ popcount9 (candidates_mask m 4 0) = 0%Z /\
  find_best_cell dead_board m = Some (mkChoice 0 0 1) /\
  find_best_cell dead_board m <> None.
Proof.
  cbv zeta.
  assert (E : find_best_cell dead_board (masks_init dead_board) = Some (mkChoice 0 0 1))
    by (vm_compute; reflexivity).
  split; [reflexivity|]. split; [vm_compute; reflexivity|].
  split; [exact E|]. rewrite E. discriminate.
Qed.

(** C6, amended.  With the empty cells listed in row-major order and
    their candidate counts: (1) the selection fails when an empty cell
    without candidates is met before any cell with exactly one candidate;
    (2) when the first cell with at most one candidate has exactly one, the
    scan stops there and that cell is chosen, whatever follows; (3) when
    every empty cell has at least two candidates, the first cell of minimum
    count is chosen; (4) without empty cells the selection fails. *)
Theorem find_best_cell_scan_order (b : Board) (m : Masks) :
  (forall pre r c post,
     empty_cells b = pre ++ (r, c) :: post ->
     cand_count m (r, c) = 0%Z ->
     (forall p, In p pre -> cand_count m p <> 1%Z) ->
     find_best_cell b m = None) /\
  (forall pre r c post,
     empty_cells b = pre ++ (r, c) :: post ->
     cand_count m (r, c) = 1%Z ->
     (forall p, In p pre -> (2 <= cand_count m p)%Z) ->
     find_best_cell b m = Some (mkChoice r c (candidates_mask m r c))) /\
  (forall pre r c post,
     empty_cells b = pre ++ (r, c) :: post ->
     (2 <= cand_count m (r, c))%Z ->
     (forall p, In p pre -> (cand_count m (r, c) < cand_count m p)%Z) ->
     (forall p, In p post -> (cand_count m (r, c) <= cand_count m p)%Z) ->
     find_best_cell b m = Some (mkChoice r c (candidates_mask m r c))) /\
  (empty_cells b = [] -> find_best_cell b m = None).
Proof.
  split; [|split; [|split]].
  - intros pre r c post HE Hdead Hpre.
    pose proof (empty_cells_empty b) as Hem. rewrite HE in Hem.
    rewrite find_best_cell_scan_empty, HE, scan_dead; try assumption; try reflexivity.
    + intros p Hp. apply Hem. apply in_app_iff. left. exact Hp.
    + apply (Hem (r, c)). apply in_app_iff. right. left. reflexivity.
  - intros pre r c post HE Hone Hpre.
    pose proof (empty_cells_empty b) as Hem. rewrite HE in Hem.
    assert (Hz : cell b r c = 0%Z)
      by (apply (Hem (r, c)); apply in_app_iff; right; left; reflexivity).
    rewrite find_best_cell_scan_empty, HE.
    destruct (scan_through b m 1 pre ((r, c) :: post) (mkBest 0 (-1) (-1) 10))
      as [st' [Hscan Hst']]; [lia|cbn [bestCount]; lia| |].
    { intros p Hp. split; [apply Hem, in_app_iff; left; exact Hp|].
      specialize (Hpre p Hp). lia. }
    rewrite Hscan, scan_cells_empty_cons by assumption.
    rewrite Hone. cbn [Z.eqb].
    destruct (Z.ltb_spec 1 (bestCount st')); [|lia].
    apply choice_of_best.
  - intros pre r c post HE Hmin Hpre Hpost.
    pose proof (empty_cells_empty b) as Hem. rewrite HE in Hem.
    assert (Hz : cell b r c = 0%Z)
      by (apply (Hem (r, c)); apply in_app_iff; right; left; reflexivity).
    pose proof (cand_count_range m (r, c)) as Hrange.
    rewrite find_best_cell_scan_empty, HE.
    destruct (scan_through b m (cand_count m (r, c)) pre ((r, c) :: post)
                (mkBest 0 (-1) (-1) 10)) as [st' [Hscan Hst']];
      [lia|cbn [bestCount]; lia| |].
    { intros p Hp. split; [apply Hem, in_app_iff; left; exact Hp|exact (Hpre p Hp)]. }
    rewrite Hscan, scan_cells_empty_cons by assumption.
    destruct (Z.eqb_spec (cand_count m (r, c)) 0); [lia|].
    destruct (Z.ltb_spec (cand_count m (r, c)) (bestCount st')); [|lia].
    destruct (Z.eqb_spec (cand_count m (r, c)) 1); [lia|].
    rewrite scan_keep.
    + apply choice_of_best.
    + cbn [bestCount]. lia.
    + intros p Hp. split.
      * apply Hem, in_app_iff. right. right. exact Hp.
      * cbn [bestCount]. exact (Hpost p Hp).
  - intros HE. rewrite find_best_cell_scan_empty, HE. reflexivity.
Qed.

Lemma find_best_cell_scan_order_witness :
  find_best_cell dead_board (masks_init dead_board)
  = Some (mkChoice 0 0 (candidates_mask (masks_init dead_board) 0 0)).
Proof.
  apply (proj1 (proj2 (find_best_cell_scan_order dead_board (masks_init dead_board)))
           [] 0 0 (List.tl (empty_cells dead_board))).
  - vm_compute. reflexivity.
  - vm_compute. reflexivity.
  - intros p [].
Defined.

(** ** Generator and carver *)

(** C2.  Whatever the random source returns, the board produced by
    [generate_complete] (base pattern, digit relabelling, row shuffles
    within bands, column shuffles within stacks, band shuffle, stack
    shuffle) has every cell in 1..9 and passes [is_legal]. *)
Theorem generate_complete_legal (sol : Board) (g : Rand) :
  shape sol -> rand_ok g ->
  let b := fst (generate_complete sol g) in
  wf b /\ (forall r c, r < N -> c < N -> (1 <= cell b r c <= 9)%Z) /\
  is_legal b = true.
Proof.
  intros Hs Hg b.
  destruct (generate_complete_valid sol g Hs Hg) as [Hv _]. fold b in Hv.
  split; [apply Hv|]. split.
  - intros r c Hr Hc. apply valid_digit; assumption.
  - apply is_legal_spec; apply Hv.
Qed.

Lemma generate_complete_legal_witness :
  shape empty_board /\ rand_ok ex_rand /\
  let b := fst (generate_complete empty_board ex_rand) in
  wf b /\ (forall r c, r < N -> c < N -> (1 <= cell b r c <= 9)%Z) /\
  is_legal b = true.
Proof.
  split; [exact empty_board_shape|]. split; [exact ex_rand_ok|].
  exact (generate_complete_legal empty_board ex_rand empty_board_shape ex_rand_ok).
Defined.

(** C1.  For a complete well-formed solution, any difficulty and any
    random sequence, [make_puzzle] returns a puzzle whose bounded count at
    limit 2 is exactly 1.  In every pass of the loop on a filled cell the
    puzzle becomes the tentative grid when the bounded count of that grid
    is 1 (and the clue counter drops by the number of cells cleared), and
    stays as it was otherwise; a pass on an already empty cell changes
    nothing. *)
Theorem make_puzzle_unique (solution : Board) (d : Difficulty) (g : Rand) :
  wf solution -> complete solution -> rand_ok g ->
  (exists puzzle g', make_puzzle solution d g = Some (puzzle, g') /\
     count_solutions puzzle 2 = Some (puzzle, 1%Z)) /\
  (forall i st st' brk,
     (0 <= i < 81)%Z -> wf (cv_puzzle st) -> carve_step i st = Some (st', brk) ->
     let r := Z.to_nat (Z.quot i 9) in
     let c := Z.to_nat (Z.rem i 9) in
     let test := fst (tentative (cv_puzzle st) r c) in
     let removed := snd (tentative (cv_puzzle st) r c) in
     (cell (cv_puzzle st) r c = 0%Z -> st' = st) /\
     (cell (cv_puzzle st) r c <> 0%Z ->
      exists n, count_solutions test 2 = Some (test, n) /\
        (n = 1%Z -> cv_puzzle st' = test /\ cv_clues st' = (cv_clues st - removed)%Z) /\
        (n <> 1%Z -> cv_puzzle st' = cv_puzzle st /\ cv_clues st' = cv_clues st))).
Proof.
  intros Hwf Hcomp Hg. split.
  - destruct (make_puzzle_total solution d g Hwf Hcomp Hg) as [p [g' [Hrun [_ Hone]]]].
    eauto.
  - intros i st st' brk Hi Hwfp Hstep r c test removed.
    destruct (cell_index_range i Hi) as [Hr Hc]. fold r in Hr. fold c in Hc.
    unfold carve_step in Hstep. fold r in Hstep. fold c in Hstep.
    destruct (Z.eqb_spec (cell (cv_puzzle st) r c) 0) as [Hz|Hz].
    + split; [|contradiction]. intros _. inversion Hstep. reflexivity.
    + split; [contradiction|]. intros _.
      pose proof (tentative_wf _ r c Hwfp Hr Hc) as Hwt.
      pose proof (commit_tentative _ r c (proj1 Hwfp) Hr Hc) as Hcommit.
      unfold test, removed.
      destruct (tentative (cv_puzzle st) r c) as [t rm]. cbn [fst snd] in *.
      destruct (count_solutions_returns t 2%Z Hwt) as [n [_ Hn]].
      rewrite Hn in Hstep. exists n. split; [exact Hn|].
      destruct (Z.eqb_spec n 1) as [E|E]; inversion Hstep; subst; cbn [cv_puzzle cv_clues].
      * split; [auto|]. intros Hne. contradiction.
      * split; [intros E1; contradiction|auto].
Qed.

Lemma make_puzzle_unique_witness :
  wf base_board /\ complete base_board /\ rand_ok ex_rand /\
  exists puzzle g', make_puzzle base_board DIFF_HARD ex_rand = Some (puzzle, g') /\
    count_solutions puzzle 2 = Some (puzzle, 1%Z).
Proof.
  split; [exact base_board_wf|]. split; [exact base_board_complete|].
  split; [exact ex_rand_ok|].
  exact (proj1 (make_puzzle_unique base_board DIFF_HARD ex_rand
                  base_board_wf base_board_complete ex_rand_ok)).
Defined.

(** ** Termination *)

(** C8.  On a well-formed board every core operation returns: [solve_board],
    [count_solutions] for any limit and [make_puzzle] for any difficulty and
    random sequence (selection, placement and generation are total
    functions).  Every recursive call of the search is made on a board with
    exactly one empty cell less, so [solve_rec] and [count_rec] return with
    any fuel above the number of empty cells, which is at most 81. *)
Theorem core_operations_terminate (b : Board) :
  wf b ->
  (exists ok b', solve_board b = Some (ok, b')) /\
  (forall k, exists n, count_solutions b k = Some (b, n)) /\
  (forall d g, rand_ok g -> exists p g', make_puzzle b d g = Some (p, g')) /\
  (forall m, masks_ok m ->
     (forall fuel, empties b < fuel ->
        (exists res, solve_rec fuel b m = Some res) /\
        (forall lim, exists res, count_rec fuel b m lim = Some res)) /\
     (forall ch v, find_best_cell b m = Some ch -> In v (digits_of (ch_cand ch)) ->
        S (empties (fst (apply_set b m (ch_r ch) (ch_c ch) v))) = empties b)) /\
  empties b <= 81 /\ depth_bound = 82.
Proof.
  intros Hwf. pose proof Hwf as [Hs _].
  split; [|split; [|split; [|split]]].
  - unfold solve_board.
    destruct (solve_rec_total depth_bound b (masks_init b) Hs
                (proj1 (masks_init_consistent b Hwf)) (depth_bound_enough b))
      as [ok [b2 [m2 [Hrun _]]]].
    rewrite Hrun. eauto.
  - intros k. destruct (count_solutions_returns b k Hwf) as [n [_ Hn]]. eauto.
  - intros d g Hg.
    destruct (make_puzzle_inv (fun _ => True) b d g (fun _ _ => I) Hwf I Hg)
      as [p [g' [Hrun _]]].
    eauto.
  - intros m Hm. split.
    + intros fuel Hfuel. split.
      * destruct (solve_rec_total fuel b m Hs Hm Hfuel) as [ok [b2 [m2 [Hrun _]]]]. eauto.
      * intros lim. destruct (count_rec_total fuel b m lim Hs Hm Hfuel) as [n Hrun]. eauto.
    + intros ch v Hf Hv.
      apply find_best_cell_some in Hf as [Hr [Hc [Hz [E _]]]].
      rewrite E in Hv. apply candidate_unused in Hv as [Hv _].
      rewrite apply_set_fst. symmetry. apply empties_store; try assumption. lia.
  - split; [apply (empties_le b)|reflexivity].
Qed.

Lemma core_operations_terminate_witness :
  wf ex_puzzle /\
  (exists ok b', solve_board ex_puzzle = Some (ok, b')) /\
  (forall k, exists n, count_solutions ex_puzzle k = Some (ex_puzzle, n)) /\
  (forall d g, rand_ok g -> exists p g', make_puzzle ex_puzzle d g = Some (p, g')).
Proof.
  split; [exact ex_puzzle_wf|].
  destruct (core_operations_terminate ex_puzzle ex_puzzle_wf) as [H1 [H2 [H3 _]]].
  auto.
Defined.

(** * Further functions: move checking, the game, shuffling, selection *)

(** ** Move checking *)

Section MoveChecking.

Lemma box_index_same (r c r' c' : nat) :
  r < N -> c < N -> r' < N -> c' < N ->
  box_index r c = box_index r' c' <->
  exists dr dc, dr < 3 /\ dc < 3 /\ r' = (r / 3) * 3 + dr /\ c' = (c / 3) * 3 + dc.
Proof.
  intros Hr Hc Hr' Hc'. unfold box_index. split.
  - intros E. exists (r' mod 3), (c' mod 3).
    assert (r / 3 = r' / 3 /\ c / 3 = c' / 3) as [E1 E2] by divlia.
    rewrite E1, E2. divlia.
  - intros (dr & dc & Hdr & Hdc & -> & ->). divlia.
Qed.

(** The three loops of [can_place]: [v] is nowhere in the row, the column
    and the box of [(r,c)]. *)
Lemma can_place_spec (current fixed : Board) (r c : nat) (v : Z) :
  r < N -> c < N ->
  can_place current fixed r c v = true <->
  cell fixed r c = 0%Z /\
  forall r' c', r' < N -> c' < N ->
    (r = r' \/ c = c' \/ box_index r c = box_index r' c') -> cell current r' c' <> v.
Proof.
  intros Hr Hc. unfold can_place.
  destruct (Z.eqb_spec (cell fixed r c) 0) as [Hz|Hnz]; cbn [negb].
  2: { split; [discriminate|]. intros [E _]. contradiction. }
  rewrite andb_true_iff, !forallb_forall. split.
  - intros [Hline Hbox]. split; [exact Hz|].
    intros r' c' Hr' Hc' [<-|[<-|Hb]].
    + specialize (Hline c'). rewrite in_seq in Hline.
      specialize (Hline ltac:(lia)). apply andb_true_iff in Hline as [H1 _].
      apply negb_true_iff, Z.eqb_neq in H1. exact H1.
    + specialize (Hline r'). rewrite in_seq in Hline.
      specialize (Hline ltac:(lia)). apply andb_true_iff in Hline as [_ H2].
      apply negb_true_iff, Z.eqb_neq in H2. exact H2.
    + apply box_index_same in Hb as (dr & dc & Hdr & Hdc & -> & ->); try assumption.
      specialize (Hbox (dr, dc)). rewrite in_pairs in Hbox.
      specialize (Hbox ltac:(lia)). cbn beta iota in Hbox.
      apply negb_true_iff, Z.eqb_neq in Hbox. exact Hbox.
  - intros [_ Hfree]. split.
    + intros i Hi. apply in_seq in Hi. apply andb_true_iff.
      split; apply negb_true_iff, Z.eqb_neq; apply Hfree; auto; lia.
    + intros [dr dc] Hin. apply in_pairs in Hin as [Hdr Hdc].
      apply negb_true_iff, Z.eqb_neq.
      assert (r / 3 * 3 + dr < N /\ c / 3 * 3 + dc < N) as [H1 H2] by divlia.
      apply Hfree; try assumption. right. right.
      apply box_index_same; try assumption. eauto 6.
Qed.

Lemma cell_correct_spec (b : Board) (r c : nat) :
  r < N -> c < N ->
  cell_correct b r c = true <->
  (1 <= cell b r c <= 9)%Z /\
  forall r' c', r' < N -> c' < N -> peer r c r' c' -> cell b r' c' <> cell b r c.
Proof.
  intros Hr Hc. unfold cell_correct.
  destruct (Z.ltb_spec (cell b r c) 1) as [Hlo|Hlo]; cbn [orb].
  { split; [discriminate|]. intros [? _]. lia. }
  destruct (Z.gtb_spec (cell b r c) 9) as [Hhi|Hhi].
  { split; [discriminate|]. intros [? _]. lia. }
  rewrite andb_true_iff, !forallb_forall. split.
  - intros [Hline Hbox]. split; [lia|].
    intros r' c' Hr' Hc' [Hne [<-|[<-|Hb]]].
    + specialize (Hline c'). rewrite in_seq in Hline.
      specialize (Hline ltac:(lia)). apply andb_true_iff in Hline as [H1 _].
      apply negb_true_iff, andb_false_iff in H1 as [H1|H1].
      * apply negb_false_iff, Nat.eqb_eq in H1. congruence.
      * apply Z.eqb_neq in H1. exact H1.
    + specialize (Hline r'). rewrite in_seq in Hline.
      specialize (Hline ltac:(lia)). apply andb_true_iff in Hline as [_ H2].
      apply negb_true_iff, andb_false_iff in H2 as [H2|H2].
      * apply negb_false_iff, Nat.eqb_eq in H2. congruence.
      * apply Z.eqb_neq in H2. exact H2.
    + apply box_index_same in Hb as (dr & dc & Hdr & Hdc & E1 & E2); try assumption.
      specialize (Hbox (dr, dc)). rewrite in_pairs in Hbox.
      specialize (Hbox ltac:(lia)). cbn beta iota zeta in Hbox.
      rewrite <- E1, <- E2 in Hbox.
      destruct (Nat.eqb_spec r' r) as [P|P]; destruct (Nat.eqb_spec c' c) as [Q|Q];
        cbn [andb] in Hbox; try (apply negb_true_iff, Z.eqb_neq in Hbox; exact Hbox).
      congruence.
  - intros [_ Hfree]. split.
    + intros i Hi. apply in_seq in Hi. apply andb_true_iff. split.
      * apply negb_true_iff, andb_false_iff.
        destruct (Nat.eqb_spec i c) as [P|P]; [left; reflexivity|right].
        apply Z.eqb_neq. apply Hfree; [assumption|lia|].
        split; [congruence|auto].
      * apply negb_true_iff, andb_false_iff.
        destruct (Nat.eqb_spec i r) as [P|P]; [left; reflexivity|right].
        apply Z.eqb_neq. apply Hfree; [lia|assumption|].
        split; [congruence|auto].
    + intros [dr dc] Hin. apply in_pairs in Hin as [Hdr Hdc].
      cbn beta iota zeta.
      assert (r / 3 * 3 + dr < N /\ c / 3 * 3 + dc < N) as [H1 H2] by divlia.
      destruct (Nat.eqb_spec (r / 3 * 3 + dr) r) as [P|P];
        destruct (Nat.eqb_spec (c / 3 * 3 + dc) c) as [Q|Q]; cbn [andb];
        try reflexivity; apply negb_true_iff, Z.eqb_neq;
        (apply Hfree; [assumption|assumption|]; split; [congruence|]; right; right;
         apply box_index_same; try assumption; eauto 6).
Qed.

Lemma is_complete_and_correct_spec (b : Board) :
  is_complete_and_correct b = true <->
  forall r c, r < N -> c < N ->
    (1 <= cell b r c <= 9)%Z /\
    forall r' c', r' < N -> c' < N -> peer r c r' c' -> cell b r' c' <> cell b r c.
Proof.
  unfold is_complete_and_correct. rewrite forallb_forall. split.
  - intros H r c Hr Hc. apply cell_correct_spec; try assumption.
    apply (H (r, c)). apply in_all_cells. auto.
  - intros H [r c] Hin. apply in_all_cells in Hin as [Hr Hc].
    apply cell_correct_spec; auto.
Qed.

Lemma is_complete_and_correct_valid (b : Board) :
  shape b -> is_complete_and_correct b = true <-> valid b.
Proof.
  intros Hs. rewrite is_complete_and_correct_spec. split.
  - intros H. split; [split; [exact Hs|]|split].
    + intros r c Hr Hc. destruct (H r c Hr Hc) as [? _]. lia.
    + intros r c Hr Hc. destruct (H r c Hr Hc) as [? _]. lia.
    + intros r c r' c' Hr Hc Hr' Hc' Hp _ E.
      destruct (H r c Hr Hc) as [_ Hfree]. apply (Hfree r' c'); auto.
  - intros [[_ Hrange] [Hcomp Hleg]] r c Hr Hc. split.
    + specialize (Hrange r c Hr Hc). specialize (Hcomp r c Hr Hc). lia.
    + intros r' c' Hr' Hc' Hp E.
      apply (Hleg r c r' c'); auto.
Qed.

End MoveChecking.

(** ** What a successful search keeps, on any well-formed board *)

Section SearchFrame.

Lemma solve_digits_keeps rec :
  (forall b1 m1 b2 m2, wf b1 -> masks_ok m1 -> rec b1 m1 = Some (true, b2, m2) ->
     wf b2 /\ complete b2 /\
     forall r c, r < N -> c < N -> cell b1 r c <> 0%Z -> cell b2 r c = cell b1 r c) ->
  (forall b1 m1 b2 m2, shape b1 -> masks_ok m1 ->
     rec b1 m1 = Some (false, b2, m2) -> b2 = b1 /\ m2 = m1) ->
  forall b m r c, wf b -> masks_ok m -> r < N -> c < N -> cell b r c = 0%Z ->
    forall vs b' m',
      (forall v, In v vs ->
         (1 <= v <= 9)%Z /\ Z.testbit (used_mask m r c) (v - 1) = false) ->
      solve_digits rec r c vs b m = Some (true, b', m') ->
      wf b' /\ complete b' /\
      forall r' c', r' < N -> c' < N -> cell b r' c' <> 0%Z -> cell b' r' c' = cell b r' c'.
Proof.
  intros Hok Hfail b m r c Hwf Hm Hr Hc Hz vs b' m'.
  induction vs as [|v vs IH]; intros Hvs; cbn [solve_digits]; [discriminate|].
  destruct (apply_set b m r c v) as [b1 m1] eqn:Eset.
  destruct (set_step b m r c v b1 m1 (proj1 Hwf) Hm Hr Hc Hz (Hvs v (or_introl eq_refl)) Eset)
    as [Hb1 [Hs1 [Hm1 [He Hclr]]]].
  assert (Hwf1 : wf b1).
  { rewrite Hb1. apply wf_store; try assumption.
    destruct (Hvs v (or_introl eq_refl)) as [Hv _]. lia. }
  destruct (rec b1 m1) as [[[[|] b2] m2]|] eqn:Hk; try discriminate.
  - intros E. inversion E; subst b2 m2.
    destruct (Hok b1 m1 b' m' Hwf1 Hm1 Hk) as [Hw [Hcomp Hag]].
    split; [exact Hw|]. split; [exact Hcomp|].
    intros r' c' Hr' Hc' Hnz.
    assert (Hne : (r, c) <> (r', c')) by (intros P; inversion P; subst; contradiction).
    assert (E1 : cell b1 r' c' = cell b r' c')
      by (rewrite Hb1; apply cell_store_ne; exact Hne).
    rewrite Hag; try assumption. rewrite E1. exact Hnz.
  - destruct (Hfail b1 m1 b2 m2 Hs1 Hm1 Hk) as [-> ->]. rewrite Hclr.
    apply IH. intros w Hw. apply Hvs. right. exact Hw.
Qed.

Lemma solve_rec_keeps (fuel : nat) :
  forall b m b' m', wf b -> masks_ok m ->
    solve_rec fuel b m = Some (true, b', m') ->
    wf b' /\ complete b' /\
    forall r c, r < N -> c < N -> cell b r c <> 0%Z -> cell b' r c = cell b r c.
Proof.
  induction fuel as [|fuel IH]; intros b m b' m' Hwf Hm; [discriminate|].
  rewrite solve_rec_eq.
  destruct (any_empty b) eqn:Hany; cbn [negb].
  - destruct (find_best_cell b m) as [ch|] eqn:Hf; [|discriminate].
    apply find_best_cell_some in Hf as [Hr [Hc [Hz [E _]]]].
    apply (solve_digits_keeps (solve_rec fuel)); try assumption.
    + intros b1 m1 b2 m2 Hs1 Hm1. apply solve_rec_fail; assumption.
    + intros v Hv. rewrite E in Hv. apply candidate_unused. exact Hv.
  - intros H. inversion H; subst.
    split; [exact Hwf|]. split; [apply any_empty_false; exact Hany|]. reflexivity.
Qed.

Lemma solve_board_returns (b : Board) :
  wf b -> exists ok s, solve_board b = Some (ok, s) /\ (ok = false -> s = b).
Proof.
  intros Hwf. unfold solve_board.
  destruct (solve_rec_total depth_bound b (masks_init b) (proj1 Hwf)
              (proj1 (masks_init_consistent b Hwf)) (depth_bound_enough b))
    as [ok [b2 [m2 [Hrun Hfail]]]].
  rewrite Hrun. exists ok, b2. split; [reflexivity|].
  intros E. apply Hfail. exact E.
Qed.

Lemma solve_board_keeps (b s : Board) :
  wf b -> solve_board b = Some (true, s) ->
  wf s /\ complete s /\
  forall r c, r < N -> c < N -> cell b r c <> 0%Z -> cell s r c = cell b r c.
Proof.
  intros Hwf. unfold solve_board.
  destruct (solve_rec depth_bound b (masks_init b)) as [[[ok b'] m']|] eqn:Hrun;
    [|discriminate].
  intros E. inversion E; subst.
  apply (solve_rec_keeps depth_bound b (masks_init b) s m' Hwf
           (proj1 (masks_init_consistent b Hwf)) Hrun).
Qed.

(** With a completion known to be the only one, the solver returns it. *)
Lemma solve_board_the_completion (b s : Board) :
  wf b -> is_legal b = true -> completion b s ->
  (forall s', completion b s' -> s' = s) ->
  solve_board b = Some (true, s).
Proof.
  intros Hwf Hleg Hcpl Huniq.
  destruct (solve_board_spec b Hwf Hleg) as [[s0 [Hrun Hs0]]|[_ Hnone]].
  - rewrite Hrun, (Huniq s0 Hs0). reflexivity.
  - exfalso. exact (Hnone s Hcpl).
Qed.

End SearchFrame.

(** ** The structure of a carved puzzle *)

Section CarvingStructure.

Lemma empties_clear (b : Board) (r c : nat) :
  shape b -> r < N -> c < N -> cell b r c <> 0%Z ->
  empties (store b r c 0) = S (empties b).
Proof.
  intros Hs Hr Hc Hnz.
  rewrite (empties_store (store b r c 0) r c (cell b r c)); try assumption.
  - rewrite store_store, store_same by assumption. reflexivity.
  - apply shape_store; assumption.
  - apply cell_store_eq; assumption.
Qed.

Lemma complete_empties (b : Board) : complete b -> empties b = 0.
Proof.
  intros Hc. unfold empties.
  assert (H : forall l, (forall p, In p l -> In p all_cells) ->
            length (List.filter (fun '(r, c) => (cell b r c =? 0)%Z) l) = 0).
  { induction l as [|[r c] l IH]; intros Hin; [reflexivity|].
    cbn [List.filter].
    pose proof (Hin (r, c) (or_introl eq_refl)) as Hrc. apply in_all_cells in Hrc.
    destruct (Z.eqb_spec (cell b r c) 0) as [E|E].
    - exfalso. apply (Hc r c); tauto.
    - apply IH. intros p Hp. apply Hin. right. exact Hp. }
  apply H. auto.
Qed.

(** The cells of the tentative grid. *)
Lemma tentative_cells (p : Board) (r c r' c' : nat) :
  shape p -> r < N -> c < N ->
  cell (fst (tentative p r c)) r' c' =
  if decide ((r, c) = (r', c')) then 0%Z
  else if decide ((8 - r, 8 - c) = (r', c')) then 0%Z
  else cell p r' c'.
Proof.
  intros Hs Hr Hc. unfold tentative.
  assert (Hs1 : shape (store p r c 0)) by (apply shape_store; exact Hs).
  assert (Hsr : 8 - r < N /\ 8 - c < N) by (unfold N in *; lia).
  destruct Hsr as [Hsr Hsc].
  destruct (negb ((8 - r =? r) && (8 - c =? c))) eqn:Hmid; cbn [andb].
  - destruct (Z.eqb_spec (cell (store p r c 0) (8 - r) (8 - c)) 0) as [E|E];
      cbn [negb fst].
    + rewrite cell_store by assumption.
      destruct (decide ((r, c) = (r', c'))) as [P|P]; [reflexivity|].
      destruct (decide ((8 - r, 8 - c) = (r', c'))) as [Q|Q]; [|reflexivity].
      inversion Q; subst r' c'. rewrite cell_store in E by assumption.
      destruct (decide ((r, c) = (8 - r, 8 - c))); [contradiction|exact E].
    + rewrite !cell_store by assumption.
      destruct (decide ((8 - r, 8 - c) = (r', c'))) as [Q|Q];
        destruct (decide ((r, c) = (r', c'))) as [P|P]; reflexivity.
  - cbn [fst]. rewrite cell_store by assumption.
    destruct (decide ((r, c) = (r', c'))) as [P|P]; [reflexivity|].
    destruct (decide ((8 - r, 8 - c) = (r', c'))) as [Q|Q]; [|reflexivity].
    exfalso. apply negb_false_iff, andb_true_iff in Hmid as [H1 H2].
    apply Nat.eqb_eq in H1, H2. apply P. rewrite <- Q. congruence.
Qed.

(** The counter [removed] is the number of clues the tentative grid lost. *)
Lemma tentative_clues (p : Board) (r c : nat) :
  shape p -> r < N -> c < N -> cell p r c <> 0%Z ->
  Z.of_nat (clue_count (fst (tentative p r c))) =
  (Z.of_nat (clue_count p) - snd (tentative p r c))%Z /\
  (1 <= snd (tentative p r c) <= 2)%Z.
Proof.
  intros Hs Hr Hc Hnz. unfold tentative, clue_count.
  assert (Hs1 : shape (store p r c 0)) by (apply shape_store; exact Hs).
  assert (Hsr : 8 - r < N /\ 8 - c < N) by (unfold N in *; lia).
  destruct Hsr as [Hsr Hsc].
  pose proof (empties_clear p r c Hs Hr Hc Hnz) as E1.
  pose proof (empties_le (store p r c 0)) as L1.
  destruct (negb ((8 - r =? r) && (8 - c =? c))); cbn [andb].
  - destruct (Z.eqb_spec (cell (store p r c 0) (8 - r) (8 - c)) 0) as [E|E];
      cbn [negb fst snd].
    + lia.
    + pose proof (empties_clear (store p r c 0) (8 - r) (8 - c) Hs1 Hsr Hsc E) as E2.
      pose proof (empties_le (store (store p r c 0) (8 - r) (8 - c) 0)) as L2.
      lia.
  - cbn [fst snd]. lia.
Qed.

(** What one pass of the carving loop does to the state. *)
Lemma carve_step_cases (i : Z) (st st' : Carve) (brk : bool) :
  (0 <= i < 81)%Z -> wf (cv_puzzle st) -> carve_step i st = Some (st', brk) ->
  let r := Z.to_nat (Z.quot i 9) in
  let c := Z.to_nat (Z.rem i 9) in
  (cv_attempts st <= cv_attempts st' <= cv_attempts st + 1)%Z /\
  (brk = true -> (cv_attempts st' > 20000)%Z) /\
  ((cv_puzzle st' = cv_puzzle st /\ cv_clues st' = cv_clues st) \/
   (cell (cv_puzzle st) r c <> 0%Z /\
    cv_puzzle st' = fst (tentative (cv_puzzle st) r c) /\
    cv_clues st' = (cv_clues st - snd (tentative (cv_puzzle st) r c))%Z /\
    count_solutions (cv_puzzle st') 2 = Some (cv_puzzle st', 1%Z))).
Proof.
  intros Hi Hwf Hstep r c.
  destruct (cell_index_range i Hi) as [Hr Hc]. fold r in Hr. fold c in Hc.
  unfold carve_step in Hstep. fold r in Hstep. fold c in Hstep.
  destruct (Z.eqb_spec (cell (cv_puzzle st) r c) 0) as [Hz|Hz].
  { inversion Hstep; subst. split; [lia|]. split; [discriminate|]. left. auto. }
  pose proof (tentative_wf _ r c Hwf Hr Hc) as Hwt.
  pose proof (commit_tentative _ r c (proj1 Hwf) Hr Hc) as Hcommit.
  destruct (tentative (cv_puzzle st) r c) as [t rm]. cbn [fst snd] in *.
  destruct (count_solutions_returns t 2%Z Hwt) as [n [_ Hn]].
  rewrite Hn in Hstep.
  destruct (Z.eqb_spec n 1) as [E|E]; inversion Hstep; subst;
    cbn [cv_puzzle cv_clues cv_attempts].
  - split; [lia|]. split; [intros H; apply Z.gtb_lt in H; lia|].
    right. auto.
  - split; [lia|]. split; [intros H; apply Z.gtb_lt in H; lia|].
    left. auto.
Qed.

(** Invariants of the carving loop that may depend on the number of
    passes made. *)
Lemma carve_loop_state (I : nat -> Carve -> Prop) (target : Z) (k : nat) :
  (forall idx i st st' brk,
     (0 <= i < 81)%Z -> I idx st -> (cv_clues st > target)%Z ->
     carve_step i st = Some (st', brk) -> I (S idx) st') ->
  forall idx cells st st',
    (forall j, idx <= j < idx + k -> (0 <= cells !!! j < 81)%Z) ->
    I idx st -> carve_loop k idx cells target st = Some st' ->
    exists n, idx <= n <= idx + k /\ I n st'.
Proof.
  intros Hstep.
  induction k as [|k IH]; intros idx cells st st' Hcells HI; cbn [carve_loop].
  - intros E. inversion E; subst. exists idx. split; [lia|exact HI].
  - destruct (Z.gtb_spec (cv_clues st) target) as [Hgt|Hle]; cbn [negb].
    2: { intros E. inversion E; subst. exists idx. split; [lia|exact HI]. }
    destruct (carve_step (cells !!! idx) st) as [[st1 brk]|] eqn:Hs; [|discriminate].
    pose proof (Hstep idx _ st st1 brk (Hcells idx ltac:(lia)) HI ltac:(lia) Hs) as HI1.
    destruct brk.
    + intros E. inversion E; subst. exists (S idx). split; [lia|exact HI1].
    + intros Hrun.
      destruct (IH (S idx) cells st1 st' ltac:(intros j Hj; apply Hcells; lia) HI1 Hrun)
        as [n [Hn HIn]].
      exists n. split; [lia|exact HIn].
Qed.

(** Clearing cells keeps "carved from" and, for the symmetric pair, the
    symmetry of the pattern. *)
Lemma tentative_carved (s p : Board) (r c : nat) :
  shape p -> r < N -> c < N ->
  carved_from s p -> carved_from s (fst (tentative p r c)).
Proof.
  intros Hs Hr Hc Hcv r' c' Hr' Hc'. rewrite tentative_cells by assumption.
  destruct (decide ((r, c) = (r', c'))); [left; reflexivity|].
  destruct (decide ((8 - r, 8 - c) = (r', c'))); [left; reflexivity|].
  apply Hcv; assumption.
Qed.

Lemma tentative_symmetric (p : Board) (r c : nat) :
  shape p -> r < N -> c < N ->
  half_turn_symmetric p -> half_turn_symmetric (fst (tentative p r c)).
Proof.
  intros Hs Hr Hc Hsym r' c' Hr' Hc'. rewrite !tentative_cells by assumption.
  assert (H8 : 8 - (8 - r') = r' /\ 8 - (8 - c') = c') by (unfold N in *; lia).
  destruct H8 as [R8 C8].
  destruct (decide ((r, c) = (r', c'))) as [P|P];
    destruct (decide ((8 - r, 8 - c) = (r', c'))) as [Q|Q];
    destruct (decide ((r, c) = (8 - r', 8 - c'))) as [P'|P'];
    destruct (decide ((8 - r, 8 - c) = (8 - r', 8 - c'))) as [Q'|Q'];
    try tauto;
    try (exfalso; inversion P; subst; apply Q'; reflexivity);
    try (exfalso; inversion Q; subst; apply P';
         inversion Q; unfold N in *; f_equal; lia);
    try (exfalso; inversion P'; subst; apply Q; f_equal; assumption);
    try (exfalso; inversion Q'; apply P; unfold N in *; f_equal; lia).
  apply Hsym; assumption.
Qed.

End CarvingStructure.

Section CarvedPuzzle.

(** The state of the carving loop after any number of passes. *)
Lemma carve_loop_structure (solution : Board) (cells : list Z) (target : Z) (st : Carve) :
  wf solution -> complete solution -> (target <= 81)%Z ->
  (forall j, j < N * N -> (0 <= cells !!! j < 81)%Z) ->
  carve_loop (N * N) 0 cells target (mkCarve solution (Z.of_nat (N * N)) 0) = Some st ->
  wf (cv_puzzle st) /\ carved_from solution (cv_puzzle st) /\
  half_turn_symmetric (cv_puzzle st) /\
  cv_clues st = Z.of_nat (clue_count (cv_puzzle st)) /\
  (target - 1 <= cv_clues st)%Z /\
  count_solutions (cv_puzzle st) 2 = Some (cv_puzzle st, 1%Z) /\
  (0 <= cv_attempts st <= 81)%Z.
Proof.
  intros Hwf Hcomp Ht Hcells Hrun.
  set (I := fun (idx : nat) (st : Carve) =>
    wf (cv_puzzle st) /\ carved_from solution (cv_puzzle st) /\
    half_turn_symmetric (cv_puzzle st) /\
    cv_clues st = Z.of_nat (clue_count (cv_puzzle st)) /\
    (target - 1 <= cv_clues st)%Z /\
    count_solutions (cv_puzzle st) 2 = Some (cv_puzzle st, 1%Z) /\
    (0 <= cv_attempts st <= Z.of_nat idx)%Z).
  destruct (carve_loop_state I target (N * N)) with (idx := 0) (cells := cells)
    (st := mkCarve solution (Z.of_nat (N * N)) 0) (st' := st) as [n [Hn HI]].
  - clear Hrun. intros idx i s s' brk Hi (Hw & Hcv & Hsym & Hcl & Hlo & Hone & Hat) Hgt Hstep.
    destruct (cell_index_range i Hi) as [Hr Hc].
    destruct (carve_step_cases i s s' brk Hi Hw Hstep)
      as (Hatt & _ & [[Ep Ec]|(Hnz & Ep & Ec & Hone')]).
    + unfold I. rewrite Ep, Ec. repeat (split; [assumption|]). lia.
    + pose proof (tentative_clues _ _ _ (proj1 Hw) Hr Hc Hnz) as [Hclue Hrm].
      unfold I. rewrite Ec.
      split; [rewrite Ep; apply tentative_wf; assumption|].
      split; [rewrite Ep; apply tentative_carved; try assumption; apply Hw|].
      split; [rewrite Ep; apply tentative_symmetric; try assumption; apply Hw|].
      split; [rewrite Ep, Hclue, Hcl; reflexivity|].
      split; [lia|]. split; [exact Hone'|lia].
  - intros j Hj. apply Hcells. lia.
  - unfold I. cbn [cv_puzzle cv_clues cv_attempts].
    split; [exact Hwf|].
    split; [intros r c Hr Hc; right; reflexivity|].
    split.
    { intros r c Hr Hc. split; intros E; exfalso.
      - exact (Hcomp r c Hr Hc E).
      - apply (Hcomp (8 - r) (8 - c)); [unfold N in *; lia..|exact E]. }
    split; [unfold clue_count; rewrite (complete_empties _ Hcomp); f_equal; lia|].
    split; [unfold N; lia|].
    split; [apply complete_count_one; exact Hcomp|lia].
  - exact Hrun.
  - destruct HI as (H1 & H2 & H3 & H4 & H5 & H6 & H7).
    repeat (split; [assumption|]). unfold N in Hn. lia.
Qed.

Lemma target_clues_le (d : Difficulty) : (target_clues d <= 81)%Z.
Proof. destruct d; cbn; lia. Qed.

Lemma make_puzzle_structure (solution : Board) (d : Difficulty) (g : Rand)
    (puzzle : Board) (g' : Rand) :
  wf solution -> complete solution -> rand_ok g ->
  make_puzzle solution d g = Some (puzzle, g') ->
  wf puzzle /\ carved_from solution puzzle /\ half_turn_symmetric puzzle /\
  (target_clues d - 1 <= Z.of_nat (clue_count puzzle))%Z /\
  count_solutions puzzle 2 = Some (puzzle, 1%Z).
Proof.
  intros Hwf Hcomp Hg. unfold make_puzzle.
  pose proof (cells_in_range g Hg) as Hcells.
  destruct (shuffle_array _ (N * N) g) as [cells g1]. cbn [fst] in Hcells.
  destruct (carve_loop (N * N) 0 cells (target_clues d)
              (mkCarve solution (Z.of_nat (N * N)) 0)) as [st|] eqn:Hrun; [|discriminate].
  intros E. inversion E; subst.
  destruct (carve_loop_structure solution cells (target_clues d) st Hwf Hcomp
              (target_clues_le d) Hcells Hrun) as (H1 & H2 & H3 & H4 & H5 & H6 & _).
  repeat (split; [assumption|]). split; [lia|exact H6].
Qed.

(** A grid carved from a valid grid is legal and has that grid among its
    completions. *)
Lemma carved_legal (s p : Board) :
  valid s -> carved_from s p -> legal p /\ (wf p -> completion p s).
Proof.
  intros [Hwf [Hcomp Hleg]] Hcv. split.
  - intros r c r' c' Hr Hc Hr' Hc' Hp Hnz E.
    destruct (Hcv r c Hr Hc) as [H1|H1]; [contradiction|].
    destruct (Hcv r' c' Hr' Hc') as [H2|H2]; [congruence|].
    apply (Hleg r c r' c'); try assumption.
    + apply Hcomp; assumption.
    + congruence.
  - intros _. split; [exact Hwf|]. split; [exact Hcomp|]. split; [exact Hleg|].
    intros r c Hr Hc Hnz. destruct (Hcv r c Hr Hc); [contradiction|congruence].
Qed.

(** The puzzle carved from a valid solution: legal, with that solution as
    its only completion, which is what the solver returns. *)
Lemma make_puzzle_solution (solution : Board) (d : Difficulty) (g : Rand)
    (puzzle : Board) (g' : Rand) :
  valid solution -> rand_ok g ->
  make_puzzle solution d g = Some (puzzle, g') ->
  wf puzzle /\ is_legal puzzle = true /\ completion puzzle solution /\
  (forall s, completion puzzle s -> s = solution) /\
  count_solutions puzzle 2 = Some (puzzle, 1%Z) /\
  solve_board puzzle = Some (true, solution).
Proof.
  intros Hv Hg Hrun.
  destruct (make_puzzle_structure solution d g puzzle g' (proj1 Hv) (proj1 (proj2 Hv)) Hg Hrun)
    as (Hwf & Hcv & _ & _ & Hone).
  destruct (carved_legal solution puzzle Hv Hcv) as [Hleg Hcpl].
  specialize (Hcpl Hwf).
  assert (Hl : is_legal puzzle = true) by (apply is_legal_spec; assumption).
  assert (Huniq : forall s, completion puzzle s -> s = solution).
  { destruct (count_one_unique puzzle Hwf Hl Hone) as [s0 [_ Hu]].
    intros s Hs. rewrite (Hu s Hs). symmetry. apply Hu. exact Hcpl. }
  repeat (split; [assumption|]).
  apply solve_board_the_completion; assumption.
Qed.

End CarvedPuzzle.

(** ** The game: start-up and commands *)

Section GameLemmas.

Lemma out_of_range_false (r c : Z) :
  out_of_range r c = false -> Z.to_nat r < N /\ Z.to_nat c < N.
Proof.
  unfold out_of_range. intros H.
  apply orb_false_iff in H as [H Hc2]. apply orb_false_iff in H as [H Hc1].
  apply orb_false_iff in H as [Hr1 Hr2].
  apply Z.ltb_ge in Hr1, Hc1. rewrite Z.geb_leb in Hr2, Hc2.
  apply Z.leb_gt in Hr2, Hc2. unfold N. lia.
Qed.

Lemma legal_clear (b : Board) (r c : nat) :
  shape b -> r < N -> c < N -> legal b -> legal (store b r c 0).
Proof.
  intros Hs Hr Hc Hl r1 c1 r2 c2 H1 H2 H3 H4 Hp.
  rewrite !cell_store by assumption.
  destruct (decide ((r, c) = (r1, c1))) as [P|P]; [intros E; contradiction|].
  destruct (decide ((r, c) = (r2, c2))) as [Q|Q]; [auto|].
  apply Hl; assumption.
Qed.

(** A move accepted by [can_place] keeps the board legal. *)
Lemma can_place_legal (current fixed : Board) (r c : nat) (v : Z) :
  shape current -> legal current -> r < N -> c < N ->
  can_place current fixed r c v = true -> legal (store current r c v).
Proof.
  intros Hs Hl Hr Hc Hcp.
  apply can_place_spec in Hcp as [_ Hfree]; try assumption.
  apply legal_store; try assumption.
  intros r' c' Hr' Hc' [_ Hp]. apply Hfree; assumption.
Qed.

(** A full valid board that carries the givens is the solution. *)
Lemma valid_current_solution (st : Game) :
  game_ok st -> unique_solution st ->
  valid (g_current st) -> g_current st = g_solution st.
Proof.
  intros (_ & _ & _ & Hgiv) (_ & _ & Huniq) (Hw & Hc & Hl).
  apply Huniq. split; [exact Hw|]. split; [exact Hc|]. split; [exact Hl|].
  exact Hgiv.
Qed.

Lemma completion_valid (b s : Board) : completion b s -> valid s.
Proof. intros (Hw & Hc & Hl & _). split; [exact Hw|]. split; assumption. Qed.

(** The two tests of the [check] command together single out the solution. *)
Lemma check_complete_iff (st : Game) :
  game_ok st -> unique_solution st ->
  (is_complete_and_correct (g_current st) = true <-> g_current st = g_solution st).
Proof.
  intros Hok Hu. pose proof Hok as (_ & _ & Hwc & _).
  rewrite (is_complete_and_correct_valid _ (proj1 Hwc)). split.
  - apply valid_current_solution; assumption.
  - intros ->. destruct Hu as (_ & Hcpl & _). exact (completion_valid _ _ Hcpl).
Qed.

(** Start-up: the generated solution and the carved puzzle go into the
    state; neither safety branch is taken. *)
Lemma start_game_spec (mem : Board) (diff : Difficulty) (g : Rand) :
  shape mem -> rand_ok g ->
  exists puzzle g2,
    make_puzzle (fst (generate_complete mem g)) diff (snd (generate_complete mem g))
      = Some (puzzle, g2) /\
    start_game mem diff g
      = Some (mkGame (fst (generate_complete mem g)) puzzle puzzle puzzle, g2).
Proof.
  intros Hs Hg. unfold start_game.
  destruct (generate_complete_valid mem g Hs Hg) as [Hv Hg1].
  destruct (generate_complete mem g) as [sol g1]. cbn [fst snd] in *.
  destruct (make_puzzle_total sol diff g1 (proj1 Hv) (proj1 (proj2 Hv)) Hg1)
    as [puzzle [g2 [Hrun _]]].
  rewrite Hrun. exists puzzle, g2. split; [reflexivity|].
  destruct (make_puzzle_solution sol diff g1 puzzle g2 Hv Hg1 Hrun)
    as (_ & Hleg & _ & _ & Hone & _).
  rewrite Hleg. cbn [negb g_puzzle]. rewrite Hone. reflexivity.
Qed.

(** Every command returns and keeps the state well-formed, with the same
    solution, puzzle and givens. *)
Lemma step_game_ok (cmd : Command) (st : Game) :
  game_ok st ->
  exists st' rep, step cmd st = Some (st', rep) /\ game_ok st' /\
    g_solution st' = g_solution st /\ g_puzzle st' = g_puzzle st /\
    g_fixed st' = g_fixed st.
Proof.
  intros Hok. pose proof Hok as (Hwp & Hfix & Hwc & Hgiv).
  destruct cmd as [a0 a1 a2|a0 a1|a0 a1| | | | | ]; cbn [step].
  - (* set *)
    destruct (out_of_range (a0 - 1) (a1 - 1)) eqn:Hrange; cbn [orb]; [eauto 10|].
    destruct (Z.ltb_spec a2 1); cbn [orb]; [eauto 10|].
    destruct (Z.gtb_spec a2 9); [eauto 10|].
    apply out_of_range_false in Hrange as [Hr Hc].
    destruct (can_place _ _ _ _ _) eqn:Hcp; cbn [negb]; [|eauto 10].
    eexists _, _. split; [reflexivity|]. cbn [g_solution g_puzzle g_fixed].
    split; [|auto].
    apply can_place_spec in Hcp as [Hz _]; try assumption. rewrite Hfix in Hz.
    split; [exact Hwp|]. split; [exact Hfix|]. cbn [g_puzzle g_current].
    split; [apply wf_store; (assumption || lia)|].
    intros r c Hr' Hc' Hnz. rewrite cell_store_ne; [auto|].
    intros P. inversion P; subst. contradiction.
  - (* clear *)
    destruct (out_of_range (a0 - 1) (a1 - 1)) eqn:Hrange; [eauto 10|].
    apply out_of_range_false in Hrange as [Hr Hc].
    destruct (Z.eqb_spec (cell (g_fixed st) (Z.to_nat (a0 - 1)) (Z.to_nat (a1 - 1))) 0)
      as [Hz|Hz]; cbn [negb]; [|eauto 10].
    eexists _, _. split; [reflexivity|]. cbn [g_solution g_puzzle g_fixed].
    split; [|auto]. rewrite Hfix in Hz.
    split; [exact Hwp|]. split; [exact Hfix|]. cbn [g_puzzle g_current].
    split; [apply wf_store; (assumption || lia)|].
    intros r c Hr' Hc' Hnz. rewrite cell_store_ne; [auto|].
    intros P. inversion P; subst. contradiction.
  - (* hint *)
    destruct (out_of_range (a0 - 1) (a1 - 1)) eqn:Hrange; [eauto 10|].
    apply out_of_range_false in Hrange as [Hr Hc].
    destruct (Z.eqb_spec (cell (g_fixed st) (Z.to_nat (a0 - 1)) (Z.to_nat (a1 - 1))) 0)
      as [Hz|Hz]; cbn [negb]; [|eauto 10].
    destruct (solve_board_returns (g_puzzle st) Hwp) as [ok [s [Hrun _]]].
    rewrite Hrun. destruct ok; [|eauto 10].
    destruct (solve_board_keeps _ _ Hwp Hrun) as [Hws _].
    destruct (Z.eqb_spec (cell s (Z.to_nat (a0 - 1)) (Z.to_nat (a1 - 1))) 0)
      as [Hv|Hv]; [eauto 10|].
    eexists _, _. split; [reflexivity|]. cbn [g_solution g_puzzle g_fixed].
    split; [|auto]. rewrite Hfix in Hz.
    split; [exact Hwp|]. split; [exact Hfix|]. cbn [g_puzzle g_current].
    split; [apply wf_store; try assumption; apply Hws; assumption|].
    intros r c Hr' Hc' Hnz. rewrite cell_store_ne; [auto|].
    intros P. inversion P; subst. contradiction.
  - (* solve *)
    destruct (solve_board_returns (g_current st) Hwc) as [ok [s [Hrun _]]].
    rewrite Hrun. destruct ok; [|eauto 10].
    destruct (solve_board_keeps _ _ Hwc Hrun) as [Hws [_ Hag]].
    eexists _, _. split; [reflexivity|]. cbn [g_solution g_puzzle g_fixed].
    split; [|auto].
    split; [exact Hwp|]. split; [exact Hfix|]. cbn [g_puzzle g_current].
    split; [exact Hws|].
    intros r c Hr Hc Hnz. rewrite <- (Hgiv r c Hr Hc Hnz).
    apply Hag; try assumption. rewrite (Hgiv r c Hr Hc Hnz). exact Hnz.
  - (* restart *)
    eexists _, _. split; [reflexivity|]. cbn [g_solution g_puzzle g_fixed].
    split; [|auto].
    split; [exact Hwp|]. split; [exact Hfix|]. cbn [g_puzzle g_current].
    split; [exact Hwp|]. reflexivity.
  - eauto 10.
  - eauto 10.
  - eauto 10.
Qed.

Lemma run_game_ok (cmds : list Command) :
  forall st, game_ok st ->
    exists st', run cmds st = Some st' /\ game_ok st' /\
      g_solution st' = g_solution st /\ g_puzzle st' = g_puzzle st /\
      g_fixed st' = g_fixed st.
Proof.
  induction cmds as [|cmd cmds IH]; intros st Hok; cbn [run]; [eauto 6|].
  destruct (step_game_ok cmd st Hok) as (st1 & rep & Hstep & Hok1 & E1 & E2 & E3).
  rewrite Hstep.
  destruct (IH st1 Hok1) as (st' & Hrun & Hok' & F1 & F2 & F3).
  exists st'. split; [exact Hrun|]. split; [exact Hok'|].
  split; [congruence|]. split; congruence.
Qed.

End GameLemmas.

(** ** More on [shuffle_array] *)

Section ShuffleFrame.

(** The loop entered with counter [i] touches only the indices [0..i] and
    draws [i] random numbers. *)
Lemma shuffle_from_frame (i : nat) :
  forall a g, rand_ok g -> i < length a ->
    drop (S i) (fst (shuffle_from i a g)) = drop (S i) a /\
    length (fst (shuffle_from i a g)) = length a /\
    pos (snd (shuffle_from i a g)) = pos g + i /\
    draws (snd (shuffle_from i a g)) = draws g.
Proof.
  induction i as [|i IH]; intros a g Hg Hi; cbn [shuffle_from].
  - cbn [fst snd]. split; [reflexivity|]. split; [reflexivity|]. split; [lia|reflexivity].
  - unfold rand. cbn [fst snd].
    set (j := Z.to_nat (Z.rem (draws g (pos g)) (Z.of_nat (S i) + 1))).
    assert (Hj : j < S (S i)).
    { pose proof (Hg (pos g)) as Hx. unfold j.
      pose proof (Z.rem_bound_pos (draws g (pos g)) (Z.of_nat (S i) + 1) Hx ltac:(lia)).
      lia. }
    set (a2 := <[j := a !!! S i]> (<[S i := a !!! j]> a)).
    assert (La2 : length a2 = length a) by (unfold a2; rewrite !length_insert; reflexivity).
    destruct (IH a2 (mkRand (draws g) (S (pos g))) Hg ltac:(lia)) as (D & L & P & R).
    cbn [pos draws] in P, R.
    split; [|split; [congruence|split; [lia|exact R]]].
    replace (S (S i)) with (S i + 1) by lia.
    rewrite <- !drop_drop, D. rewrite !drop_drop.
    unfold a2. rewrite !drop_insert_lt by lia. reflexivity.
Qed.

End ShuffleFrame.

(** ** The masks are a function of the board *)

Section MasksDetermined.

Lemma mask_array_ext (a a' : list Z) :
  length a = N -> length a' = N ->
  (forall i d, i < N -> (0 <= d)%Z ->
     Z.testbit (a !!! i) d = Z.testbit (a' !!! i) d) ->
  a = a'.
Proof.
  intros La La' Hbits. apply (list_eq_same_length _ _ N); try assumption.
  intros i x y Hi Hx Hy.
  apply list_lookup_total_correct in Hx, Hy. subst x y.
  apply Z.bits_inj'. intros d Hd. apply Hbits; assumption.
Qed.

Lemma bool_iff_eq (x y : bool) (P : Prop) :
  (x = true <-> P) -> (y = true <-> P) -> x = y.
Proof. intros Hx Hy. destruct x, y; try reflexivity; intuition congruence. Qed.

Lemma consistent_unique (b : Board) (m m' : Masks) :
  consistent b m -> consistent b m' -> m = m'.
Proof.
  intros [[(L1 & L2 & L3) _] H] [[(L1' & L2' & L3') _] H'].
  destruct m as [rw cl bx], m' as [rw' cl' bx']. cbn [row col box] in *.
  f_equal; apply mask_array_ext; try assumption; intros i d Hi Hd;
    destruct (H i d Hi Hd) as (A1 & A2 & A3);
    destruct (H' i d Hi Hd) as (B1 & B2 & B3);
    eapply bool_iff_eq; eassumption.
Qed.

(** [can_place] on an empty cell that is not a given agrees with the
    candidate word of the solver. *)
Lemma can_place_candidate (current fixed : Board) (m : Masks) (r c : nat) (v : Z) :
  consistent current m -> r < N -> c < N -> (1 <= v <= 9)%Z ->
  cell current r c = 0%Z -> cell fixed r c = 0%Z ->
  (can_place current fixed r c v = true <-> In v (digits_of (candidates_mask m r c))).
Proof.
  intros Hcons Hr Hc Hv Hz Hfz.
  rewrite (candidate_iff current m r c v Hcons Hr Hc Hv Hz).
  rewrite (can_place_spec current fixed r c v Hr Hc). split.
  - intros [_ Hfree] r' c' Hr' Hc' [_ Hp]. apply Hfree; assumption.
  - intros Hfree. split; [exact Hfz|].
    intros r' c' Hr' Hc' Hrel.
    destruct (decide ((r, c) = (r', c'))) as [P|P].
    + inversion P; subst. lia.
    + apply Hfree; try assumption. split; assumption.
Qed.

End MasksDetermined.

(** ** Difficulty words *)

Section DifficultyWords.

Lemma char_code_inj (a b : ascii) :
  Z.of_nat (nat_of_ascii a) = Z.of_nat (nat_of_ascii b) -> a = b.
Proof.
  intros E. apply Nat2Z.inj in E.
  rewrite <- (ascii_nat_embedding a), <- (ascii_nat_embedding b), E. reflexivity.
Qed.

(** [strncmp(s, t, strlen(t)) == 0] says that [s] starts with [t]. *)
Lemma strncmp_prefix (t : string) :
  no_nul t ->
  forall s, strncmp s t (String.length t) = 0%Z <-> exists rest, s = String.append t rest.
Proof.
  induction t as [|b t IH]; intros Hnn s; cbn [String.length strncmp String.append].
  - split; [intros _; exists s; reflexivity|reflexivity].
  - destruct Hnn as [Hb Hnn]. cbn [char_at_head str_tail].
    destruct s as [|a s]; cbn [char_at_head str_tail].
    + destruct (Z.eqb_spec 0 (Z.of_nat (nat_of_ascii b))) as [E|E]; [lia|].
      split; [lia|]. intros [rest Hrest]. discriminate.
    + destruct (Z.eqb_spec (Z.of_nat (nat_of_ascii a)) (Z.of_nat (nat_of_ascii b)))
        as [E|E].
      * apply char_code_inj in E. subst a.
        destruct (Z.eqb_spec (Z.of_nat (nat_of_ascii b)) 0) as [E0|E0]; [lia|].
        rewrite (IH Hnn s). split.
        -- intros [rest ->]. exists rest. reflexivity.
        -- intros [rest Hrest]. inversion Hrest. exists rest. reflexivity.
      * split; [lia|]. intros [rest Hrest]. inversion Hrest. congruence.
Qed.

Lemma easy_not_hard (r1 r2 : string) :
  String.append "easy" r1 <> String.append "hard" r2.
Proof. cbn. discriminate. Qed.

Lemma parse_difficulty_words (s : string) :
  (parse_difficulty (Some s) = DIFF_EASY <-> exists rest, s = String.append "easy" rest) /\
  (parse_difficulty (Some s) = DIFF_HARD <-> exists rest, s = String.append "hard" rest).
Proof.
  assert (He : no_nul "easy") by (cbn; repeat split; discriminate).
  assert (Hh : no_nul "hard") by (cbn; repeat split; discriminate).
  pose proof (strncmp_prefix "easy" He s) as Pe.
  pose proof (strncmp_prefix "hard" Hh s) as Ph.
  change (String.length "easy") with 4 in Pe. change (String.length "hard") with 4 in Ph.
  unfold parse_difficulty.
  destruct (Z.eqb_spec (strncmp s "easy" 4) 0) as [E|E].
  - split; [tauto|]. split; [discriminate|].
    intros [r2 H2]. apply Pe in E as [r1 H1]. exfalso.
    apply (easy_not_hard r1 r2). congruence.
  - destruct (Z.eqb_spec (strncmp s "hard" 4) 0) as [F|F].
    + split; [|tauto]. split; [discriminate|]. intros H. apply Pe in H. contradiction.
    + split; (split; [discriminate|]); intros H.
      * apply Pe in H. contradiction.
      * apply Ph in H. contradiction.
Qed.

Lemma lower_buf_prefix (t : string) :
  no_nul t ->
  forall s, (exists rest', lower_buf s = String.append t rest') <->
            (exists p rest, s = String.append p rest /\ lower_buf p = t).
Proof.
  induction t as [|b t IH]; intros Hnn s.
  - split.
    + intros _. exists EmptyString, s. split; reflexivity.
    + intros _. exists (lower_buf s). reflexivity.
  - destruct Hnn as [Hb Hnn]. split.
    + intros [rest' H]. destruct s as [|a s]; [discriminate|].
      cbn [lower_buf String.append] in H.
      destruct (Nat.eqb_spec (nat_of_ascii a) 0) as [E|E].
      * inversion H. congruence.
      * inversion H as [[Ha Hs]].
        destruct (proj1 (IH Hnn s) (ex_intro _ rest' Hs)) as [p [rest [Es Ep]]].
        exists (String a p), rest. split; [cbn; rewrite Es; reflexivity|].
        cbn [lower_buf]. destruct (Nat.eqb_spec (nat_of_ascii a) 0); [contradiction|].
        rewrite Ep. reflexivity.
    + intros [p [rest [Es Ep]]]. destruct p as [|a p]; [discriminate|].
      cbn [lower_buf] in Ep.
      destruct (Nat.eqb_spec (nat_of_ascii a) 0) as [E|E].
      * inversion Ep. congruence.
      * inversion Ep as [[Ha Hp]].
        destruct (proj2 (IH Hnn (String.append p rest))
                    (ex_intro _ p (ex_intro _ rest (conj eq_refl Hp)))) as [rest' Hr].
        exists rest'. rewrite Es. cbn [String.append lower_buf].
        destruct (Nat.eqb_spec (nat_of_ascii a) 0); [contradiction|].
        rewrite Hp, Hr. reflexivity.
Qed.

(** The test of the first character in [prompt_difficulty] changes nothing. *)
Lemma prompt_difficulty_parse (s : string) :
  prompt_difficulty (Some s) = parse_difficulty (Some (lower_buf s)).
Proof.
  unfold prompt_difficulty.
  destruct (Z.eqb_spec (char_at_head (lower_buf s)) 0) as [E|E]; [|reflexivity].
  unfold parse_difficulty. cbn [strncmp]. rewrite E. reflexivity.
Qed.

End DifficultyWords.

(** ** Facts about the example game *)

Section GameExamples.

Lemma ex_puzzle_unique (s : Board) : completion ex_puzzle s -> s = ex_solution.
Proof.
  destruct (count_one_unique ex_puzzle ex_puzzle_wf ex_puzzle_legal ex_puzzle_count)
    as [s0 [_ Huniq]].
  intros Hs. rewrite (Huniq s Hs). symmetry. apply Huniq. exact ex_puzzle_completion.
Qed.

Lemma ex_puzzle_solved : solve_board ex_puzzle = Some (true, ex_solution).
Proof.
  apply solve_board_the_completion.
  - exact ex_puzzle_wf.
  - exact ex_puzzle_legal.
  - exact ex_puzzle_completion.
  - exact ex_puzzle_unique.
Qed.

Lemma ex_game_ok : game_ok ex_game.
Proof.
  unfold game_ok, ex_game. cbn [g_puzzle g_fixed g_current].
  split; [exact ex_puzzle_wf|]. split; [reflexivity|].
  split; [exact ex_puzzle_wf|]. reflexivity.
Qed.

Lemma ex_game_unique : unique_solution ex_game.
Proof.
  unfold unique_solution, ex_game. cbn [g_puzzle g_solution].
  split; [exact ex_puzzle_legal|]. split; [exact ex_puzzle_completion|].
  exact ex_puzzle_unique.
Qed.

Lemma ex_solution_valid : valid ex_solution.
Proof. exact (completion_valid _ _ ex_puzzle_completion). Qed.

(** A hint does not look at the entries of the player: after the legal
    move 2 at (1,3), the hint for (1,6) writes the 2 of the solution into
    the same row. *)
Lemma hint_can_break_legality :
  exists st1 st2,
    step (CmdSet 1 3 2) ex_game = Some (st1, Shown) /\
    is_legal (g_current st1) = true /\
    step (CmdHint 1 6) st1 = Some (st2, Shown) /\
    is_legal (g_current st2) = false.
Proof.
  eexists _, _. split; [vm_compute; reflexivity|].
  split; [vm_compute; reflexivity|].
  split; [vm_compute; reflexivity|].
  vm_compute. reflexivity.
Qed.

End GameExamples.

(** * Further results *)

(** ** Checking boards and moves *)

(** X1.  On a 9x9 board with cells in 0..9, [is_legal] returns [true]
    exactly when no two distinct cells that share a row, a column or a box
    hold the same nonzero digit. *)
Theorem is_legal_decides_legal (b : Board) :
  wf b -> (is_legal b = true <-> legal b).
Proof. intros Hwf. exact (is_legal_spec b Hwf). Qed.

Lemma is_legal_decides_legal_witness :
  wf ex_puzzle /\ (is_legal ex_puzzle = true <-> legal ex_puzzle).
Proof.
  split; [exact ex_puzzle_wf|exact (is_legal_decides_legal ex_puzzle ex_puzzle_wf)].
Defined.

(** X2.  On a 9x9 board [is_complete_and_correct] returns [true] exactly
    when every cell holds a digit 1..9 and no digit occurs twice in a row,
    a column or a box; a cell outside 0..9 makes it answer [false]. *)
Theorem is_complete_and_correct_iff_valid (b : Board) :
  shape b -> (is_complete_and_correct b = true <-> valid b).
Proof. intros Hs. exact (is_complete_and_correct_valid b Hs). Qed.

Lemma is_complete_and_correct_iff_valid_witness :
  shape base_board /\ (is_complete_and_correct base_board = true <-> valid base_board).
Proof.
  split; [exact (proj1 base_board_wf)|].
  exact (is_complete_and_correct_iff_valid base_board (proj1 base_board_wf)).
Defined.

(** X3.  The two tests of the [check] command agree with each other and
    with the scan for an empty cell of the solver: a well-formed board is
    complete and correct exactly when it is legal and has no empty cell. *)
Theorem complete_and_correct_iff_legal_full (b : Board) :
  wf b ->
  (is_complete_and_correct b = true <-> is_legal b = true /\ any_empty b = false).
Proof.
  intros Hwf. rewrite (is_complete_and_correct_valid b (proj1 Hwf)). split.
  - intros (_ & Hc & Hl). split.
    + apply is_legal_spec; assumption.
    + apply complete_any_empty. exact Hc.
  - intros [Hl He]. split; [exact Hwf|]. split.
    + apply any_empty_false. exact He.
    + apply is_legal_spec; assumption.
Qed.

Lemma complete_and_correct_iff_legal_full_witness :
  wf ex_solution /\
  (is_complete_and_correct ex_solution = true <->
   is_legal ex_solution = true /\ any_empty ex_solution = false).
Proof.
  split; [exact (proj1 ex_solution_valid)|].
  exact (complete_and_correct_iff_legal_full ex_solution (proj1 ex_solution_valid)).
Defined.

(** X4.  A move accepted by [can_place] is on a cell that is not a given,
    and writing the digit keeps a legal board legal (and well-formed). *)
Theorem can_place_keeps_legal (current fixed : Board) (r c : nat) (v : Z) :
  wf current -> is_legal current = true -> r < N -> c < N -> (1 <= v <= 9)%Z ->
  can_place current fixed r c v = true ->
  cell fixed r c = 0%Z /\ wf (store current r c v) /\
  is_legal (store current r c v) = true.
Proof.
  intros Hwf Hleg Hr Hc Hv Hcp.
  assert (Hw' : wf (store current r c v)) by (apply wf_store; (assumption || lia)).
  split; [apply (can_place_spec current fixed r c v Hr Hc); exact Hcp|].
  split; [exact Hw'|].
  apply is_legal_spec; [exact Hw'|].
  apply (can_place_legal current fixed); try assumption.
  - apply Hwf.
  - apply is_legal_spec; assumption.
Qed.

Lemma can_place_keeps_legal_witness :
  wf ex_puzzle /\ is_legal ex_puzzle = true /\
  can_place ex_puzzle ex_puzzle 0 2 2 = true /\
  cell ex_puzzle 0 2 = 0%Z /\ wf (store ex_puzzle 0 2 2) /\
  is_legal (store ex_puzzle 0 2 2) = true.
Proof.
  split; [exact ex_puzzle_wf|]. split; [exact ex_puzzle_legal|].
  split; [vm_compute; reflexivity|].
  apply (can_place_keeps_legal ex_puzzle ex_puzzle 0 2 2 ex_puzzle_wf ex_puzzle_legal).
  - unfold N. lia.
  - unfold N. lia.
  - lia.
  - vm_compute. reflexivity.
Defined.

(** X5.  On an empty cell that is not a given, [can_place] accepts a digit
    exactly when the solver counts it among the candidates of the cell
    (its bit is set in [candidates_mask]), for masks that satisfy the mask
    invariant of the board. *)
Theorem can_place_iff_candidate (current fixed : Board) (m : Masks) (r c : nat) (v : Z) :
  consistent current m -> r < N -> c < N -> (1 <= v <= 9)%Z ->
  cell current r c = 0%Z -> cell fixed r c = 0%Z ->
  (can_place current fixed r c v = true <->
   Z.testbit (candidates_mask m r c) (v - 1) = true).
Proof.
  intros Hcons Hr Hc Hv Hz Hfz.
  rewrite (can_place_candidate current fixed m r c v Hcons Hr Hc Hv Hz Hfz).
  rewrite digits_of_spec. tauto.
Qed.

Lemma can_place_iff_candidate_witness :
  consistent ex_puzzle (masks_init ex_puzzle) /\
  (can_place ex_puzzle ex_puzzle 0 2 9 = true <->
   Z.testbit (candidates_mask (masks_init ex_puzzle) 0 2) (9 - 1) = true).
Proof.
  split; [exact (masks_init_consistent ex_puzzle ex_puzzle_wf)|].
  apply (can_place_iff_candidate ex_puzzle ex_puzzle (masks_init ex_puzzle) 0 2 9).
  - exact (masks_init_consistent ex_puzzle ex_puzzle_wf).
  - unfold N. lia.
  - unfold N. lia.
  - lia.
  - reflexivity.
  - reflexivity.
Defined.

(** ** Shuffling *)

(** X6.  Whatever the random numbers, [shuffle_array a n] permutes the
    first [n] elements of the array among themselves, leaves the elements
    from index [n] on as they are, and consumes exactly [n-1] random
    numbers (none for [n <= 1]). *)
Theorem shuffle_array_permutes_prefix (a : list Z) (n : nat) (g : Rand) :
  rand_ok g -> n <= length a ->
  fst (shuffle_array a n g) ≡ₚ a /\
  take n (fst (shuffle_array a n g)) ≡ₚ take n a /\
  drop n (fst (shuffle_array a n g)) = drop n a /\
  pos (snd (shuffle_array a n g)) = pos g + (n - 1) /\
  draws (snd (shuffle_array a n g)) = draws g.
Proof.
  intros Hg Hn. unfold shuffle_array.
  destruct n as [|n].
  { cbn [Nat.sub shuffle_from fst snd]. rewrite !take_0, !drop_0.
    split; [reflexivity|]. split; [reflexivity|]. split; [reflexivity|].
    split; [lia|reflexivity]. }
  replace (S n - 1) with n by lia.
  destruct (shuffle_from_perm n a g Hg ltac:(lia)) as [Hperm _].
  destruct (shuffle_from_frame n a g Hg ltac:(lia)) as (D & L & P & R).
  split; [exact Hperm|].
  split; [|split; [exact D|split; [exact P|exact R]]].
  apply (Permutation_app_inv_r (drop (S n) a)).
  rewrite <- D at 1. rewrite !take_drop. exact Hperm.
Qed.

Lemma shuffle_array_permutes_prefix_witness :
  let a := [10; 20; 30; 40; 50]%Z in
  rand_ok ex_rand /\ 3 <= length a /\
  fst (shuffle_array a 3 ex_rand) ≡ₚ a /\
  take 3 (fst (shuffle_array a 3 ex_rand)) ≡ₚ take 3 a /\
  drop 3 (fst (shuffle_array a 3 ex_rand)) = drop 3 a /\
  pos (snd (shuffle_array a 3 ex_rand)) = pos ex_rand + (3 - 1) /\
  draws (snd (shuffle_array a 3 ex_rand)) = draws ex_rand.
Proof.
  cbv zeta. split; [exact ex_rand_ok|]. split; [cbn; lia|].
  apply (shuffle_array_permutes_prefix [10; 20; 30; 40; 50]%Z 3 ex_rand ex_rand_ok).
  cbn. lia.
Defined.

(** ** Solving *)

(** X7.  On a well-formed legal board, whatever [solve_board] returns with
    [true] is a completion of the board; it returns [true] exactly when the
    board has a completion, and exactly when [count_solutions] with limit 1
    returns 1. *)
Theorem solve_board_sound_complete (b : Board) :
  wf b -> is_legal b = true ->
  (forall s, solve_board b = Some (true, s) -> completion b s) /\
  ((exists s, completion b s) <-> (exists s, solve_board b = Some (true, s))) /\
  ((exists s, solve_board b = Some (true, s)) <-> count_solutions b 1 = Some (b, 1%Z)).
Proof.
  intros Hwf Hleg.
  destruct (solutions_exist b Hwf Hleg) as [l Hl].
  pose proof (count_solutions_spec b 1 l Hwf Hleg ltac:(lia) Hl) as Hcnt.
  destruct (solve_board_spec b Hwf Hleg) as [[s0 [Hrun Hs0]]|[Hrun Hnone]].
  - split; [intros s Hs; rewrite Hrun in Hs; inversion Hs; subst; exact Hs0|].
    split; [split; intros _; eauto|].
    split; [intros _|intros _; eauto].
    rewrite Hcnt. destruct l as [|s1 l].
    + exfalso. exact (proj2 (proj2 Hl s0) Hs0).
    + f_equal. f_equal. cbn [length]. lia.
  - split; [intros s Hs; rewrite Hrun in Hs; discriminate|].
    split.
    + split; intros [s Hs]; [exfalso; exact (Hnone s Hs)|].
      rewrite Hrun in Hs. discriminate.
    + split; [intros [s Hs]; rewrite Hrun in Hs; discriminate|].
      intros Hc. rewrite Hcnt in Hc. apply some_pair_snd in Hc.
      destruct l as [|s1 l]; [cbn in Hc; lia|].
      exfalso. apply (Hnone s1). apply Hl. left. reflexivity.
Qed.

Lemma solve_board_sound_complete_witness :
  wf ex_puzzle /\ is_legal ex_puzzle = true /\
  (forall s, solve_board ex_puzzle = Some (true, s) -> completion ex_puzzle s) /\
  ((exists s, completion ex_puzzle s) <->
   (exists s, solve_board ex_puzzle = Some (true, s))) /\
  ((exists s, solve_board ex_puzzle = Some (true, s)) <->
   count_solutions ex_puzzle 1 = Some (ex_puzzle, 1%Z)).
Proof.
  split; [exact ex_puzzle_wf|]. split; [exact ex_puzzle_legal|].
  exact (solve_board_sound_complete ex_puzzle ex_puzzle_wf ex_puzzle_legal).
Defined.

(** X8.  On any well-formed board, legal or not, a successful
    [solve_board] leaves a board without empty cell and with digits 1..9 in
    which every cell that was filled keeps its digit; no check of the
    entries is made, so the result is legal exactly when the input was. *)
Theorem solve_board_keeps_filled_cells (b s : Board) :
  wf b -> solve_board b = Some (true, s) ->
  wf s /\ complete s /\
  (forall r c, r < N -> c < N -> cell b r c <> 0%Z -> cell s r c = cell b r c) /\
  (is_legal s = true <-> is_legal b = true).
Proof.
  intros Hwf Hrun. destruct (solve_board_keeps b s Hwf Hrun) as (Hws & Hc & Hag).
  split; [exact Hws|]. split; [exact Hc|]. split; [exact Hag|]. split.
  - intros Hls. apply is_legal_spec; [exact Hwf|].
    pose proof (proj1 (is_legal_spec s Hws) Hls) as Hl.
    intros r c r' c' Hr Hcc Hr' Hc' Hp Hnz E.
    assert (Hnz' : cell b r' c' <> 0%Z) by congruence.
    apply (Hl r c r' c'); try assumption.
    + rewrite Hag by assumption. exact Hnz.
    + rewrite !Hag by assumption. exact E.
  - intros Hlb.
    destruct (solve_board_spec b Hwf Hlb) as [[s0 [Hrun0 Hs0]]|[Hrun0 _]];
      rewrite Hrun0 in Hrun; [|discriminate].
    inversion Hrun; subst. apply is_legal_spec; apply Hs0.
Qed.

Lemma solve_board_keeps_filled_cells_witness :
  wf ex_puzzle /\ solve_board ex_puzzle = Some (true, ex_solution) /\
  wf ex_solution /\ complete ex_solution /\
  (forall r c, r < N -> c < N -> cell ex_puzzle r c <> 0%Z ->
     cell ex_solution r c = cell ex_puzzle r c) /\
  (is_legal ex_solution = true <-> is_legal ex_puzzle = true).
Proof.
  split; [exact ex_puzzle_wf|]. split; [exact ex_puzzle_solved|].
  exact (solve_board_keeps_filled_cells ex_puzzle ex_solution ex_puzzle_wf ex_puzzle_solved).
Defined.

(** ** Cell selection and masks *)

(** X9.  With masks that satisfy the mask invariant: a choice returned by
    [find_best_cell] is an empty cell of the grid together with its
    candidate word, and the digits of that word are exactly the digits
    1..9 that no other cell of the row, the column or the box holds; when
    no choice is returned the board is full or has no completion at all,
    so the search never drops a completion. *)
Theorem find_best_cell_sound (b : Board) (m : Masks) :
  consistent b m ->
  (forall ch, find_best_cell b m = Some ch ->
     ch_r ch < N /\ ch_c ch < N /\ cell b (ch_r ch) (ch_c ch) = 0%Z /\
     ch_cand ch = candidates_mask m (ch_r ch) (ch_c ch) /\
     forall v, In v (digits_of (ch_cand ch)) <->
       (1 <= v <= 9)%Z /\
       forall r' c', r' < N -> c' < N -> peer (ch_r ch) (ch_c ch) r' c' ->
         cell b r' c' <> v) /\
  (find_best_cell b m = None -> complete b \/ forall s, ~ completion b s).
Proof.
  intros Hcons. split.
  - intros ch Hf. apply find_best_cell_some in Hf as (Hr & Hc & Hz & E & _).
    repeat (split; [assumption|]). intros v. rewrite E. split.
    + intros Hin. pose proof (proj1 (digits_of_spec _ _) Hin) as [Hv _].
      split; [exact Hv|].
      apply (candidate_iff b m _ _ v Hcons Hr Hc Hv Hz). exact Hin.
    + intros [Hv Hfree]. apply (candidate_iff b m _ _ v Hcons Hr Hc Hv Hz). exact Hfree.
  - intros Hf. apply find_best_cell_none in Hf as [Hfull|(r & c & Hr & Hc & Hz & Hdead)].
    + left. exact Hfull.
    + right. exact (dead_cell_no_completion b m r c Hcons Hr Hc Hz Hdead).
Qed.

Lemma find_best_cell_sound_witness :
  consistent ex_puzzle (masks_init ex_puzzle) /\
  exists ch, find_best_cell ex_puzzle (masks_init ex_puzzle) = Some ch /\
    ch_r ch < N /\ ch_c ch < N /\ cell ex_puzzle (ch_r ch) (ch_c ch) = 0%Z.
Proof.
  split; [exact (masks_init_consistent ex_puzzle ex_puzzle_wf)|].
  destruct (find_best_cell_sound ex_puzzle (masks_init ex_puzzle)
              (masks_init_consistent ex_puzzle ex_puzzle_wf)) as [Hsome _].
  destruct (find_best_cell ex_puzzle (masks_init ex_puzzle)) as [ch|] eqn:Hf.
  - exists ch. split; [reflexivity|].
    destruct (Hsome ch eq_refl) as (Hr & Hc & Hz & _). auto.
  - exfalso. revert Hf. vm_compute. discriminate.
Defined.

(** X10.  The masks are a function of the board: masks that satisfy the
    mask invariant of a well-formed board are the ones [masks_init]
    computes, so the masks that [apply_set] updates in place are those a
    fresh [masks_init] of the new board would give. *)
Theorem masks_follow_board (b : Board) (m : Masks) :
  wf b -> consistent b m ->
  m = masks_init b /\
  forall r c v, r < N -> c < N -> cell b r c = 0%Z -> (1 <= v <= 9)%Z ->
    snd (apply_set b m r c v) = masks_init (fst (apply_set b m r c v)).
Proof.
  intros Hwf Hcons. split.
  - apply (consistent_unique b); [exact Hcons|apply masks_init_consistent; exact Hwf].
  - intros r c v Hr Hc Hz Hv.
    apply (consistent_unique (fst (apply_set b m r c v))).
    + apply consistent_set; try assumption. apply Hwf.
    + apply masks_init_consistent. rewrite apply_set_fst.
      apply wf_store; (assumption || lia).
Qed.

Lemma masks_follow_board_witness :
  wf ex_puzzle /\ consistent ex_puzzle (masks_init ex_puzzle) /\
  snd (apply_set ex_puzzle (masks_init ex_puzzle) 0 2 9)
  = masks_init (fst (apply_set ex_puzzle (masks_init ex_puzzle) 0 2 9)).
Proof.
  split; [exact ex_puzzle_wf|].
  split; [exact (masks_init_consistent ex_puzzle ex_puzzle_wf)|].
  apply (proj2 (masks_follow_board ex_puzzle (masks_init ex_puzzle) ex_puzzle_wf
                  (masks_init_consistent ex_puzzle ex_puzzle_wf))).
  - unfold N. lia.
  - unfold N. lia.
  - reflexivity.
  - lia.
Defined.

(** X11.  The bit loop [bit = cand & -cand; cand ^= bit; v = lsb_index(bit)+1]
    of [solve_rec] and [count_rec] takes the candidate digits of the chosen
    cell in ascending order, each once: for a 9-bit word one turn of the
    loop splits off the smallest digit, [popcount9] is the number of
    digits, and both functions are equal to the same search driven by the
    ascending list of the digits whose bit is set. *)
Theorem candidate_loops_ascending :
  (forall cand, (0 <= cand < 512)%Z ->
     popcount9 cand = Z.of_nat (length (digits_of cand))) /\
  (forall cand, (0 <= cand < 512)%Z -> cand <> 0%Z ->
     let bit := Z.land cand (uneg cand) in
     digits_of cand = (lsb_index bit + 1)%Z :: digits_of (Z.lxor cand bit) /\
     forall w, In w (digits_of (Z.lxor cand bit)) -> (lsb_index bit + 1 < w)%Z) /\
  (forall fuel b m,
     solve_rec (S fuel) b m =
     if negb (any_empty b) then Some (true, b, m)
     else match find_best_cell b m with
          | None => Some (false, b, m)
          | Some ch =>
              solve_digits (solve_rec fuel) (ch_r ch) (ch_c ch)
                           (digits_of (ch_cand ch)) b m
          end) /\
  (forall fuel b m lim,
     count_rec (S fuel) b m lim =
     if negb (any_empty b) then Some (b, m, 1%Z)
     else match find_best_cell b m with
          | None => Some (b, m, 0%Z)
          | Some ch =>
              count_digits (count_rec fuel) (ch_r ch) (ch_c ch)
                           (digits_of (ch_cand ch)) b m lim 0%Z
          end).
Proof.
  split; [exact popcount_digits|].
  split; [|split; [exact solve_rec_eq|exact count_rec_eq]].
  intros cand Hw Hnz bit.
  destruct (bit_step cand Hw Hnz) as [E _]. fold bit in E.
  split; [exact E|].
  intros w Hw'.
  assert (Hsorted : forall l : list Z,
            StronglySorted Z.lt l ->
            forall f, StronglySorted Z.lt (List.filter f l)).
  { intros l Hl f. induction Hl as [|x l Hl IH Hx]; cbn [List.filter]; [constructor|].
    destruct (f x); [|exact IH]. constructor; [exact IH|].
    apply List.Forall_forall. intros y Hy. apply List.filter_In in Hy as [Hy _].
    rewrite List.Forall_forall in Hx. exact (Hx y Hy). }
  assert (Hs : StronglySorted Z.lt (digits_of cand)).
  { unfold digits_of. apply Hsorted.
    repeat (constructor; [|repeat (constructor; [lia|]); constructor]).
    constructor. }
  rewrite E in Hs. inversion Hs as [|x l Hl Hx]; subst.
  rewrite List.Forall_forall in Hx. exact (Hx w Hw').
Qed.

Lemma candidate_loops_ascending_witness :
  popcount9 6 = 2%Z /\
  digits_of 6 = (lsb_index (Z.land 6 (uneg 6)) + 1)%Z
                :: digits_of (Z.lxor 6 (Z.land 6 (uneg 6))).
Proof.
  destruct candidate_loops_ascending as (H1 & H2 & _). split.
  - exact (H1 6%Z ltac:(lia)).
  - exact (proj1 (H2 6%Z ltac:(lia) ltac:(lia))).
Defined.

(** ** Generator *)

(** X12.  Each of the five transformations of the generator, taken alone
    and whatever the random numbers, maps every valid complete grid to a
    valid complete grid. *)
Theorem generator_steps_keep_valid (b : Board) (g : Rand) :
  valid b -> rand_ok g ->
  valid (fst (permute_digits b g)) /\
  valid (fst (shuffle_rows_within_bands b g)) /\
  valid (fst (shuffle_cols_within_stacks b g)) /\
  valid (fst (shuffle_bands b g)) /\
  valid (fst (shuffle_stacks b g)).
Proof.
  intros Hv Hg.
  split; [apply permute_digits_valid; assumption|].
  split; [apply shuffle_rows_within_bands_valid; assumption|].
  split; [apply shuffle_cols_within_stacks_valid; assumption|].
  split; [apply shuffle_bands_valid; assumption|].
  apply shuffle_stacks_valid; assumption.
Qed.

Lemma generator_steps_keep_valid_witness :
  valid base_board /\ rand_ok ex_rand /\
  valid (fst (permute_digits base_board ex_rand)) /\
  valid (fst (shuffle_rows_within_bands base_board ex_rand)) /\
  valid (fst (shuffle_cols_within_stacks base_board ex_rand)) /\
  valid (fst (shuffle_bands base_board ex_rand)) /\
  valid (fst (shuffle_stacks base_board ex_rand)).
Proof.
  split; [exact base_board_valid|]. split; [exact ex_rand_ok|].
  exact (generator_steps_keep_valid base_board ex_rand base_board_valid ex_rand_ok).
Defined.

(** X13.  [base_complete] overwrites all 81 cells: from any content of
    the 9x9 array it gives the same grid, cell [(r,c)] holding
    [(r*3 + r/3 + c) mod 9 + 1], and that grid is valid; so
    [generate_complete] does not depend on what the array held before. *)
Theorem base_complete_overwrites (sol : Board) :
  shape sol ->
  (forall r c, r < N -> c < N ->
     cell (base_complete sol) r c = (Z.of_nat ((r * 3 + r / 3 + c) mod 9) + 1)%Z) /\
  valid (base_complete sol) /\
  forall sol' g, shape sol' ->
    base_complete sol' = base_complete sol /\
    generate_complete sol' g = generate_complete sol g.
Proof.
  intros Hs. split; [|split].
  - unfold base_complete.
    set (f := fun (b : Board) '(r, c) =>
                store b r c (Z.of_nat ((r * 3 + r / 3 + c) mod 9) + 1)%Z).
    assert (Hf : forall b r c,
               f b (r, c)
               = store b r c ((fun r c (_ : Z) =>
                                 (Z.of_nat ((r * 3 + r / 3 + c) mod 9) + 1)%Z)
                                r c (cell b r c)))
      by reflexivity.
    destruct (fold_all_cells _ f Hf sol Hs) as [_ C1].
    intros r c Hr Hc. rewrite C1 by assumption. reflexivity.
  - rewrite (base_complete_eq sol Hs). exact base_board_valid.
  - intros sol' g Hs'. unfold generate_complete.
    rewrite (base_complete_eq sol Hs), (base_complete_eq sol' Hs'). auto.
Qed.

Lemma base_complete_overwrites_witness :
  shape ex_puzzle /\ valid (base_complete ex_puzzle) /\
  base_complete empty_board = base_complete ex_puzzle.
Proof.
  split; [exact (proj1 ex_puzzle_wf)|].
  destruct (base_complete_overwrites ex_puzzle (proj1 ex_puzzle_wf)) as (_ & Hv & Hsame).
  split; [exact Hv|].
  exact (proj1 (Hsame empty_board ex_rand empty_board_shape)).
Defined.

(** ** Carving *)

(** X14.  The puzzle carved from a complete well-formed grid only has
    cells of that grid removed (every cell is empty or holds the digit of
    the solution), the pattern of its empty cells is symmetric under the
    half turn (r,c) -> (8-r,8-c), and it keeps at least [target - 1] clues,
    that is 44, 35 or 26 for the three difficulties. *)
Theorem make_puzzle_carved (solution : Board) (d : Difficulty) (g : Rand) :
  wf solution -> complete solution -> rand_ok g ->
  exists puzzle g', make_puzzle solution d g = Some (puzzle, g') /\
    carved_from solution puzzle /\ half_turn_symmetric puzzle /\
    (target_clues d - 1 <= Z.of_nat (clue_count puzzle))%Z.
Proof.
  intros Hwf Hcomp Hg.
  destruct (make_puzzle_total solution d g Hwf Hcomp Hg) as [p [g' [Hrun _]]].
  destruct (make_puzzle_structure solution d g p g' Hwf Hcomp Hg Hrun)
    as (_ & Hcv & Hsym & Hclues & _).
  exists p, g'. auto.
Qed.

Lemma make_puzzle_carved_witness :
  wf base_board /\ complete base_board /\ rand_ok ex_rand /\
  exists puzzle g', make_puzzle base_board DIFF_HARD ex_rand = Some (puzzle, g') /\
    carved_from base_board puzzle /\ half_turn_symmetric puzzle /\
    (target_clues DIFF_HARD - 1 <= Z.of_nat (clue_count puzzle))%Z.
Proof.
  split; [exact base_board_wf|]. split; [exact base_board_complete|].
  split; [exact ex_rand_ok|].
  exact (make_puzzle_carved base_board DIFF_HARD ex_rand
           base_board_wf base_board_complete ex_rand_ok).
Defined.

(** X15.  The puzzle carved from a valid grid is legal, that grid is its
    one and only completion, and [solve_board] on the puzzle gives back
    exactly that grid. *)
Theorem make_puzzle_solves_back (solution : Board) (d : Difficulty) (g : Rand) :
  valid solution -> rand_ok g ->
  exists puzzle g', make_puzzle solution d g = Some (puzzle, g') /\
    is_legal puzzle = true /\ completion puzzle solution /\
    (forall s, completion puzzle s -> s = solution) /\
    solve_board puzzle = Some (true, solution).
Proof.
  intros Hv Hg.
  destruct (make_puzzle_total solution d g (proj1 Hv) (proj1 (proj2 Hv)) Hg)
    as [p [g' [Hrun _]]].
  destruct (make_puzzle_solution solution d g p g' Hv Hg Hrun)
    as (_ & Hl & Hc & Hu & _ & Hs).
  exists p, g'. auto.
Qed.

Lemma make_puzzle_solves_back_witness :
  valid base_board /\ rand_ok ex_rand /\
  exists puzzle g', make_puzzle base_board DIFF_EASY ex_rand = Some (puzzle, g') /\
    is_legal puzzle = true /\ completion puzzle base_board /\
    (forall s, completion puzzle s -> s = base_board) /\
    solve_board puzzle = Some (true, base_board).
Proof.
  split; [exact base_board_valid|]. split; [exact ex_rand_ok|].
  exact (make_puzzle_solves_back base_board DIFF_EASY ex_rand base_board_valid ex_rand_ok).
Defined.

(** X16.  When the carving loop ends, the counter [clues] is the number
    of filled cells of the puzzle and [attempts] is at most 81, so the cap
    of 20000 attempts is out of reach. *)
Theorem carve_loop_counters (solution : Board) (d : Difficulty) (g : Rand) :
  wf solution -> complete solution -> rand_ok g ->
  let cells := fst (shuffle_array (List.map Z.of_nat (seq 0 (N * N))) (N * N) g) in
  exists st,
    carve_loop (N * N) 0 cells (target_clues d) (mkCarve solution (Z.of_nat (N * N)) 0)
    = Some st /\
    cv_clues st = Z.of_nat (clue_count (cv_puzzle st)) /\
    (0 <= cv_attempts st <= 81)%Z.
Proof.
  intros Hwf Hcomp Hg cells.
  pose proof (cells_in_range g Hg) as Hcells. fold cells in Hcells.
  destruct (carve_loop_inv (fun _ => True) (N * N) (fun _ _ => I) 0 cells (target_clues d)
              (mkCarve solution (Z.of_nat (N * N)) 0)) as [st [Hrun _]].
  - intros j Hj. apply Hcells. lia.
  - exact Hwf.
  - exact I.
  - exists st. split; [exact Hrun|].
    destruct (carve_loop_structure solution cells (target_clues d) st Hwf Hcomp
                (target_clues_le d) Hcells Hrun) as (_ & _ & _ & H4 & _ & _ & H7).
    split; [exact H4|exact H7].
Qed.

Lemma carve_loop_counters_witness :
  wf base_board /\ complete base_board /\ rand_ok ex_rand /\
  let cells := fst (shuffle_array (List.map Z.of_nat (seq 0 (N * N))) (N * N) ex_rand) in
  exists st,
    carve_loop (N * N) 0 cells (target_clues DIFF_MEDIUM)
               (mkCarve base_board (Z.of_nat (N * N)) 0) = Some st /\
    cv_clues st = Z.of_nat (clue_count (cv_puzzle st)) /\
    (0 <= cv_attempts st <= 81)%Z.
Proof.
  split; [exact base_board_wf|]. split; [exact base_board_complete|].
  split; [exact ex_rand_ok|].
  exact (carve_loop_counters base_board DIFF_MEDIUM ex_rand
           base_board_wf base_board_complete ex_rand_ok).
Defined.

(** ** The game *)

(** X17.  Start-up of [main]: whatever the array held, the difficulty and
    the random numbers, the generated grid and the puzzle carved from it
    go into the state unchanged; the two safety branches (regenerate when
    the puzzle is illegal, recompute the solution when the count is not 1)
    are never taken.  The puzzle is legal, the stored solution is its only
    completion, and the current board and the givens are the puzzle. *)
Theorem start_game_no_fallback (mem : Board) (diff : Difficulty) (g : Rand) :
  shape mem -> rand_ok g ->
  exists puzzle g2 st,
    make_puzzle (fst (generate_complete mem g)) diff (snd (generate_complete mem g))
      = Some (puzzle, g2) /\
    st = mkGame (fst (generate_complete mem g)) puzzle puzzle puzzle /\
    start_game mem diff g = Some (st, g2) /\
    game_ok st /\ unique_solution st.
Proof.
  intros Hs Hg.
  destruct (start_game_spec mem diff g Hs Hg) as (puzzle & g2 & Hmk & Hstart).
  destruct (generate_complete_valid mem g Hs Hg) as [Hv Hg1].
  destruct (make_puzzle_solution _ diff _ puzzle g2 Hv Hg1 Hmk)
    as (Hwp & Hl & Hc & Hu & _ & _).
  eexists puzzle, g2, _. split; [exact Hmk|]. split; [reflexivity|].
  split; [exact Hstart|]. split.
  - unfold game_ok. cbn [g_puzzle g_fixed g_current]. auto.
  - unfold unique_solution. cbn [g_puzzle g_solution]. auto.
Qed.

Lemma start_game_no_fallback_witness :
  shape empty_board /\ rand_ok ex_rand /\
  exists puzzle g2 st,
    make_puzzle (fst (generate_complete empty_board ex_rand)) DIFF_MEDIUM
                (snd (generate_complete empty_board ex_rand)) = Some (puzzle, g2) /\
    st = mkGame (fst (generate_complete empty_board ex_rand)) puzzle puzzle puzzle /\
    start_game empty_board DIFF_MEDIUM ex_rand = Some (st, g2) /\
    game_ok st /\ unique_solution st.
Proof.
  split; [exact empty_board_shape|]. split; [exact ex_rand_ok|].
  exact (start_game_no_fallback empty_board DIFF_MEDIUM ex_rand
           empty_board_shape ex_rand_ok).
Defined.

(** X18.  Whatever commands are played ([set], [clear], [hint], [solve],
    [restart], [check], [print], [help], with any integer arguments), every
    command returns, the puzzle, the solution and the givens stay what
    they were, the board stays 9x9 with cells in 0..9, and every given
    keeps its digit on the current board. *)
Theorem run_keeps_givens (cmds : list Command) (st : Game) :
  game_ok st ->
  exists st', run cmds st = Some st' /\ game_ok st' /\
    g_solution st' = g_solution st /\ g_puzzle st' = g_puzzle st /\
    g_fixed st' = g_fixed st /\
    forall r c, r < N -> c < N -> cell (g_fixed st) r c <> 0%Z ->
      cell (g_current st') r c = cell (g_fixed st) r c.
Proof.
  intros Hok.
  destruct (run_game_ok cmds st Hok) as (st' & Hrun & Hok' & E1 & E2 & E3).
  exists st'. repeat (split; [assumption|]).
  destruct Hok as (_ & Hfix & _). destruct Hok' as (_ & _ & _ & Hgiv).
  intros r c Hr Hc Hnz. rewrite Hfix in *. rewrite <- E2 in *.
  apply Hgiv; assumption.
Qed.

Lemma run_keeps_givens_witness :
  let cmds := [CmdSet 1 3 2; CmdHint 1 6; CmdClear 1 2; CmdSet 0 12 5;
               CmdSolve; CmdCheck; CmdRestart; CmdHint 9 9]%Z in
  game_ok ex_game /\
  exists st', run cmds ex_game = Some st' /\ game_ok st' /\
    g_solution st' = g_solution ex_game /\ g_puzzle st' = g_puzzle ex_game /\
    g_fixed st' = g_fixed ex_game /\
    forall r c, r < N -> c < N -> cell (g_fixed ex_game) r c <> 0%Z ->
      cell (g_current st') r c = cell (g_fixed ex_game) r c.
Proof.
  cbv zeta. split; [exact ex_game_ok|].
  exact (run_keeps_givens _ ex_game ex_game_ok).
Defined.

(** X19.  Every command except [hint] keeps a legal current board legal:
    [set] only writes a digit that [can_place] accepted, [clear] removes
    one, [solve] puts a completion, [restart] puts the (legal) puzzle. *)
Theorem step_keeps_legal (cmd : Command) (st st' : Game) (rep : Reply) :
  game_ok st -> is_legal (g_puzzle st) = true -> is_hint cmd = false ->
  is_legal (g_current st) = true ->
  step cmd st = Some (st', rep) -> is_legal (g_current st') = true.
Proof.
  intros (Hwp & Hfix & Hwc & Hgiv) Hlp Hnh Hlc.
  pose proof (proj1 (is_legal_spec _ Hwc) Hlc) as Hleg.
  destruct cmd as [a0 a1 a2|a0 a1|a0 a1| | | | | ]; cbn [step].
  - destruct (out_of_range (a0 - 1) (a1 - 1)) eqn:Hrange; cbn [orb];
      [intros E; inversion E; subst; assumption|].
    destruct (Z.ltb_spec a2 1); cbn [orb]; [intros E; inversion E; subst; assumption|].
    destruct (Z.gtb_spec a2 9); [intros E; inversion E; subst; assumption|].
    apply out_of_range_false in Hrange as [Hr Hc].
    destruct (can_place _ _ _ _ _) eqn:Hcp; cbn [negb];
      [|intros E; inversion E; subst; assumption].
    intros E. inversion E; subst. cbn [g_current].
    apply is_legal_spec; [apply wf_store; (assumption || lia)|].
    apply (can_place_legal _ (g_fixed st)); try assumption. apply Hwc.
  - destruct (out_of_range (a0 - 1) (a1 - 1)) eqn:Hrange;
      [intros E; inversion E; subst; assumption|].
    apply out_of_range_false in Hrange as [Hr Hc].
    destruct (negb _); [intros E; inversion E; subst; assumption|].
    intros E. inversion E; subst. cbn [g_current].
    apply is_legal_spec; [apply wf_store; (assumption || lia)|].
    apply legal_clear; try assumption. apply Hwc.
  - discriminate Hnh.
  - destruct (solve_board_spec (g_current st) Hwc Hlc) as [[s [Hrun Hcpl]]|[Hrun _]];
      rewrite Hrun; intros E; inversion E; subst; [|assumption].
    cbn [g_current]. destruct Hcpl as (Hws & _ & Hls & _).
    apply is_legal_spec; assumption.
  - intros E. inversion E; subst. exact Hlp.
  - intros E. inversion E; subst. assumption.
  - intros E. inversion E; subst. assumption.
  - intros E. inversion E; subst. assumption.
Qed.

Lemma step_keeps_legal_witness :
  game_ok ex_game /\ is_legal (g_puzzle ex_game) = true /\
  exists st',
    step (CmdSet 1 3 2) ex_game = Some (st', Shown) /\
    cell (g_current st') 0 2 = 2%Z /\ is_legal (g_current st') = true.
Proof.
  split; [exact ex_game_ok|]. split; [exact ex_puzzle_legal|].
  destruct hint_can_break_legality as (st1 & st2 & Hstep & _).
  exists st1. split; [exact Hstep|]. split.
  - revert Hstep. vm_compute. intros E. inversion E. reflexivity.
  - exact (step_keeps_legal (CmdSet 1 3 2) ex_game st1 Shown ex_game_ok
             ex_puzzle_legal eq_refl ex_puzzle_legal Hstep).
Defined.

(** X20.  In a game whose puzzle has the stored solution as its only
    completion, [hint r c] on a cell in range that is not a given always
    writes the digit of the solution into that cell, whatever the cell
    held; the answers "no solution" and "no hint available" cannot occur. *)
Theorem hint_writes_solution_digit (a0 a1 : Z) (st : Game) :
  game_ok st -> unique_solution st ->
  let r := Z.to_nat (a0 - 1) in
  let c := Z.to_nat (a1 - 1) in
  step (CmdHint a0 a1) st =
  if out_of_range (a0 - 1) (a1 - 1) then Some (st, RangeError)
  else if negb (cell (g_puzzle st) r c =? 0)%Z then Some (st, GivenCell)
  else Some (mkGame (g_solution st) (g_puzzle st)
                    (store (g_current st) r c (cell (g_solution st) r c)) (g_fixed st),
             Shown).
Proof.
  intros (Hwp & Hfix & Hwc & Hgiv) (Hlp & Hcpl & Huniq) r c. cbn [step].
  destruct (out_of_range (a0 - 1) (a1 - 1)) eqn:Hrange; [reflexivity|].
  apply out_of_range_false in Hrange as [Hr Hc]. fold r in Hr. fold c in Hc.
  fold r. fold c. rewrite Hfix.
  destruct (negb (cell (g_puzzle st) r c =? 0)%Z); [reflexivity|].
  rewrite (solve_board_the_completion _ _ Hwp Hlp Hcpl Huniq).
  pose proof (completion_digit _ _ r c Hcpl Hr Hc) as Hd.
  destruct (Z.eqb_spec (cell (g_solution st) r c) 0) as [E|E]; [lia|reflexivity].
Qed.

Lemma hint_writes_solution_digit_witness :
  game_ok ex_game /\ unique_solution ex_game /\
  step (CmdHint 1 6) ex_game =
  Some (mkGame ex_solution ex_puzzle (store ex_puzzle 0 5 2) ex_puzzle, Shown).
Proof.
  split; [exact ex_game_ok|]. split; [exact ex_game_unique|].
  exact (hint_writes_solution_digit 1 6 ex_game ex_game_ok ex_game_unique).
Defined.

(** X21.  In such a game the program announces success exactly when the
    board is the solution: [check] answers "complete and correct" iff the
    current board equals the stored solution, and [set] prints "Solved!"
    iff the move was accepted and the board then equals the solution. *)
Theorem solved_iff_solution (st : Game) :
  game_ok st -> unique_solution st ->
  (step CmdCheck st = Some (st, CompleteCorrect) <-> g_current st = g_solution st) /\
  forall a0 a1 a2 st' rep,
    step (CmdSet a0 a1 a2) st = Some (st', rep) ->
    (rep = ShownSolved <->
     rep <> RangeError /\ rep <> IllegalMove /\ g_current st' = g_solution st).
Proof.
  intros Hok Hu. split.
  - pose proof (check_complete_iff st Hok Hu) as Hiff. cbn [step]. split.
    + intros E. apply some_pair_snd in E. apply Hiff.
      destruct (is_legal (g_current st)); cbn [negb] in E; [|discriminate].
      destruct (is_complete_and_correct (g_current st)); [reflexivity|discriminate].
    + intros Ecur.
      assert (Hl : is_legal (g_current st) = true).
      { rewrite Ecur. destruct Hu as (_ & Hc & _).
        apply is_legal_spec; apply (completion_valid _ _ Hc). }
      rewrite Hl, (proj2 Hiff Ecur). reflexivity.
  - intros a0 a1 a2 st' rep Hstep.
    destruct (step_game_ok (CmdSet a0 a1 a2) st Hok) as (st1 & rep1 & Hs1 & Hok1 & E1 & E2 & E3).
    rewrite Hs1 in Hstep. inversion Hstep; subst st1 rep1. clear Hstep.
    assert (Hu' : unique_solution st') by (unfold unique_solution; rewrite E1, E2; exact Hu).
    pose proof (check_complete_iff st' Hok1 Hu') as Hiff. rewrite E1 in Hiff.
    revert Hs1. cbn [step].
    destruct (out_of_range (a0 - 1) (a1 - 1) || (a2 <? 1)%Z || (a2 >? 9)%Z).
    { intros E. apply some_pair_snd in E. subst rep.
      split; [discriminate|]. intros (H & _). congruence. }
    destruct (negb (can_place _ _ _ _ _)).
    { intros E. apply some_pair_snd in E. subst rep.
      split; [discriminate|]. intros (_ & H & _). congruence. }
    intros E. injection E as Est Erep. subst st' rep. cbn [g_current] in Hiff |- *.
    destruct (is_complete_and_correct _).
    + split; [|reflexivity]. intros _.
      split; [discriminate|]. split; [discriminate|]. apply Hiff. reflexivity.
    + split; [discriminate|]. intros (_ & _ & Ecur). apply Hiff in Ecur. discriminate.
Qed.

Lemma solved_iff_solution_witness :
  game_ok ex_game /\ unique_solution ex_game /\
  (step CmdCheck ex_game = Some (ex_game, CompleteCorrect) <->
   g_current ex_game = g_solution ex_game).
Proof.
  split; [exact ex_game_ok|]. split; [exact ex_game_unique|].
  exact (proj1 (solved_iff_solution ex_game ex_game_ok ex_game_unique)).
Defined.

(** X22.  In such a game, when every entry of the current board agrees
    with the solution, [solve] succeeds and puts exactly the stored
    solution on the board. *)
Theorem solve_command_gives_solution (st : Game) :
  game_ok st -> unique_solution st ->
  carved_from (g_solution st) (g_current st) ->
  step CmdSolve st =
  Some (mkGame (g_solution st) (g_puzzle st) (g_solution st) (g_fixed st), Shown).
Proof.
  intros (Hwp & Hfix & Hwc & Hgiv) (Hlp & Hcpl & Huniq) Htrack. cbn [step].
  pose proof (completion_valid _ _ Hcpl) as Hv.
  destruct (carved_legal _ _ Hv Htrack) as [Hl Hc]. specialize (Hc Hwc).
  assert (Hlc : is_legal (g_current st) = true) by (apply is_legal_spec; assumption).
  destruct (solve_board_spec (g_current st) Hwc Hlc) as [[s [Hrun Hs]]|[_ Hnone]].
  - rewrite Hrun. f_equal. f_equal. f_equal. apply Huniq.
    destruct Hs as (H1 & H2 & H3 & Hag).
    split; [exact H1|]. split; [exact H2|]. split; [exact H3|].
    intros r c Hr Hcc Hnz. rewrite <- (Hgiv r c Hr Hcc Hnz).
    apply Hag; try assumption. rewrite (Hgiv r c Hr Hcc Hnz). exact Hnz.
  - exfalso. exact (Hnone _ Hc).
Qed.

Lemma solve_command_gives_solution_witness :
  game_ok ex_game /\ unique_solution ex_game /\
  carved_from (g_solution ex_game) (g_current ex_game) /\
  step CmdSolve ex_game = Some (mkGame ex_solution ex_puzzle ex_solution ex_puzzle, Shown).
Proof.
  assert (Ht : carved_from (g_solution ex_game) (g_current ex_game)).
  { intros r c Hr Hc. cbn [ex_game g_solution g_current].
    destruct (Z.eq_dec (cell ex_puzzle r c) 0%Z) as [E|E]; [left; exact E|right].
    symmetry. apply ex_puzzle_completion; assumption. }
  split; [exact ex_game_ok|]. split; [exact ex_game_unique|]. split; [exact Ht|].
  exact (solve_command_gives_solution ex_game ex_game_ok ex_game_unique Ht).
Defined.

(** ** Difficulty *)

(** X23.  [parse_difficulty] looks at the first four characters only:
    the answer is easy exactly for the strings that start with "easy",
    hard exactly for those that start with "hard", and medium for every
    other string (the word "medium" is not looked for) and for the null
    pointer. *)
Theorem parse_difficulty_by_prefix :
  parse_difficulty None = DIFF_MEDIUM /\
  forall s,
    (parse_difficulty (Some s) = DIFF_EASY <->
     exists rest, s = String.append "easy" rest) /\
    (parse_difficulty (Some s) = DIFF_HARD <->
     exists rest, s = String.append "hard" rest) /\
    (parse_difficulty (Some s) = DIFF_MEDIUM <->
     ~ (exists rest, s = String.append "easy" rest) /\
     ~ (exists rest, s = String.append "hard" rest)).
Proof.
  split; [reflexivity|]. intros s.
  destruct (parse_difficulty_words s) as [He Hh].
  split; [exact He|]. split; [exact Hh|].
  destruct (parse_difficulty (Some s)); split.
  - discriminate.
  - intros [H _]. exfalso. apply H. apply He. reflexivity.
  - intros _. split; intros H; [apply He in H|apply Hh in H]; discriminate.
  - reflexivity.
  - discriminate.
  - intros [_ H]. exfalso. apply H. apply Hh. reflexivity.
Qed.

(** X24.  The difficulty prompt ignores the case of the letters and, like
    [parse_difficulty], everything after the fourth character: the answer
    is easy (hard) exactly when the line starts with four characters that
    [tolower] turns into "easy" ("hard"); an empty line, a failed read and
    anything else give medium.  The test for an empty line changes
    nothing. *)
Theorem prompt_difficulty_ignores_case :
  prompt_difficulty None = DIFF_MEDIUM /\
  prompt_difficulty (Some EmptyString) = DIFF_MEDIUM /\
  forall s,
    prompt_difficulty (Some s) = parse_difficulty (Some (lower_buf s)) /\
    (prompt_difficulty (Some s) = DIFF_EASY <->
     exists p rest, s = String.append p rest /\ lower_buf p = "easy"%string) /\
    (prompt_difficulty (Some s) = DIFF_HARD <->
     exists p rest, s = String.append p rest /\ lower_buf p = "hard"%string).
Proof.
  split; [reflexivity|]. split; [reflexivity|]. intros s.
  assert (He : no_nul "easy") by (cbn; repeat split; discriminate).
  assert (Hh : no_nul "hard") by (cbn; repeat split; discriminate).
  split; [apply prompt_difficulty_parse|].
  rewrite prompt_difficulty_parse.
  destruct (parse_difficulty_words (lower_buf s)) as [Pe Ph].
  split.
  - rewrite Pe. apply (lower_buf_prefix "easy" He).
  - rewrite Ph. apply (lower_buf_prefix "hard" Hh).
Qed.
